(** * LlamaGraph: graph store, query engine and cache

    A shallow embedding of the core of the LlamaGraph package
    ([llamagraph/graph/knowledge_graph.py], [llamagraph/graph/query_engine.py],
    [llamagraph/extractor/entity_extractor.py] (class [Entity]),
    [llamagraph/extractor/relation_extractor.py] (class [Relation]) and
    [llamagraph/utils/cache.py]) together with the statements of its
    specification that can be checked against that code.

    Modelling conventions.
    - Python [str] is [string]; Python [int] is [Z]; a Python [set] of strings
      is a [gset string]; a Python [dict] whose iteration order is observed is
      an insertion-ordered association list ([dict_set] keeps the position of
      an existing key, as Python does); the two search dictionaries of the
      breadth-first search, which are only looked up, are [gmap]s.
    - [Entity] objects are mutable and shared by reference: the graph store
      keeps references, so the model has an explicit object heap and the graph
      store holds locations into it.
    - Raised exceptions are values of [exn]; a computation that may raise
      returns a [result].  Loops that Python writes as [while] take a fuel
      argument; running out of fuel is the separate outcome [OutOfFuel], and
      the development proves that it never happens.
    - Case mapping and white space are those of the ASCII range. *)

From stdpp Require Import gmap strings list pretty sorting.
From Stdlib Require Import ZArith Lia Ascii.

#[local] Set Warnings "-clear-no-such-hyp".

Local Open Scope string_scope.
Local Open Scope list_scope.
Local Open Scope nat_scope.

(** ** Exceptions *)

Inductive exn : Type :=
  | NodeNotFound      (* networkx.NodeNotFound *)
  | NetworkXNoPath    (* networkx.NetworkXNoPath *)
  | KeyError          (* a missing dictionary key *)
  | TypeError         (* subscripting None *)
  | OutOfFuel.        (* the model ran out of fuel; never a Python outcome *)

Inductive result (A : Type) : Type :=
  | Ok (a : A)
  | Raise (e : exn).
Arguments Ok {A} a.
Arguments Raise {A} e.

#[global] Instance result_bind : MBind result := λ A B k r,
  match r with
  | Ok a => k a
  | Raise e => Raise e
  end.

(** ** Insertion-ordered dictionaries *)

Section PyDict.
Context {K V : Type} `{EqDecision K}.

Fixpoint dict_get (k : K) (d : list (K * V)) : option V :=
  match d with
  | [] => None
  | (k', v) :: d' => if decide (k = k') then Some v else dict_get k d'
  end.

(** [d[k] = v]: an existing key keeps its position, a new key goes last. *)
Fixpoint dict_set (k : K) (v : V) (d : list (K * V)) : list (K * V) :=
  match d with
  | [] => [(k, v)]
  | (k', v') :: d' =>
      if decide (k = k') then (k, v) :: d' else (k', v') :: dict_set k v d'
  end.

(** [d.pop(k)] as far as the dictionary is concerned. *)
Fixpoint dict_remove (k : K) (d : list (K * V)) : list (K * V) :=
  match d with
  | [] => []
  | (k', v') :: d' =>
      if decide (k = k') then d' else (k', v') :: dict_remove k d'
  end.

Definition dict_keys (d : list (K * V)) : list K := d.*1.
Definition dict_values (d : list (K * V)) : list V := d.*2.
Definition dict_mem (k : K) (d : list (K * V)) : bool :=
  bool_decide (is_Some (dict_get k d)).
End PyDict.

(** ** What [Entity.to_dict] returns; also the attributes of a graph node *)

Record EntityDict : Type := mkEntityDict {
  d_text : string;
  d_entity_type : string;
  d_occurrences : Z;
  d_mentions : list string
}.

(** ** The part of networkx the graph store uses: [DiGraph] and
       [shortest_path] for an unweighted source-target query *)

Module Nx.

(** Attributes of an edge as [add_relation] writes them. *)
Record EdgeAttr : Type := mkEdgeAttr {
  edge_relation_type : string;
  edge_sentence : string
}.

(** Nodes in insertion order with their attributes ([None]: the empty
    attribute dictionary of a node that [add_edge] created); edges in
    insertion order, keyed by the ordered pair.  Nothing here removes a node
    or an edge, so the per-node adjacency dictionaries of networkx iterate in
    the order in which this list gives the edges of a node. *)
Record DiGraph : Type := mkDiGraph {
  g_node : list (string * option EntityDict);
  g_adj : list ((string * string) * EdgeAttr)
}.

Definition empty : DiGraph := mkDiGraph [] [].

Definition has_node (g : DiGraph) (n : string) : bool := dict_mem n (g_node g).

(** [G.add_node(n, **attrs)] where [attrs] assigns every attribute. *)
Definition add_node (g : DiGraph) (n : string) (attrs : EntityDict) : DiGraph :=
  mkDiGraph (dict_set n (Some attrs) (g_node g)) (g_adj g).

(** [G.nodes[n].update(attrs)]; [n] is a node wherever the store calls it. *)
Definition update_node (g : DiGraph) (n : string) (attrs : EntityDict) : DiGraph :=
  if has_node g n then mkDiGraph (dict_set n (Some attrs) (g_node g)) (g_adj g)
  else g.

Definition touch_node (n : string) (ns : list (string * option EntityDict)) :=
  if dict_mem n ns then ns else ns ++ [(n, None)].

(** [G.add_edge(u, v, relation_type=.., sentence=..)]. *)
Definition add_edge (g : DiGraph) (u v : string) (attrs : EdgeAttr) : DiGraph :=
  mkDiGraph (touch_node v (touch_node u (g_node g)))
            (dict_set (u, v) attrs (g_adj g)).

Definition get_edge_data (g : DiGraph) (u v : string) : option EdgeAttr :=
  dict_get (u, v) (g_adj g).

(** [G.succ[v]] and [G.pred[v]], as the lists of their keys. *)
Definition succ (g : DiGraph) (v : string) : list string :=
  omap (λ e, if decide (e.1.1 = v) then Some e.1.2 else None) (g_adj g).
Definition pred (g : DiGraph) (v : string) : list string :=
  omap (λ e, if decide (e.1.2 = v) then Some e.1.1 else None) (g_adj g).

(** [G.out_edges(n, data=True)] and [G.in_edges(n, data=True)]. *)
Definition out_edges (g : DiGraph) (n : string) : list (string * string * EdgeAttr) :=
  filter (λ e, e.1.1 = n) (g_adj g).
Definition in_edges (g : DiGraph) (n : string) : list (string * string * EdgeAttr) :=
  filter (λ e, e.1.2 = n) (g_adj g).

(** *** [_bidirectional_pred_succ] *)

Inductive level_result : Type :=
  | Found (mine : gmap string (option string)) (w : string)
  | Next (mine : gmap string (option string)) (fringe : list string).

(** The inner [for w in Gsucc[v]] (or [Gpred[v]]) loop.  [mine] is the
    dictionary the direction extends, [other] the one it tests. *)
Fixpoint scan_nbrs (other mine : gmap string (option string)) (v : string)
    (ws : list string) (fringe : list string) : level_result :=
  match ws with
  | [] => Next mine fringe
  | w :: ws' =>
      let '(mine', fringe') :=
        match mine !! w with
        | None => (<[w := Some v]> mine, fringe ++ [w])
        | Some _ => (mine, fringe)
        end in
      match other !! w with
      | Some _ => Found mine' w
      | None => scan_nbrs other mine' v ws' fringe'
      end
  end.

(** The [for v in this_level] loop. *)
Fixpoint scan_level (nbrs : string → list string)
    (other mine : gmap string (option string))
    (this_level : list string) (fringe : list string) : level_result :=
  match this_level with
  | [] => Next mine fringe
  | v :: vs =>
      match scan_nbrs other mine v (nbrs v) fringe with
      | Found m w => Found m w
      | Next m f => scan_level nbrs other m vs f
      end
  end.

(** The [while forward_fringe and reverse_fringe] loop. *)
Fixpoint search (fuel : nat) (g : DiGraph)
    (pred_d succ_d : gmap string (option string))
    (forward_fringe reverse_fringe : list string)
    : result (gmap string (option string) * gmap string (option string) * string) :=
  match fuel with
  | 0 => Raise OutOfFuel
  | S fuel' =>
      match forward_fringe, reverse_fringe with
      | _ :: _, _ :: _ =>
          if (length forward_fringe <=? length reverse_fringe)%nat then
            match scan_level (succ g) succ_d pred_d forward_fringe [] with
            | Found pred_d' w => Ok (pred_d', succ_d, w)
            | Next pred_d' fringe' =>
                search fuel' g pred_d' succ_d fringe' reverse_fringe
            end
          else
            match scan_level (pred g) pred_d succ_d reverse_fringe [] with
            | Found succ_d' w => Ok (pred_d, succ_d', w)
            | Next succ_d' fringe' =>
                search fuel' g pred_d succ_d' forward_fringe fringe'
            end
      | _, _ => Raise NetworkXNoPath
      end
  end.

Definition search_fuel (g : DiGraph) : nat := 2 * length (g_node g).

Definition _bidirectional_pred_succ (g : DiGraph) (source target : string)
    : result (gmap string (option string) * gmap string (option string) * string) :=
  if decide (target = source) then
    Ok ({[target := None]}, {[source := None]}, source)
  else
    search (search_fuel g) g {[source := None]} {[target := None]}
           [source] [target].

(** [while w is not None: path.append(w); w = d[w]]. *)
Fixpoint chase (fuel : nat) (d : gmap string (option string))
    (w : option string) : result (list string) :=
  match w with
  | None => Ok []
  | Some x =>
      match fuel with
      | 0 => Raise OutOfFuel
      | S fuel' =>
          match d !! x with
          | None => Raise KeyError
          | Some nxt => rest ← chase fuel' d nxt ; Ok (x :: rest)
          end
      end
  end.

Definition bidirectional_shortest_path (g : DiGraph) (source target : string)
    : result (list string) :=
  if negb (has_node g source) || negb (has_node g target) then
    Raise NodeNotFound
  else
    '(pred_d, succ_d, w) ← _bidirectional_pred_succ g source target ;
    up ← chase (S (size pred_d)) pred_d (Some w) ;
    match succ_d !! w with
    | None => Raise KeyError
    | Some nxt =>
        down ← chase (S (size succ_d)) succ_d nxt ;
        Ok (reverse up ++ down)
    end.

(** [nx.shortest_path(G, source, target)]: no weight, both ends given. *)
Definition shortest_path (g : DiGraph) (source target : string)
    : result (list string) :=
  bidirectional_shortest_path g source target.

End Nx.

(** ** The string methods the package calls *)

Module Py.

Definition char_lower (c : ascii) : ascii :=
  let n := nat_of_ascii c in
  if (65 <=? n)%nat && (n <=? 90)%nat then ascii_of_nat (n + 32) else c.

(** [str.lower] *)
Fixpoint lower (s : string) : string :=
  match s with
  | EmptyString => EmptyString
  | String c s' => String (char_lower c) (lower s')
  end.

(** [str.isspace] on one character, which is also the class [\s]. *)
Definition isspace (c : ascii) : bool :=
  let n := nat_of_ascii c in
  ((9 <=? n)%nat && (n <=? 13)%nat) || ((28 <=? n)%nat && (n <=? 32)%nat).

Fixpoint lstrip (s : string) : string :=
  match s with
  | EmptyString => EmptyString
  | String c s' => if isspace c then lstrip s' else s
  end.

Fixpoint rstrip (s : string) : string :=
  match s with
  | EmptyString => EmptyString
  | String c s' =>
      match rstrip s' with
      | EmptyString => if isspace c then EmptyString else String c EmptyString
      | r => String c r
      end
  end.

(** [str.strip] *)
Definition strip (s : string) : string := rstrip (lstrip s).

(** [sub in s] *)
Fixpoint contains (sub s : string) : bool :=
  if String.prefix sub s then true
  else match s with
       | EmptyString => false
       | String _ s' => contains sub s'
       end.

End Py.

(** ** [Entity] and [Relation] *)

Record Entity : Type := mkEntity {
  text : string;
  normalized_text : string;
  entity_type : string;
  start : Z;
  end_ : Z;
  occurrences : Z;
  mentions : gset string
}.

(** [Entity.__init__] *)
Definition Entity_init (text entity_type : string) (start end_ : Z) : Entity :=
  mkEntity text (Py.strip (Py.lower text)) entity_type start end_ 1 {[ text ]}.

(** [Entity.to_dict]; the order in which a set lists its members is that of
    [elements]. *)
Definition Entity_to_dict (e : Entity) : EntityDict :=
  mkEntityDict (text e) (entity_type e) (occurrences e) (elements (mentions e)).

Definition set_occurrences (n : Z) (e : Entity) : Entity :=
  mkEntity (text e) (normalized_text e) (entity_type e) (start e) (end_ e)
           n (mentions e).
Definition set_mentions (m : gset string) (e : Entity) : Entity :=
  mkEntity (text e) (normalized_text e) (entity_type e) (start e) (end_ e)
           (occurrences e) m.

(** Entity objects live in a heap; a reference is an index into it. *)
Abbreviation ref := nat (only parsing).
Abbreviation heap := (list Entity) (only parsing).

Definition alloc (h : heap) (e : Entity) : heap * ref := (h ++ [e], length h).

(** [Entity.update], statement by statement on the heap: [self] and [other]
    may be the same object. *)
Definition Entity_update (h : heap) (self other : ref) : heap :=
  match h !! self, h !! other with
  | Some s, Some o =>
      (* self.occurrences += other.occurrences *)
      let h1 := <[self := set_occurrences (occurrences s + occurrences o) s]> h in
      match h1 !! self, h1 !! other with
      | Some s1, Some o1 =>
          (* self.mentions.update(other.mentions) *)
          <[self := set_mentions (mentions s1 ∪ mentions o1) s1]> h1
      | _, _ => h1
      end
  | _, _ => h
  end.

Record Relation : Type := mkRelation {
  source : ref;
  target : ref;
  relation_type : string;
  sentence : string
}.

(** What [Relation.to_dict] returns. *)
Record RelationDict : Type := mkRelationDict {
  rd_source : string;
  rd_relation_type : string;
  rd_target : string;
  rd_sentence : string
}.

Definition heap_text (h : heap) (r : ref) : string :=
  match h !! r with
  | Some e => text e
  | None => ""
  end.

Definition heap_entity_type (h : heap) (r : ref) : string :=
  match h !! r with
  | Some e => entity_type e
  | None => ""
  end.

Definition Relation_to_dict (h : heap) (r : Relation) : RelationDict :=
  mkRelationDict (heap_text h (source r)) (relation_type r)
                 (heap_text h (target r)) (sentence r).

(** ** [KnowledgeGraph] *)

Record KnowledgeGraph : Type := mkKnowledgeGraph {
  entities : list (string * ref);      (* text -> Entity *)
  relations : list Relation;
  graph : Nx.DiGraph
}.

(** [KnowledgeGraph.__init__] *)
Definition KnowledgeGraph_init : KnowledgeGraph :=
  mkKnowledgeGraph [] [] Nx.empty.

(** The entry of [get_relations]. *)
Inductive direction : Type := outgoing | incoming.
#[global] Instance direction_eq_dec : EqDecision direction.
Proof. solve_decision. Defined.
Record RelationEntry : Type := mkRelationEntry {
  re_direction : direction;
  re_relation_type : string;
  re_entity : string;
  re_sentence : string
}.

(** The entry of [get_path]. *)
Record PathStep : Type := mkPathStep {
  ps_source : string;
  ps_target : string;
  ps_relation_type : string;
  ps_sentence : string
}.

(** What [to_dict] returns and [load] reads. *)
Record Snapshot : Type := mkSnapshot {
  snap_entities : list EntityDict;
  snap_relations : list RelationDict
}.

Definition add_entity (h : heap) (self : KnowledgeGraph) (entity : ref)
    : heap * KnowledgeGraph :=
  match h !! entity with
  | None => (h, self)       (* a reference always denotes an object *)
  | Some e =>
      match dict_get (text e) (entities self) with
      | None =>
          (h, mkKnowledgeGraph
                (dict_set (text e) entity (entities self))
                (relations self)
                (Nx.add_node (graph self) (text e) (Entity_to_dict e)))
      | Some r =>
          let h' := Entity_update h r entity in
          let attrs := match h' !! r with
                       | Some e' => Entity_to_dict e'
                       | None => Entity_to_dict e
                       end in
          (h', mkKnowledgeGraph
                 (entities self) (relations self)
                 (Nx.update_node (graph self) (text e) attrs))
      end
  end.

Definition add_relation (h : heap) (self : KnowledgeGraph) (relation : Relation)
    : KnowledgeGraph :=
  mkKnowledgeGraph
    (entities self)
    (relations self ++ [relation])
    (Nx.add_edge (graph self)
       (heap_text h (source relation)) (heap_text h (target relation))
       (Nx.mkEdgeAttr (relation_type relation) (sentence relation))).

Definition get_entity (self : KnowledgeGraph) (entity_text : string) : option ref :=
  dict_get entity_text (entities self).

(** The dictionaries the two loops of [get_relations] append. *)
Definition out_entry (e : string * string * Nx.EdgeAttr) : RelationEntry :=
  mkRelationEntry outgoing (Nx.edge_relation_type e.2) e.1.2 (Nx.edge_sentence e.2).
Definition in_entry (e : string * string * Nx.EdgeAttr) : RelationEntry :=
  mkRelationEntry incoming (Nx.edge_relation_type e.2) e.1.1 (Nx.edge_sentence e.2).

Definition get_relations (h : heap) (self : KnowledgeGraph) (entity_text : string)
    : list RelationEntry :=
  match get_entity self entity_text with
  | None => []
  | Some r =>
      let t := heap_text h r in
      (out_entry <$> Nx.out_edges (graph self) t)
      ++ (in_entry <$> Nx.in_edges (graph self) t)
  end.

(** The [for i in range(len(path) - 1)] loop of [get_path]. *)
Fixpoint path_steps (g : Nx.DiGraph) (path : list string) : result (list PathStep) :=
  match path with
  | source_node :: ((target_node :: _) as rest) =>
      match Nx.get_edge_data g source_node target_node with
      | None => Raise TypeError
      | Some edge_data =>
          steps ← path_steps g rest;
          Ok (mkPathStep source_node target_node
                (Nx.edge_relation_type edge_data) (Nx.edge_sentence edge_data)
              :: steps)
      end
  | _ => Ok []
  end.

Definition get_path (self : KnowledgeGraph) (source target : string)
    : result (list PathStep) :=
  match Nx.shortest_path (graph self) source target with
  | Ok path => path_steps (graph self) path
  | Raise NetworkXNoPath | Raise NodeNotFound => Ok []
  | Raise e => Raise e
  end.

Definition to_dict (h : heap) (self : KnowledgeGraph) : Snapshot :=
  mkSnapshot
    (map (λ r, match h !! r with
               | Some e => Entity_to_dict e
               | None => mkEntityDict "" "" 0 []
               end) (dict_values (entities self)))
    (map (Relation_to_dict h) (relations self)).

(** The two loops of [load]. *)
Fixpoint load_entities (h : heap) (self : KnowledgeGraph) (data : list EntityDict)
    : heap * KnowledgeGraph :=
  match data with
  | [] => (h, self)
  | entity_data :: data' =>
      let entity :=
        set_mentions (list_to_set (d_mentions entity_data))
          (set_occurrences (d_occurrences entity_data)
             (Entity_init (d_text entity_data) (d_entity_type entity_data) 0 0)) in
      let '(h1, r) := alloc h entity in
      let '(h2, self2) := add_entity h1 self r in
      load_entities h2 self2 data'
  end.

Fixpoint load_relations (h : heap) (self : KnowledgeGraph) (data : list RelationDict)
    : KnowledgeGraph :=
  match data with
  | [] => self
  | relation_data :: data' =>
      match get_entity self (rd_source relation_data),
            get_entity self (rd_target relation_data) with
      | Some s, Some t =>
          load_relations h
            (add_relation h self
               (mkRelation s t (rd_relation_type relation_data)
                           (rd_sentence relation_data)))
            data'
      | _, _ => load_relations h self data'   (* logged and skipped *)
      end
  end.

(** [load], from the parsed file contents on. *)
Definition load (h : heap) (data : Snapshot) : heap * KnowledgeGraph :=
  let '(h', self) := load_entities h KnowledgeGraph_init (snap_entities data) in
  (h', load_relations h' self (snap_relations data)).

Definition _count_entity_types (h : heap) (self : KnowledgeGraph)
    : list (string * Z) :=
  foldl (λ counts r,
           let ty := heap_entity_type h r in
           dict_set ty (default 0%Z (dict_get ty counts) + 1)%Z counts)
        [] (dict_values (entities self)).

Definition _count_relation_types (self : KnowledgeGraph) : list (string * Z) :=
  foldl (λ counts r,
           dict_set (relation_type r)
                    (default 0%Z (dict_get (relation_type r) counts) + 1)%Z counts)
        [] (relations self).

(** ** The regular expressions of the query engine

    The six command patterns are sequences of three kinds of items between
    [^] and [$]: a literal word, [\s+] and a capturing [(.+)].  [re_match]
    is the backtracking matcher restricted to them: both repetitions are
    greedy and give characters back one at a time; the patterns are compiled
    with [re.IGNORECASE]; [.] excludes the line feed; [$] holds at the end
    and just before a final line feed. *)

Module Re.

Inductive item : Type :=
  | Lit (word : string)
  | Spaces              (* \s+ *)
  | Group.              (* (.+) *)

Fixpoint lit (word s : string) : option string :=
  match word, s with
  | EmptyString, _ => Some s
  | String a word', String b s' =>
      if decide (Py.char_lower a = Py.char_lower b) then lit word' s' else None
  | String _ _, EmptyString => None
  end.

(** One or more characters of class [ok], longest first. *)
Fixpoint greedy {R : Type} (ok : ascii → bool) (s : string)
    (k : string → string → option R) : option R :=
  match s with
  | EmptyString => None
  | String c s' =>
      if ok c then
        match greedy ok s' (λ taken rest, k (String c taken) rest) with
        | Some r => Some r
        | None => k (String c EmptyString) s'
        end
      else None
  end.

Definition dot (c : ascii) : bool := negb (bool_decide (c = "010"%char)).

Definition at_end (s : string) : bool :=
  bool_decide (s = EmptyString) || bool_decide (s = String "010"%char EmptyString).

Fixpoint run (p : list item) (s : string) (groups : list string)
    : option (list string) :=
  match p with
  | [] => if at_end s then Some groups else None
  | Lit word :: p' =>
      match lit word s with
      | Some rest => run p' rest groups
      | None => None
      end
  | Spaces :: p' => greedy Py.isspace s (λ _ rest, run p' rest groups)
  | Group :: p' => greedy dot s (λ taken rest, run p' rest (groups ++ [taken]))
  end.

(** [pattern.match(s)] followed by [.groups()]. *)
Definition re_match (p : list item) (s : string) : option (list string) :=
  run p s [].

End Re.

(** ** [QueryEngine] *)

Record SimilarEntry : Type := mkSimilarEntry {
  se_entity : string;
  se_shared_relation_type : string;
  se_via : string
}.

Inductive Data : Type :=
  | FindData (entity : EntityDict) (relations : list RelationEntry)
  | PathData (path : list PathStep) (length : nat)
  | RelatedData (direct_relations : list RelationEntry)
                (similar_entities : list SimilarEntry)
  | CountData (counts : list (string * Z)) (total : Z)
  | HelpData (commands : list (string * string)).

(** The dictionary every handler returns. *)
Record Response : Type := mkResponse {
  success : bool;
  message : string;
  data : option Data
}.

Inductive command : Type :=
  | cmd_find | cmd_path | cmd_related | cmd_count | cmd_export | cmd_help.

(** [self.command_patterns], in the order of the dictionary. *)
Definition command_patterns : list (command * list Re.item) :=
  [ (cmd_find, [Re.Lit "find"; Re.Spaces; Re.Group]);
    (cmd_path, [Re.Lit "path"; Re.Spaces; Re.Lit "from"; Re.Spaces; Re.Group;
                Re.Spaces; Re.Lit "to"; Re.Spaces; Re.Group]);
    (cmd_related, [Re.Lit "related"; Re.Spaces; Re.Group]);
    (cmd_count, [Re.Lit "count"; Re.Spaces; Re.Group]);
    (cmd_export, [Re.Lit "export"; Re.Spaces; Re.Group]);
    (cmd_help, [Re.Lit "help"]) ].

(** [str.split()] and [" ".join]. *)
Fixpoint split_from (cur : option string) (s : string) : list string :=
  match s with
  | EmptyString => match cur with Some w => [w] | None => [] end
  | String c s' =>
      if Py.isspace c then
        match cur with
        | Some w => w :: split_from None s'
        | None => split_from None s'
        end
      else split_from (Some (default EmptyString cur +:+ String c EmptyString)) s'
  end.
Definition split (s : string) : list string := split_from None s.

Fixpoint join (sep : string) (words : list string) : string :=
  match words with
  | [] => EmptyString
  | [w] => w
  | w :: ws => w +:+ sep +:+ join sep ws
  end.

Section QueryEngine.

(** [KnowledgeGraph.save] writes a file and changes nothing in memory; what
    the engine sees of it is whether it raised, and with which text. *)
Variable save_error : string → option string.

Variable h : heap.
Variable kg : KnowledgeGraph.

Definition not_found (name : string) : Response :=
  mkResponse false ("Entity '" +:+ name +:+ "' not found.") None.

(** The case-insensitive loop of [_handle_find]. *)
Fixpoint find_ci (entity_name : string) (items : list (string * ref))
    : option ref :=
  match items with
  | [] => None
  | (name, e) :: items' =>
      if decide (Py.lower name = Py.lower entity_name) then Some e
      else find_ci entity_name items'
  end.

Definition _handle_find (entity_name : string) : result Response :=
  let entity :=
    match get_entity kg entity_name with
    | Some e => Some e
    | None => find_ci entity_name (entities kg)
    end in
  match entity with
  | Some e =>
      let t := heap_text h e in
      Ok (mkResponse true ("Found entity: " +:+ t)
            (Some (FindData
                     (match h !! e with
                      | Some ent => Entity_to_dict ent
                      | None => mkEntityDict "" "" 0 []
                      end)
                     (get_relations h kg t))))
  | None => Ok (not_found entity_name)
  end.

Definition _handle_path (source target : string) : result Response :=
  match get_entity kg source, get_entity kg target with
  | None, _ =>
      Ok (mkResponse false ("Source entity '" +:+ source +:+ "' not found.") None)
  | Some _, None =>
      Ok (mkResponse false ("Target entity '" +:+ target +:+ "' not found.") None)
  | Some s, Some t =>
      path ← get_path kg (heap_text h s) (heap_text h t);
      match path with
      | _ :: _ =>
          Ok (mkResponse true
                ("Found path from '" +:+ source +:+ "' to '" +:+ target +:+ "'")
                (Some (PathData path (length path))))
      | [] =>
          Ok (mkResponse false
                ("No path found from '" +:+ source +:+ "' to '" +:+ target +:+ "'.")
                None)
      end
  end.

Definition similar_via (entity_text : string) (rel : RelationEntry)
    : list SimilarEntry :=
  let other_entity := re_entity rel in
  omap (λ other_rel,
          if bool_decide (re_entity other_rel ≠ entity_text)
             && bool_decide (re_relation_type other_rel = re_relation_type rel)
          then Some (mkSimilarEntry (re_entity other_rel)
                                    (re_relation_type rel) other_entity)
          else None)
       (get_relations h kg other_entity).

Definition _handle_related (entity_name : string) : result Response :=
  match get_entity kg entity_name with
  | None => Ok (not_found entity_name)
  | Some e =>
      let t := heap_text h e in
      let direct_relations := get_relations h kg t in
      let similar_entities := direct_relations ≫= similar_via t in
      Ok (mkResponse true
            ("Found related entities for '" +:+ entity_name +:+ "'")
            (Some (RelatedData direct_relations (take 5 similar_entities))))
  end.

Definition sum_values (counts : list (string * Z)) : Z :=
  foldr Z.add 0%Z (dict_values counts).

Definition _handle_count (entity_type_name : string) : result Response :=
  let counts :=
    if decide (Py.lower entity_type_name = "entities") then
      _count_entity_types h kg
    else if decide (Py.lower entity_type_name = "relations") then
      _count_relation_types kg
    else
      [(entity_type_name,
        Z.of_nat (length (filter
           (λ r, Py.lower (heap_entity_type h r) = Py.lower entity_type_name)
           (dict_values (entities kg)))))] in
  Ok (mkResponse true ("Count for " +:+ entity_type_name)
        (Some (CountData counts (sum_values counts)))).

Definition _handle_export (filename : string) : result Response :=
  match save_error filename with
  | None =>
      Ok (mkResponse true ("Knowledge graph exported to " +:+ filename) None)
  | Some e =>
      Ok (mkResponse false ("Error exporting knowledge graph: " +:+ e) None)
  end.

Definition help_commands : list (string * string) :=
  [ ("find <entity>", "Find information about an entity");
    ("path from <entity1> to <entity2>",
     "Find the shortest path between two entities");
    ("related <entity>", "Find entities related to the given entity");
    ("count entities", "Count entities by type");
    ("count relations", "Count relations by type");
    ("export <filename>", "Export the knowledge graph to a file");
    ("help", "Show this help message");
    ("exit", "Exit the program") ].

Definition _handle_help : result Response :=
  Ok (mkResponse true "Available commands:" (Some (HelpData help_commands))).

Definition dont_understand : Response :=
  mkResponse false
    "I don't understand that query. Try 'help' for a list of commands." None.

(** The handler is called with the groups of the match; every pattern
    yields as many groups as its handler takes. *)
Definition call_handler (cmd : command) (groups : list string)
    : result Response :=
  match cmd, groups with
  | cmd_find, [name] => _handle_find name
  | cmd_path, [a; b] => _handle_path a b
  | cmd_related, [name] => _handle_related name
  | cmd_count, [ty] => _handle_count ty
  | cmd_export, [filename] => _handle_export filename
  | cmd_help, [] => _handle_help
  | _, _ => Raise TypeError
  end.

(** The [for cmd, pattern in self.patterns.items()] loop. *)
Fixpoint first_match (patterns : list (command * list Re.item)) (query : string)
    : option (command * list string) :=
  match patterns with
  | [] => None
  | (cmd, pattern) :: patterns' =>
      match Re.re_match pattern query with
      | Some groups => Some (cmd, groups)
      | None => first_match patterns' query
      end
  end.

Definition execute_query (query : string) : result Response :=
  let query := Py.strip query in
  match first_match command_patterns query with
  | Some (cmd, groups) => call_handler cmd groups
  | None =>
      let potential_entity :=
        if Py.contains "find" (Py.lower query)
           || Py.contains "show" (Py.lower query)
        then match split query with
             | _ :: ((_ :: _) as rest) => join " " rest
             | _ => EmptyString
             end
        else EmptyString in
      if decide (potential_entity = EmptyString) then Ok dont_understand
      else _handle_find potential_entity
  end.

End QueryEngine.

(** ** [Cache]

    The cache directory is the list of its [*.cache] files in the order in
    which the directory lists them; a file has the stem of its name, a
    modification time and, when its content parses, the value it holds.
    Python's [hash] of a string differs from process to process and is a
    parameter; values are of any type [V].  File operations succeed; the only
    failure is that of reading a file whose content does not parse. *)

Record File (V : Type) : Type := mkFile {
  f_stem : string;
  f_mtime : Z;
  f_value : option V
}.
Arguments mkFile {V} _ _ _.
Arguments f_stem {V} _.
Arguments f_mtime {V} _.
Arguments f_value {V} _.

Record Cache (V : Type) : Type := mkCache {
  cache_dir : list (File V);
  max_size : Z;
  cache : list (string * V)          (* the OrderedDict, oldest first *)
}.
Arguments mkCache {V} _ _ _.
Arguments cache_dir {V} _.
Arguments max_size {V} _.
Arguments cache {V} _.

Section CacheOps.
Context {V : Type}.
Variable hash : string → Z.

(** [_get_cache_file], as the stem of the file name. *)
Definition _get_cache_file (key : string) : string :=
  pretty (Z.abs (hash key)).

Definition file_exists (stem : string) (dir : list (File V)) : bool :=
  bool_decide (stem ∈ f_stem <$> dir).

Definition unlink (stem : string) (dir : list (File V)) : list (File V) :=
  filter (λ f, f_stem f ≠ stem) dir.

(** [open(file, "w")] and [json.dump] at time [now]. *)
Definition write_file (now : Z) (stem : string) (value : V)
    (dir : list (File V)) : list (File V) :=
  if file_exists stem dir then
    (λ f, if decide (f_stem f = stem) then mkFile stem now (Some value) else f)
      <$> dir
  else dir ++ [mkFile stem now (Some value)].

Definition read_file (stem : string) (dir : list (File V)) : option V :=
  f ← list_find (λ f, f_stem f = stem) dir; f_value f.2.

(** [cache_files.sort(key=mtime, reverse=True)]: most recent first, files
    of equal time in their previous order. *)
Fixpoint insert_by_mtime (f : File V) (l : list (File V)) : list (File V) :=
  match l with
  | [] => [f]
  | g :: l' =>
      if (f_mtime g <? f_mtime f)%Z then f :: l
      else g :: insert_by_mtime f l'
  end.
Definition sort_by_mtime (l : list (File V)) : list (File V) :=
  foldl (λ acc f, insert_by_mtime f acc) [] l.

(** The slice [l[:n]]; a negative [n] counts from the end. *)
Definition slice_to {A : Type} (n : Z) (l : list A) : list A :=
  if (0 <=? n)%Z then take (Z.to_nat n) l
  else take (length l - Z.to_nat (- n)) l.

Definition _load_cache (c : Cache V) : Cache V :=
  mkCache (cache_dir c) (max_size c)
    (foldl (λ m f,
              match f_value f with
              | Some value => dict_set (f_stem f) value m
              | None => m                      (* logged and skipped *)
              end)
           (cache c)
           (slice_to (max_size c) (sort_by_mtime (cache_dir c)))).

(** [Cache.__init__] *)
Definition Cache_init (dir : list (File V)) (max_size : Z) : Cache V :=
  _load_cache (mkCache dir max_size []).

(** The [while] loop of [_prune_cache]; [popitem] on an empty dictionary
    raises [KeyError], which happens only for a negative [max_size]. *)
Fixpoint prune (max_size : Z) (m : list (string * V)) (dir : list (File V))
    : list (string * V) * list (File V) * option exn :=
  match m with
  | [] => (m, dir, if (0 >? max_size)%Z then Some KeyError else None)
  | (key, _) :: m' =>
      if (Z.of_nat (length m) >? max_size)%Z then
        prune max_size m' (unlink (_get_cache_file key) dir)
      else (m, dir, None)
  end.

Definition _prune_cache (c : Cache V) : Cache V * option exn :=
  let '(m, dir, e) := prune (max_size c) (cache c) (cache_dir c) in
  (mkCache dir (max_size c) m, e).

(** [Cache.get] *)
Definition get (c : Cache V) (key : string) : option V * Cache V :=
  match dict_get key (cache c) with
  | Some value =>
      (Some value,
       mkCache (cache_dir c) (max_size c)
               (dict_set key value (dict_remove key (cache c))))
  | None =>
      let cache_file := _get_cache_file key in
      if file_exists cache_file (cache_dir c) then
        match read_file cache_file (cache_dir c) with
        | Some value =>
            let '(c', e) :=
              _prune_cache (mkCache (cache_dir c) (max_size c)
                                    (dict_set key value (cache c))) in
            match e with
            | None => (Some value, c')
            | Some _ => (None, c')            (* caught and logged *)
            end
        | None => (None, c)                   (* caught and logged *)
        end
      else (None, c)
  end.

(** [Cache.set], called at time [now]. *)
Definition set (now : Z) (c : Cache V) (key : string) (value : V)
    : result (Cache V) :=
  let '(c', e) :=
    _prune_cache (mkCache (cache_dir c) (max_size c)
                          (dict_set key value (cache c))) in
  match e with
  | Some e => Raise e
  | None =>
      Ok (mkCache (write_file now (_get_cache_file key) value (cache_dir c'))
                  (max_size c') (cache c'))
  end.

(** [Cache.clear] *)
Definition clear (c : Cache V) : Cache V :=
  mkCache [] (max_size c) [].

(** A sequence of [set] calls, one time unit apart. *)
Fixpoint set_all (now : Z) (c : Cache V) (items : list (string * V))
    : result (Cache V) :=
  match items with
  | [] => Ok c
  | (key, value) :: items' =>
      c' ← set now c key value; set_all (now + 1) c' items'
  end.

End CacheOps.


(** * Specification vocabulary *)

(** ** Routes in the directed graph *)

Definition is_edge (g : Nx.DiGraph) (u v : string) : Prop :=
  is_Some (Nx.get_edge_data g u v).

(** [route g u l t]: following the edges of [g] from [u] through the nodes of
    [l], one edge per element of [l], ends in [t]. *)
Fixpoint route (g : Nx.DiGraph) (u : string) (l : list string) (t : string) : Prop :=
  match l with
  | [] => u = t
  | v :: l' => is_edge g u v ∧ route g v l' t
  end.

(** [steps_from g u steps t]: the steps start at [u], each one is an edge of
    [g] reported with the attributes stored for it and starts where the
    previous one ended, and the last one ends in [t]. *)
Fixpoint steps_from (g : Nx.DiGraph) (u : string) (steps : list PathStep)
    (t : string) : Prop :=
  match steps with
  | [] => u = t
  | st :: steps' =>
      ps_source st = u
      ∧ Nx.get_edge_data g u (ps_target st)
        = Some (Nx.mkEdgeAttr (ps_relation_type st) (ps_sentence st))
      ∧ steps_from g (ps_target st) steps' t
  end.

(** The shape of a graph that [add_node], [update_node] and [add_edge] keep:
    no node and no edge is listed twice, and edges join nodes. *)
Record graph_wf (g : Nx.DiGraph) : Prop := mkGraphWf {
  wf_nodes : NoDup (dict_keys (Nx.g_node g));
  wf_edges : NoDup (dict_keys (Nx.g_adj g));
  wf_ends : ∀ u v, is_edge g u v →
              u ∈ dict_keys (Nx.g_node g) ∧ v ∈ dict_keys (Nx.g_node g)
}.

(** ** The invariant of the two-sided search *)

Section SearchVocabulary.
Variable nbrs : string → list string.

(** [reach root n v]: [n] steps along [nbrs] lead from [root] to [v]. *)
Inductive reach (root : string) : nat → string → Prop :=
  | reach_O : reach root 0 root
  | reach_S n u v : reach root n u → v ∈ nbrs u → reach root (S n) v.

Definition within (root : string) (d : nat) (v : string) : Prop :=
  ∃ n, n ≤ d ∧ reach root n v.

(** [chain m root v l]: the entries of the search dictionary [m] lead from
    [v] through the nodes of [l] to [root], whose entry is [None]. *)
Inductive chain (m : gmap string (option string)) (root : string)
    : string → list string → Prop :=
  | chain_nil : m !! root = Some None → chain m root root []
  | chain_cons v u l :
      m !! v = Some (Some u) → v ∈ nbrs u → chain m root u l →
      chain m root v (u :: l).

(** One direction of the search after [d] completed levels. *)
Record half_inv (root : string) (d : nat) (m : gmap string (option string))
    (fringe : list string) : Prop := mkHalfInv {
  hi_dom : ∀ v, is_Some (m !! v) ↔ within root d v;
  hi_old : ∀ v, is_Some (m !! v) → v ∈ fringe ∨ ∃ k, d = S k ∧ within root k v;
  hi_fringe : ∀ v, v ∈ fringe → is_Some (m !! v);
  hi_chain : ∀ v, is_Some (m !! v) → ∃ l, length l ≤ d ∧ chain m root v l;
  hi_size : fringe ≠ [] → d < size m
}.
End SearchVocabulary.

Definition search_inv (g : Nx.DiGraph) (s t : string) (df dr : nat)
    (pred_d succ_d : gmap string (option string)) (ff rf : list string) : Prop :=
  half_inv (Nx.succ g) s df pred_d ff
  ∧ half_inv (Nx.pred g) t dr succ_d rf
  ∧ (∀ x, is_Some (pred_d !! x) → is_Some (succ_d !! x) → False)
  ∧ (∀ x, is_Some (pred_d !! x) → x ∈ dict_keys (Nx.g_node g))
  ∧ (∀ x, is_Some (succ_d !! x) → x ∈ dict_keys (Nx.g_node g)).

(** ** States of the graph store

    The states the methods of [KnowledgeGraph] produce, over heaps in which
    entity objects are created at will. *)
Inductive reachable : heap → KnowledgeGraph → Prop :=
  | reachable_init h : reachable h KnowledgeGraph_init
  | reachable_new h kg e : reachable h kg → reachable (h ++ [e]) kg
  | reachable_add_entity h kg r :
      reachable h kg → r < length h →
      reachable (add_entity h kg r).1 (add_entity h kg r).2
  | reachable_add_relation h kg rel :
      reachable h kg → source rel < length h → target rel < length h →
      reachable h (add_relation h kg rel).

(** What every reachable state satisfies. *)
Record store_inv (h : heap) (kg : KnowledgeGraph) : Prop := mkStoreInv {
  si_graph : graph_wf (graph kg);
  si_keys : NoDup (dict_keys (entities kg));
  si_text : ∀ k r, (k, r) ∈ entities kg → r < length h ∧ heap_text h r = k;
  si_nodes : ∀ k r, (k, r) ∈ entities kg → k ∈ dict_keys (Nx.g_node (graph kg));
  si_rels : ∀ rel, rel ∈ relations kg → source rel < length h ∧ target rel < length h
}.

(** ** Relations a snapshot can restore

    [load] keeps a serialized relation when both of its ends are keys of the
    entities it has loaded. *)
Definition resolved (ents : list (string * ref)) (rd : RelationDict) : Prop :=
  is_Some (dict_get (rd_source rd) ents) ∧ is_Some (dict_get (rd_target rd) ents).

#[global] Instance resolved_dec ents rd : Decision (resolved ents rd).
Proof. unfold resolved. apply _. Defined.

(** The object [load] builds from a serialized entity. *)
Definition entity_of_dict (d : EntityDict) : Entity :=
  set_mentions (list_to_set (d_mentions d))
    (set_occurrences (d_occurrences d)
       (Entity_init (d_text d) (d_entity_type d) 0 0)).

(** ** Vocabulary of the query engine *)

(** The number of capturing groups of a pattern, and the number of
    arguments each handler takes after [self]. *)
Fixpoint groups_of (p : list Re.item) : nat :=
  match p with
  | [] => 0
  | Re.Group :: p' => S (groups_of p')
  | _ :: p' => groups_of p'
  end.

Definition arity (cmd : command) : nat :=
  match cmd with
  | cmd_path => 2
  | cmd_help => 0
  | _ => 1
  end.

Fixpoint string_forall (ok : ascii → bool) (s : string) : bool :=
  match s with
  | EmptyString => true
  | String c s' => ok c && string_forall ok s'
  end.

(** A name as a user types it after a command word: not empty, no white
    space at either end, no line feed. *)
Definition plain_name (s : string) : Prop :=
  s ≠ EmptyString ∧ Py.strip s = s ∧ string_forall Re.dot s = true.

(** ** Vocabulary of the cache *)

(** More recent first. *)
Definition newer_first {V : Type} (f g : File V) : Prop :=
  (f_mtime g ≤ f_mtime f)%Z.

(** The entry a readable file is loaded as. *)
Definition entry_of_file {V : Type} (f : File V) : option (string * V) :=
  (λ value, (f_stem f, value)) <$> f_value f.

(** The directory after the mirror files of [keys] have been deleted. *)
Definition unlink_all {V : Type} (hash : string → Z) (keys : list string)
    (dir : list (File V)) : list (File V) :=
  foldl (λ d key, unlink (_get_cache_file hash key) d) dir keys.

(** ** Sample states *)

(** A hash for the samples: any function may stand for Python's. *)
Definition sample_hash (s : string) : Z := (Z.of_nat (String.length s) - 10)%Z.


(** A store with the chain A -> B -> C -> D and a fifth entity E apart. *)
Definition chain_heap : heap :=
  [ Entity_init "A" "ORG" 0 1; Entity_init "B" "ORG" 0 1; Entity_init "C" "ORG" 0 1;
    Entity_init "D" "ORG" 0 1 ].
Definition chain_entities : KnowledgeGraph :=
  foldl (λ kg r, (add_entity chain_heap kg r).2) KnowledgeGraph_init [0; 1; 2; 3].
Definition chain_kg : KnowledgeGraph :=
  foldl (add_relation chain_heap) chain_entities
    [ mkRelation 0 1 "owns" "A owns B."; mkRelation 1 2 "funds" "B funds C.";
      mkRelation 2 3 "hires" "C hires D." ].


(** A store with two entities whose texts differ by case only. *)
Definition case_heap : heap :=
  [ Entity_init "google" "ORG" 0 6; Entity_init "Google" "ORG" 0 6;
    Entity_init "Apple" "ORG" 0 5 ].
Definition case_kg : KnowledgeGraph :=
  foldl (λ kg r, (add_entity case_heap kg r).2) KnowledgeGraph_init [0; 1; 2].

(** A cache directory with an unreadable file. *)
Definition sample_dir : list (File string) :=
  [ mkFile "11" 5 (Some "a"); mkFile "22" 9 (Some "b"); mkFile "33" 7 None ].

(** * The rest of the graph store and its callers *)

(** ** [KnowledgeGraph.get_summary] and [_get_most_connected] *)

(** [G.nodes()], in insertion order. *)
Definition nodes (g : Nx.DiGraph) : list string := dict_keys (Nx.g_node g).

(** [G.degree(n)] of a directed graph: the number of entries of [G.succ[n]]
    plus that of [G.pred[n]]; a self-loop counts in both. *)
Definition degree (g : Nx.DiGraph) (n : string) : nat :=
  length (Nx.succ g n) + length (Nx.pred g n).

(** The entry of [_get_most_connected]. *)
Record Connected : Type := mkConnected {
  mc_entity : string;
  mc_type : string;
  mc_connections : nat
}.

(** [degrees.sort(key=lambda x: x[1], reverse=True)]: highest degree first,
    nodes of equal degree in their previous order. *)
Fixpoint insert_by_degree (x : string * nat) (l : list (string * nat))
    : list (string * nat) :=
  match l with
  | [] => [x]
  | y :: l' => if y.2 <? x.2 then x :: l else y :: insert_by_degree x l'
  end.
Definition sort_by_degree (l : list (string * nat)) : list (string * nat) :=
  foldl (λ acc x, insert_by_degree x acc) [] l.

Definition _get_most_connected (h : heap) (self : KnowledgeGraph) (limit : Z)
    : list Connected :=
  let degrees := (λ node, (node, degree (graph self) node)) <$> nodes (graph self) in
  omap (λ nd, match get_entity self nd.1 with
              | Some entity =>
                  Some (mkConnected nd.1 (heap_entity_type h entity) nd.2)
              | None => None
              end)
       (slice_to limit (sort_by_degree degrees)).

(** What [get_summary] returns. *)
Record Summary : Type := mkSummary {
  sm_num_entities : nat;
  sm_num_relations : nat;
  sm_entity_types : list (string * Z);
  sm_relation_types : list (string * Z);
  sm_most_connected : list Connected
}.

Definition get_summary (h : heap) (self : KnowledgeGraph) : Summary :=
  mkSummary (length (entities self)) (length (relations self))
            (_count_entity_types h self) (_count_relation_types self)
            (_get_most_connected h self 5).

(** The counting loop of [_count_entity_types] and [_count_relation_types]
    over the values [key x] of a list. *)
Definition count_by {A : Type} (key : A → string) (l : list A) : list (string * Z) :=
  foldl (λ counts x,
           dict_set (key x) (default 0%Z (dict_get (key x) counts) + 1)%Z counts)
        [] l.

(** The relations of a store that join [u] to [v], oldest first. *)
Definition relations_between (h : heap) (kg : KnowledgeGraph) (u v : string)
    : list Relation :=
  filter (λ r, heap_text h (source r) = u ∧ heap_text h (target r) = v)
         (relations kg).

Definition attrs_of (r : Relation) : Nx.EdgeAttr :=
  Nx.mkEdgeAttr (relation_type r) (sentence r).

(** Highest degree first. *)
Definition more_connected (x y : string * nat) : Prop := y.2 ≤ x.2.

(** ** Vocabulary of the cache states *)

(** A cache whose memory respects its capacity: no key twice, at most
    [max_size] entries. *)
Definition cache_ok {V : Type} (c : Cache V) : Prop :=
  (0 ≤ max_size c)%Z
  ∧ NoDup (dict_keys (cache c))
  ∧ length (cache c) ≤ Z.to_nat (max_size c).

(** ** Vocabulary of the [path] command *)

(** What follows the first captured name in the [path] pattern. *)
Definition path_tail : list Re.item := [Re.Spaces; Re.Lit "to"; Re.Spaces; Re.Group].

(** A word: a character that is no white space. *)
Definition word_char (c : ascii) : bool := negb (Py.isspace c).

(** ** A sample store for the [related] command *)

(** Two owners of the same entity: A owns B and C owns B. *)
Definition rival_heap : heap :=
  [ Entity_init "A" "ORG" 0 1; Entity_init "B" "ORG" 0 1; Entity_init "C" "ORG" 0 1 ].
Definition rival_kg : KnowledgeGraph :=
  foldl (add_relation rival_heap)
    (foldl (λ kg r, (add_entity rival_heap kg r).2) KnowledgeGraph_init [0; 1; 2])
    [ mkRelation 0 1 "owns" "A owns B."; mkRelation 2 1 "owns" "C owns B." ].

(** * The extractors and the pipeline

    [EntityExtractor] and [RelationExtractor] call spaCy and Python's [re]
    on configured patterns.  What these libraries answer is a parameter of
    the model: the sentences of a text, the entity spans and the tokens of a
    sentence, the matches of a pattern in a sentence.  Everything the package
    does with these answers is modelled: filtering, merging, the lookup of
    entities, the use of the cache.  A worker function returns an [option]:
    [None] stands for "raised", whatever the exception, because the pool of
    [parallel_process] catches every exception and records [None]. *)

(** ** [parallel_process]: one result per item, in the order of the items,
       [None] for an item on which the function raised *)
Definition parallel_process {T R : Type} (items : list T)
    (process_func : T → option R) : list (option R) :=
  process_func <$> items.

(** ** The values the extractors keep in the cache *)

Record CachedEntity : Type := mkCachedEntity {
  ce_text : string;
  ce_entity_type : string;
  ce_start : Z;
  ce_end : Z
}.

Inductive CacheValue : Type :=
  | EntityList (l : list CachedEntity)
  | RelationList (l : list RelationDict).

(** An entity span of a spaCy document. *)
Record Span : Type := mkSpan {
  ent_text : string;
  ent_label_ : string;
  ent_start_char : Z;
  ent_end_char : Z
}.

(** A token of a spaCy document; its index [i] is its position in the
    document and its children are given by their indices. *)
Record Token : Type := mkToken {
  tok_text : string;
  tok_dep_ : string;
  tok_pos_ : string;
  tok_lemma_ : string;
  tok_children : list nat
}.

Definition heap_normalized_text (h : heap) (r : ref) : string :=
  match h !! r with
  | Some e => normalized_text e
  | None => ""
  end.

Module EntityExtractor.
Section EntityExtractor.

Variable hash : string → Z.
Variable entity_types : list string.          (* config.entity_types *)
Variable use_mlx : bool.                      (* HAS_MLX and config.use_mlx *)
Variable sents : string → list string.        (* nlp(text).sents, as texts *)
Variable ents : string → list Span.           (* nlp(sentence_text).ents *)

Definition _extract_with_mlx (text : string) : list Entity := [].

Definition _process_sentence (sentence_text : string) : option (list Entity) :=
  let entities :=
    (λ ent, Entity_init (ent_text ent) (ent_label_ ent)
                        (ent_start_char ent) (ent_end_char ent))
      <$> filter (λ ent, ent_label_ ent ∈ entity_types) (ents sentence_text) in
  Some (entities ++ (if use_mlx then _extract_with_mlx sentence_text else [])).

(** The inner loop of the merge: [for entity in sentence_entities].  The
    objects of a sentence are new ones; each is placed in the heap when the
    loop reaches it. *)
Fixpoint merge_sentence (h : heap) (entities_dict : list (string * string * ref))
    (sentence_entities : list Entity) : heap * list (string * string * ref) :=
  match sentence_entities with
  | [] => (h, entities_dict)
  | e :: rest =>
      let '(h, entity) := alloc h e in
      let key := (heap_normalized_text h entity, heap_entity_type h entity) in
      match dict_get key entities_dict with
      | Some r => merge_sentence (Entity_update h r entity) entities_dict rest
      | None => merge_sentence h (dict_set key entity entities_dict) rest
      end
  end.

(** The outer loop: [for sentence_entities in results]; iterating over the
    [None] of a failed sentence raises [TypeError]. *)
Fixpoint merge_results (h : heap) (entities_dict : list (string * string * ref))
    (results : list (option (list Entity)))
    : result (heap * list (string * string * ref)) :=
  match results with
  | [] => Ok (h, entities_dict)
  | None :: _ => Raise TypeError
  | Some sentence_entities :: rest =>
      let '(h, entities_dict) := merge_sentence h entities_dict sentence_entities in
      merge_results h entities_dict rest
  end.

(** The dictionary cached for an entity. *)
Definition cached_of (h : heap) (r : ref) : CachedEntity :=
  match h !! r with
  | Some e => mkCachedEntity (text e) (entity_type e) (start e) (end_ e)
  | None => mkCachedEntity "" "" 0 0
  end.

Definition entity_of_cached (e : CachedEntity) : Entity :=
  Entity_init (ce_text e) (ce_entity_type e) (ce_start e) (ce_end e).

(** [EntityExtractor.extract], called at time [now]. *)
Definition extract (now : Z) (h : heap) (c : Cache CacheValue) (text : string)
    : result (heap * Cache CacheValue * list ref) :=
  let cache_key := "entities_" +:+ pretty (hash text) in
  let '(cached_result, c) := get hash c cache_key in
  match cached_result with
  | Some (EntityList ((_ :: _) as cached)) =>
      let fresh := entity_of_cached <$> cached in
      Ok (h ++ fresh, c, seq (length h) (length fresh))
  | Some (RelationList (_ :: _)) => Raise KeyError       (* e["text"] *)
  | _ =>
      let results := parallel_process (sents text) _process_sentence in
      '(h, entities_dict) ← merge_results h [] results;
      let entities := dict_values entities_dict in
      c ← set hash now c cache_key (EntityList (cached_of h <$> entities));
      Ok (h, c, entities)
  end.

End EntityExtractor.
End EntityExtractor.

Module RelationExtractor.
Section RelationExtractor.

Variable hash : string → Z.
Variable hash_pairs : list (string * string) → Z.    (* hash of a tuple of pairs *)
Variable relation_patterns : list (string * string). (* config.relation_patterns *)
Variable use_mlx : bool.
Variable sents : string → list string.               (* nlp(text).sents, as texts *)
Variable doc : string → list Token.                  (* the tokens of nlp(sentence) *)
(** [pattern.finditer(sentence)]: for every match the values of its groups
    1, 2, ..., with [None] for a group that took no part in the match. *)
Variable finditer : string → string → list (list (option string)).

(** The heap is only read: relations are built between existing objects. *)
Variable h : heap.

(** The fuzzy loop of [_find_entity]. *)
Fixpoint find_fuzzy (text_lower : string) (items : list (string * ref)) : option ref :=
  match items with
  | [] => None
  | (key, entity) :: items' =>
      if Py.contains text_lower key || Py.contains key text_lower then Some entity
      else find_fuzzy text_lower items'
  end.

Definition _find_entity (text : string) (entity_lookup : list (string * ref))
    : option ref :=
  let text_lower := Py.lower text in
  match dict_get text_lower entity_lookup with
  | Some entity => Some entity
  | None => find_fuzzy text_lower entity_lookup
  end.

(** [match.group(i)]: raises for a group the pattern does not have. *)
Definition group (m : list (option string)) (i : nat) : option (option string) :=
  m !! (i - 1).

(** [_find_entity] on the value of a group: [None.lower()] raises. *)
Definition find_group (g : option string) (entity_lookup : list (string * ref))
    : option (option ref) :=
  text ← g; Some (_find_entity text entity_lookup).

Definition relation_if (source_entity target_entity : option ref)
    (relation_type sentence : string) : list Relation :=
  match source_entity, target_entity with
  | Some s, Some t => [mkRelation s t relation_type sentence]
  | _, _ => []
  end.

(** The body of the loop over the matches of one pattern. *)
Definition relations_of_match (relation_type sentence : string)
    (entity_lookup : list (string * ref)) (m : list (option string))
    : option (list Relation) :=
  if bool_decide (relation_type ∈ ["works_for"; "founded"; "created"]) then
    person ← group m 1;
    org ← group m 3;
    source_entity ← find_group person entity_lookup;
    target_entity ← find_group org entity_lookup;
    Some (relation_if source_entity target_entity relation_type sentence)
  else if bool_decide (relation_type = "has_role") then
    person1 ← group m 1;
    person2 ← group m 3;
    role ← group m 4;
    source_entity ← find_group person1 entity_lookup;
    target_entity ← find_group person2 entity_lookup;
    Some (relation_if source_entity target_entity
            ("is_" +:+ default "None" role +:+ "_of") sentence)
  else Some [].

Definition _extract_with_patterns (sentence : string)
    (entity_lookup : list (string * ref)) : option (list Relation) :=
  per_pattern ←
    mapM (λ p : string * string,
            per_match ← mapM (relations_of_match p.1 sentence entity_lookup)
                             (finditer p.2 sentence);
            Some (concat per_match))
         relation_patterns;
  Some (concat per_pattern).

(** [sentence_entities]: token index to entity. *)
Definition sentence_entities (entity_lookup : list (string * ref))
    (d : list Token) : list (nat * ref) :=
  omap id (imap (λ i token,
                   (λ entity, (i, entity))
                     <$> dict_get (Py.lower (tok_text token)) entity_lookup) d).

(** The two [for child in token.children] loops, which stop at the first
    child of the wanted kind that is an entity. *)
Fixpoint first_child (d : list Token) (se : list (nat * ref)) (deps : list string)
    (children : list nat) : option ref :=
  match children with
  | [] => None
  | i :: children' =>
      match d !! i, dict_get i se with
      | Some child, Some entity =>
          if bool_decide (tok_dep_ child ∈ deps) then Some entity
          else first_child d se deps children'
      | _, _ => first_child d se deps children'
      end
  end.

Definition _extract_with_syntax (sentence : string)
    (entity_lookup : list (string * ref)) : list Relation :=
  let d := doc sentence in
  let se := sentence_entities entity_lookup d in
  omap (λ token,
          if bool_decide (tok_dep_ token = "ROOT" ∧ tok_pos_ token = "VERB") then
            match first_child d se ["nsubj"; "nsubjpass"] (tok_children token),
                  first_child d se ["dobj"; "pobj"] (tok_children token) with
            | Some subject, Some object =>
                Some (mkRelation subject object (tok_lemma_ token) sentence)
            | _, _ => None
            end
          else None)
       d.

Definition _extract_with_mlx (sentence : string)
    (entity_lookup : list (string * ref)) : list Relation := [].

Definition _process_sentence (sentence : string)
    (entity_lookup : list (string * ref)) : option (list Relation) :=
  by_pattern ← _extract_with_patterns sentence entity_lookup;
  Some (by_pattern ++ _extract_with_syntax sentence entity_lookup
        ++ (if use_mlx then _extract_with_mlx sentence entity_lookup else [])).

(** The lookup dictionary built at the start of [extract]. *)
Definition entity_lookup_of (entities : list ref) : list (string * ref) :=
  foldl (λ entity_lookup entity,
           dict_set (Py.lower (heap_text h entity) +:+ "_" +:+ heap_entity_type h entity)
                    entity
                    (dict_set (Py.lower (heap_text h entity)) entity entity_lookup))
        [] entities.

(** [{e.text: e for e in entities}] *)
Definition entity_dict_of (entities : list ref) : list (string * ref) :=
  foldl (λ entity_dict e, dict_set (heap_text h e) e entity_dict) [] entities.

(** The relations rebuilt from a cached list. *)
Definition relations_of_cached (entities : list ref) (cached : list RelationDict)
    : list Relation :=
  let entity_dict := entity_dict_of entities in
  omap (λ r, match dict_get (rd_source r) entity_dict,
                   dict_get (rd_target r) entity_dict with
             | Some source, Some target =>
                 Some (mkRelation source target (rd_relation_type r) (rd_sentence r))
             | _, _ => None
             end)
       cached.

(** [for sentence_relations in results: relations.extend(sentence_relations)] *)
Fixpoint extend_all (results : list (option (list Relation)))
    : result (list Relation) :=
  match results with
  | [] => Ok []
  | None :: _ => Raise TypeError
  | Some sentence_relations :: rest =>
      relations ← extend_all rest; Ok (sentence_relations ++ relations)
  end.

Definition cache_key_of (text : string) (entities : list ref) : string :=
  "relations_" +:+ pretty (hash text) +:+ "_"
  +:+ pretty (hash_pairs ((λ e, (heap_text h e, heap_entity_type h e)) <$> entities)).

(** [RelationExtractor.extract], called at time [now]. *)
Definition extract (now : Z) (c : Cache CacheValue) (text : string)
    (entities : list ref) : result (Cache CacheValue * list Relation) :=
  let cache_key := cache_key_of text entities in
  let '(cached_result, c) := get hash c cache_key in
  match cached_result with
  | Some (RelationList ((_ :: _) as cached)) =>
      Ok (c, relations_of_cached entities cached)
  | Some (EntityList (_ :: _)) => Raise KeyError         (* r["source"] *)
  | _ =>
      let entity_lookup := entity_lookup_of entities in
      let results :=
        parallel_process (sents text)
                         (λ sent, _process_sentence sent entity_lookup) in
      relations ← extend_all results;
      c ← set hash now c cache_key (RelationList (Relation_to_dict h <$> relations));
      Ok (c, relations)
  end.

End RelationExtractor.
End RelationExtractor.

(** ** The pipeline of the command line: extract, then build the graph *)

Section Pipeline.

Variable hash : string → Z.
Variable hash_pairs : list (string * string) → Z.
Variable entity_types : list string.
Variable relation_patterns : list (string * string).
Variable use_mlx : bool.
Variable sents : string → list string.
Variable ents : string → list Span.
Variable doc : string → list Token.
Variable finditer : string → string → list (list (option string)).

(** [for entity in entities: knowledge_graph.add_entity(entity)] *)
Definition add_entities (h : heap) (kg : KnowledgeGraph) (entities : list ref)
    : heap * KnowledgeGraph :=
  foldl (λ st entity, add_entity st.1 st.2 entity) (h, kg) entities.

(** [for relation in relations: knowledge_graph.add_relation(relation)] *)
Definition add_relations (h : heap) (kg : KnowledgeGraph) (relations : list Relation)
    : KnowledgeGraph :=
  foldl (add_relation h) kg relations.

(** The part of [process] between reading the text and showing the graph;
    the two extractions happen at times [now] and [now + 1]. *)
Definition process (now : Z) (h : heap) (c : Cache CacheValue) (input_text : string)
    : result (heap * Cache CacheValue * KnowledgeGraph) :=
  '(h, c, entities) ←
    EntityExtractor.extract hash entity_types use_mlx sents ents now h c input_text;
  '(c, relations) ←
    RelationExtractor.extract hash hash_pairs relation_patterns use_mlx sents doc
      finditer h (now + 1) c input_text entities;
  let '(h, kg) := add_entities h KnowledgeGraph_init entities in
  Ok (h, c, add_relations h kg relations).

End Pipeline.

(** ** Vocabulary of the extractors *)

(** The key under which [EntityExtractor.extract] merges entities. *)
Definition merge_key (e : Entity) : string * string :=
  (normalized_text e, entity_type e).

(** The relation types for which [_extract_with_patterns] has a branch. *)
Definition handled_pattern (relation_type : string) : Prop :=
  relation_type ∈ ["works_for"; "founded"; "created"; "has_role"].

(** The default patterns of the configuration. *)
Definition default_relation_patterns : list (string * string) :=
  [ ("works_for", "(\w+) (work|works|worked) for (\w+)");
    ("founded", "(\w+) (found|founds|founded) (\w+)");
    ("created", "(\w+) (create|creates|created) (\w+)");
    ("located_in", "(\w+) (is|are|was|were) (located|based) in (\w+)");
    ("has_role", "(\w+) (is|are|was|were) (\w+)'s (\w+)");
    ("born_in", "(\w+) (was|were) born in (\w+)") ].

#[global] Instance handled_pattern_dec ty : Decision (handled_pattern ty).
Proof. unfold handled_pattern. apply _. Defined.

(** The two keys under which [extract] enters an entity in its lookup. *)
Definition lookup_keys (h : heap) (e : ref) : list string :=
  [ Py.lower (heap_text h e);
    Py.lower (heap_text h e) +:+ "_" +:+ heap_entity_type h e ].

(** Both ends of the relation are values of the dictionary. *)
Definition ends_in (d : list (string * ref)) (rel : Relation) : Prop :=
  (∃ key, (key, source rel) ∈ d) ∧ (∃ key, (key, target rel) ∈ d).

(** ** Sample answers of the libraries *)

Definition sample_sents (text : string) : list string := [text].

Definition sample_finditer (pattern sentence : string) : list (list (option string)) :=
  if decide (pattern = "(\w+) (found|founds|founded) (\w+)")
  then [[Some "A"; Some "founded"; Some "B"]]
  else [].

Definition sample_doc (sentence : string) : list Token :=
  [ mkToken "C" "nsubj" "PROPN" "C" [];
    mkToken "hires" "ROOT" "VERB" "hire" [0; 2];
    mkToken "D" "dobj" "PROPN" "D" [] ].

Definition sample_ents (sentence : string) : list Span :=
  [ mkSpan "Ada" "PERSON" 0 3; mkSpan "ada " "PERSON" 10 14;
    mkSpan "IBM" "ORG" 20 23; mkSpan "today" "DATE" 30 35 ].

Definition sample_hash_pairs (l : list (string * string)) : Z := Z.of_nat (length l).

Definition sample_entity_types : list string := ["PERSON"; "ORG"].

(** ** Vocabulary of the merge of entities *)

(** The entities a list of sentence results holds. *)
Definition all_found (results : list (option (list Entity))) : list Entity :=
  concat (default [] <$> results).

(** [e] is what the merge makes of the entities of [raw] that have the key
    [key]: the first of them, with the occurrences of all added up and the
    mentions of all united. *)
Definition merged_from (raw : list Entity) (key : string * string) (e : Entity) : Prop :=
  let same := filter (λ x, merge_key x = key) raw in
  merge_key e = key
  ∧ (∃ first, head same = Some first
              ∧ text e = text first ∧ start e = start first ∧ end_ e = end_ first)
  ∧ occurrences e = foldr Z.add 0%Z (occurrences <$> same)
  ∧ mentions e = ⋃ (mentions <$> same).

(** The state of the merge loop after the entities [raw], started on the
    heap [h0]. *)
Record merge_inv (h0 h : heap) (d : list (string * string * ref)) (raw : list Entity)
    : Prop := mkMergeInv {
  mi_keys : NoDup (dict_keys d);
  mi_dom : ∀ key, key ∈ dict_keys d ↔ key ∈ merge_key <$> raw;
  mi_val : ∀ key r, (key, r) ∈ d →
             length h0 ≤ r ∧ ∃ e, h !! r = Some e ∧ merged_from raw key e;
  mi_old : ∀ i, i < length h0 → h !! i = h0 !! i;
  mi_len : length h = length h0 + length raw
}.

(** The spans of a text that [EntityExtractor._process_sentence] keeps, over
    all sentences in order. *)
Definition kept_spans (entity_types : list string) (sents : string → list string)
    (ents : string → list Span) (text : string) : list Span :=
  concat ((λ s, filter (λ ent, ent_label_ ent ∈ entity_types) (ents s)) <$> sents text).

Definition entity_of_span (ent : Span) : Entity :=
  Entity_init (ent_text ent) (ent_label_ ent) (ent_start_char ent) (ent_end_char ent).

(** * Facts about dictionaries *)

Section PyDictFacts.
Context {K V : Type} `{EqDecision K}.
Implicit Types (d : list (K * V)) (k : K) (v : V).

Lemma dict_get_Some_elem d k v : dict_get k d = Some v → (k, v) ∈ d.
Proof.
  induction d as [|[k' v'] d IH]; simpl; [done|].
  case_decide; intros; simplify_eq; [left | right; auto].
Qed.

Lemma dict_get_None d k : dict_get k d = None ↔ k ∉ dict_keys d.
Proof.
  unfold dict_keys. induction d as [|[k' v'] d IH]; simpl.
  - split; [intros _; apply not_elem_of_nil | done].
  - case_decide; subst.
    + split; [done | intros []; left].
    + rewrite IH, not_elem_of_cons. tauto.
Qed.

Lemma dict_get_is_Some d k : is_Some (dict_get k d) ↔ k ∈ dict_keys d.
Proof.
  destruct (dict_get k d) eqn:E.
  - split; [intros _ | eauto].
    destruct (decide (k ∈ dict_keys d)) as [|Hn]; [done|].
    apply dict_get_None in Hn. congruence.
  - split; [intros []; done|]. intros Hin.
    apply dict_get_None in E. done.
Qed.

Lemma dict_mem_true d k : dict_mem k d = true ↔ k ∈ dict_keys d.
Proof. unfold dict_mem. rewrite bool_decide_eq_true. apply dict_get_is_Some. Qed.

Lemma dict_get_elem_NoDup d k v :
  NoDup (dict_keys d) → (k, v) ∈ d → dict_get k d = Some v.
Proof.
  unfold dict_keys. induction d as [|[k' v'] d IH]; simpl; intros Hnd Hin.
  - by apply elem_of_nil in Hin.
  - apply NoDup_cons in Hnd as [Hk Hnd].
    apply elem_of_cons in Hin as [Heq|Hin].
    + simplify_eq. by rewrite decide_True.
    + case_decide; subst; [|auto].
      destruct Hk. apply list_elem_of_fmap. by exists (k', v).
Qed.

Lemma dict_get_set_eq d k v : dict_get k (dict_set k v d) = Some v.
Proof.
  induction d as [|[k' v'] d IH]; simpl.
  - by rewrite decide_True.
  - case_decide; simpl; [by rewrite decide_True | by rewrite decide_False].
Qed.

Lemma dict_get_set_ne d k k' v : k ≠ k' → dict_get k' (dict_set k v d) = dict_get k' d.
Proof.
  intros Hne. induction d as [|[k0 v0] d IH]; simpl.
  - by rewrite decide_False.
  - case_decide; simpl; subst.
    + by rewrite !decide_False.
    + case_decide; auto.
Qed.

Lemma dict_set_absent d k v : k ∉ dict_keys d → dict_set k v d = d ++ [(k, v)].
Proof.
  induction d as [|[k' v'] d IH]; simpl; [done|].
  unfold dict_keys in *. rewrite not_elem_of_cons. intros [Hne Hin].
  rewrite decide_False by done. by rewrite IH.
Qed.

Lemma dict_keys_set_present d k v :
  k ∈ dict_keys d → dict_keys (dict_set k v d) = dict_keys d.
Proof.
  unfold dict_keys. induction d as [|[k' v'] d IH]; csimpl; intros Hin.
  - by apply elem_of_nil in Hin.
  - case_decide; subst; csimpl; [done|].
    apply elem_of_cons in Hin as [|Hin]; [done|]. by rewrite IH.
Qed.

Lemma dict_keys_set d k v :
  dict_keys (dict_set k v d)
  = if decide (k ∈ dict_keys d) then dict_keys d else dict_keys d ++ [k].
Proof.
  case_decide.
  - by apply dict_keys_set_present.
  - rewrite dict_set_absent by done. unfold dict_keys. by rewrite fmap_app.
Qed.

Lemma dict_keys_set_elem d k k' v :
  k' ∈ dict_keys (dict_set k v d) ↔ k' = k ∨ k' ∈ dict_keys d.
Proof.
  rewrite dict_keys_set. case_decide.
  - split; [auto | intros [->|]; done].
  - rewrite elem_of_app, list_elem_of_singleton. tauto.
Qed.

Lemma dict_set_NoDup d k v : NoDup (dict_keys d) → NoDup (dict_keys (dict_set k v d)).
Proof.
  intros Hnd. rewrite dict_keys_set. case_decide; [done|].
  apply NoDup_app. split_and!; [done| |apply NoDup_singleton].
  intros x Hx ->%list_elem_of_singleton. done.
Qed.

Lemma dict_set_length_present d k v :
  k ∈ dict_keys d → length (dict_set k v d) = length d.
Proof.
  intros Hin. apply dict_keys_set_present with (v := v) in Hin.
  apply (f_equal length) in Hin. unfold dict_keys in Hin.
  by rewrite !length_fmap in Hin.
Qed.
End PyDictFacts.

(** * The two-sided breadth-first search *)

Section HalfFacts.
Variable nbrs : string → list string.
Implicit Types (m : gmap string (option string)) (v w x root : string).

Lemma reach_cons root u k x :
  reach nbrs u k x → u ∈ nbrs root → reach nbrs root (S k) x.
Proof.
  induction 1 as [|n y z Hr IH Hz]; intros Hu.
  - eapply reach_S; [apply reach_O | done].
  - eapply reach_S; [by apply IH | done].
Qed.

Lemma within_mono root d d' v : d ≤ d' → within nbrs root d v → within nbrs root d' v.
Proof. intros Hle (n & Hn & Hr). exists n. split; [lia | done]. Qed.

Lemma within_step root d u v :
  within nbrs root d u → v ∈ nbrs u → within nbrs root (S d) v.
Proof.
  intros (n & Hn & Hr) Hv. exists (S n). split; [lia|]. by eapply reach_S.
Qed.

Lemma within_O root v : within nbrs root 0 v ↔ v = root.
Proof.
  split.
  - intros (n & Hn & Hr). assert (n = 0) as -> by lia. by inversion Hr.
  - intros ->. exists 0. split; [done | apply reach_O].
Qed.

Lemma within_S_inv root d v :
  within nbrs root (S d) v →
  within nbrs root d v ∨ ∃ u, reach nbrs root d u ∧ v ∈ nbrs u.
Proof.
  intros (n & Hn & Hr). destruct (decide (n ≤ d)) as [Hle|Hgt].
  - left. by exists n.
  - right. assert (n = S d) as -> by lia. inversion Hr; subst. eauto.
Qed.

Lemma chain_mono m m' root v l :
  (∀ x, is_Some (m !! x) → m' !! x = m !! x) →
  chain nbrs m root v l → chain nbrs m' root v l.
Proof.
  intros Hext. induction 1 as [Hroot | v u l Hv Hin Hc IH].
  - apply chain_nil. rewrite Hext; [done | by rewrite Hroot].
  - eapply chain_cons; [|done|done]. rewrite Hext; [done | by rewrite Hv].
Qed.

Lemma chase_chain m root v l fuel :
  chain nbrs m root v l → length l < fuel →
  Nx.chase fuel m (Some v) = Ok (v :: l).
Proof.
  intros Hc. revert fuel. induction Hc as [Hroot | v u l Hv Hin Hc IH]; intros fuel Hf.
  - destruct fuel as [|fuel]; [simpl in Hf; lia|]. simpl. rewrite Hroot.
    by destruct fuel.
  - destruct fuel as [|fuel]; [simpl in Hf; lia|]. simpl. rewrite Hv.
    rewrite IH by (simpl in Hf; lia). done.
Qed.

(** *** The inner loop *)

Lemma scan_nbrs_spec other v ws : ∀ mine fringe,
  match Nx.scan_nbrs other mine v ws fringe with
  | Nx.Next m' f' =>
      (∀ x, is_Some (m' !! x) ↔ is_Some (mine !! x) ∨ x ∈ ws)
      ∧ (∀ x, is_Some (mine !! x) → m' !! x = mine !! x)
      ∧ (∀ x, mine !! x = None → is_Some (m' !! x) → m' !! x = Some (Some v))
      ∧ (∀ x, x ∈ f' ↔ x ∈ fringe ∨ (mine !! x = None ∧ is_Some (m' !! x)))
      ∧ (∀ x, x ∈ ws → other !! x = None)
  | Nx.Found m' w =>
      is_Some (other !! w) ∧ is_Some (m' !! w) ∧ w ∈ ws
      ∧ (∀ x, is_Some (mine !! x) → m' !! x = mine !! x)
      ∧ (∀ x, mine !! x = None → is_Some (m' !! x) →
               x ∈ ws ∧ m' !! x = Some (Some v))
  end.
Proof.
  induction ws as [|w ws IH]; intros mine fringe; simpl.
  - split_and!; try done.
    + intros x. rewrite elem_of_nil. tauto.
    + intros x Hn [y Hy]. congruence.
    + intros x. split; [auto|]. intros [|[Hn [y Hy]]]; [done | congruence].
    + intros x Hx. by apply elem_of_nil in Hx.
  - destruct (mine !! w) as [pw|] eqn:Hw.
    + (* already known *)
      destruct (other !! w) as [ow|] eqn:Ho.
      * split_and!; eauto using list_elem_of_here.
        intros x Hn [y Hy]. congruence.
      * specialize (IH mine fringe).
        destruct (Nx.scan_nbrs other mine v ws fringe) as [m' w'|m' f'].
        -- destruct IH as (H1 & H2 & H3 & H4 & H5).
           split_and!; try done; [by apply list_elem_of_further|].
           intros x Hn Hs. destruct (H5 x Hn Hs). split; [by apply list_elem_of_further | done].
        -- destruct IH as (H1 & H2 & H3 & H4 & H5).
           split_and!; try done.
           ++ intros x. rewrite H1, elem_of_cons. split; [tauto|].
              intros [|[->|]]; [tauto| |tauto]. left. eauto.
           ++ intros x [->|Hx]%elem_of_cons; auto.
    + (* new *)
      assert (Hext : ∀ x, is_Some (mine !! x) →
                <[w:=Some v]> mine !! x = mine !! x).
      { intros x [y Hy]. rewrite lookup_insert_ne; [done|]. congruence. }
      destruct (other !! w) as [ow|] eqn:Ho.
      * split_and!; eauto using list_elem_of_here.
        -- rewrite lookup_insert_eq. eauto.
        -- intros x Hn. rewrite lookup_insert. case_decide; subst.
           ++ intros _. split; [apply list_elem_of_here | done].
           ++ intros [y Hy]. congruence.
      * specialize (IH (<[w:=Some v]> mine) (fringe ++ [w])).
        destruct (Nx.scan_nbrs other (<[w:=Some v]> mine) v ws (fringe ++ [w]))
          as [m' w'|m' f'].
        -- destruct IH as (H1 & H2 & H3 & H4 & H5).
           split_and!; try done; [by apply list_elem_of_further| |].
           ++ intros x Hx. rewrite H4; [by apply Hext|]. rewrite Hext; done.
           ++ intros x Hn Hs. destruct (decide (x = w)) as [->|Hne].
              ** split; [apply list_elem_of_here|]. rewrite H4; [by rewrite lookup_insert_eq|].
                 rewrite lookup_insert_eq. eauto.
              ** destruct (H5 x) as [? ?]; [by rewrite lookup_insert_ne|done|].
                 split; [by apply list_elem_of_further | done].
        -- destruct IH as (H1 & H2 & H3 & H4 & H5).
           split_and!.
           ++ intros x. rewrite H1, elem_of_cons, lookup_insert.
              case_decide; subst; [|naive_solver]. split; [auto|]. intros _. left. eauto.
           ++ intros x Hx. rewrite H2; [by apply Hext|]. rewrite Hext; done.
           ++ intros x Hn Hs. destruct (decide (x = w)) as [->|Hne].
              ** rewrite H2; [by rewrite lookup_insert_eq|].
                 rewrite lookup_insert_eq. eauto.
              ** apply H3; [by rewrite lookup_insert_ne | done].
           ++ intros x. rewrite H4, elem_of_app, list_elem_of_singleton.
              rewrite lookup_insert. case_decide; subst.
              ** split; [|naive_solver]. intros [[|]|[? ?]]; try tauto; try done.
                 right. split; [done|]. rewrite H1, lookup_insert_eq. eauto.
              ** naive_solver.
           ++ intros x [->|Hx]%elem_of_cons; auto.
Qed.

(** *** One level *)

Lemma scan_level_spec other level : ∀ mine fringe,
  match Nx.scan_level nbrs other mine level fringe with
  | Nx.Next m' f' =>
      (∀ x, is_Some (m' !! x) ↔
            is_Some (mine !! x) ∨ ∃ v, v ∈ level ∧ x ∈ nbrs v)
      ∧ (∀ x, is_Some (mine !! x) → m' !! x = mine !! x)
      ∧ (∀ x, mine !! x = None → is_Some (m' !! x) →
               ∃ v, v ∈ level ∧ x ∈ nbrs v ∧ m' !! x = Some (Some v))
      ∧ (∀ x, x ∈ f' ↔ x ∈ fringe ∨ (mine !! x = None ∧ is_Some (m' !! x)))
      ∧ (∀ v x, v ∈ level → x ∈ nbrs v → other !! x = None)
  | Nx.Found m' w =>
      is_Some (other !! w) ∧ is_Some (m' !! w)
      ∧ (∀ x, is_Some (mine !! x) → m' !! x = mine !! x)
      ∧ (∀ x, mine !! x = None → is_Some (m' !! x) →
               ∃ v, v ∈ level ∧ x ∈ nbrs v ∧ m' !! x = Some (Some v))
  end.
Proof.
  induction level as [|v vs IH]; intros mine fringe; simpl.
  - split_and!; try done.
    + intros x. split; [auto|]. intros [|(v & Hv & _)]; [done|].
      by apply elem_of_nil in Hv.
    + intros x Hn [y Hy]. congruence.
    + intros x. split; [auto|]. intros [|[Hn [y Hy]]]; [done | congruence].
    + intros v x Hv. by apply elem_of_nil in Hv.
  - pose proof (scan_nbrs_spec other v (nbrs v) mine fringe) as Hn.
    destruct (Nx.scan_nbrs other mine v (nbrs v) fringe) as [m1 w|m1 f1].
    + destruct Hn as (H1 & H2 & H3 & H4 & H5). split_and!; try done.
      intros x Hx Hs. destruct (H5 x Hx Hs) as [? ?].
      exists v. split_and!; [apply list_elem_of_here | done | done].
    + destruct Hn as (A1 & B1 & C1 & D1 & E1).
      specialize (IH m1 f1).
      assert (Hkeep : ∀ x, mine !! x = None → is_Some (m1 !! x) →
                x ∈ nbrs v ∧ m1 !! x = Some (Some v)).
      { intros x Hx Hs. split; [|by apply C1].
        apply A1 in Hs as [[y Hy]|]; [congruence | done]. }
      destruct (Nx.scan_level nbrs other m1 vs f1) as [m' w|m' f'].
      * destruct IH as (H1 & H2 & H3 & H4). split_and!; try done.
        -- intros x Hx. rewrite H3; [by apply B1|]. rewrite B1; done.
        -- intros x Hx Hs. destruct (decide (is_Some (m1 !! x))) as [Hm1|Hm1].
           ++ destruct (Hkeep x Hx Hm1) as [? Heq].
              exists v. split_and!; [apply list_elem_of_here | done |].
              rewrite H3; done.
           ++ apply eq_None_not_Some in Hm1.
              destruct (H4 x Hm1 Hs) as (v' & ? & ? & ?).
              exists v'. split_and!; [by apply list_elem_of_further | done | done].
      * destruct IH as (A2 & B2 & C2 & D2 & E2). split_and!.
        -- intros x. rewrite A2, A1. setoid_rewrite elem_of_cons. naive_solver.
        -- intros x Hx. rewrite B2; [by apply B1|]. rewrite B1; done.
        -- intros x Hx Hs. destruct (decide (is_Some (m1 !! x))) as [Hm1|Hm1].
           ++ destruct (Hkeep x Hx Hm1) as [? Heq].
              exists v. split_and!; [apply list_elem_of_here | done |].
              rewrite B2; done.
           ++ apply eq_None_not_Some in Hm1.
              destruct (C2 x Hm1 Hs) as (v' & ? & ? & ?).
              exists v'. split_and!; [by apply list_elem_of_further | done | done].
        -- intros x. rewrite D2, D1. split.
           ++ intros [[|[? Hs]]|[Hm1 ?]]; [by left | |].
              ** right. split; [done|]. rewrite B2; done.
              ** right. split; [|done]. destruct (mine !! x) eqn:E; [|done].
                 rewrite B1 in Hm1; [congruence | by rewrite E; eauto].
           ++ intros [|[? Hs]]; [by left; left|].
              destruct (m1 !! x) as [y|] eqn:Hm1.
              ** left. right. split; [done | eauto].
              ** right. done.
        -- intros v' x [->|Hv']%elem_of_cons Hx; [by apply E1 | by eapply E2].
Qed.

Lemma size_le_keys m (l : list string) :
  (∀ x, is_Some (m !! x) → x ∈ l) → size m ≤ length l.
Proof.
  intros Hsub. rewrite <-size_dom.
  transitivity (size (list_to_set (C := gset string) l)).
  - apply subseteq_size. intros x Hx%elem_of_dom. apply elem_of_list_to_set. auto.
  - clear. induction l as [|a l IH]; simpl; [done|].
    rewrite size_union_alt, size_singleton.
    assert (size (list_to_set (C := gset string) l ∖ {[a]})
            ≤ size (list_to_set (C := gset string) l))
      by (apply subseteq_size; set_solver).
    lia.
Qed.

Lemma size_lt_extend m m' x :
  (∀ y, is_Some (m !! y) → m' !! y = m !! y) →
  m !! x = None → is_Some (m' !! x) → size m < size m'.
Proof.
  intros Hext Hx Hs. rewrite <-!size_dom. apply subset_size.
  apply elem_of_subset. split.
  - intros y Hy%elem_of_dom. apply elem_of_dom. rewrite Hext; done.
  - intros Hall. specialize (Hall x). rewrite !elem_of_dom, Hx in Hall.
    destruct Hall as [? ?]; done.
Qed.

(** *** A completed level advances the invariant of its direction *)

Lemma half_inv_next other root d mine level m' f' :
  half_inv nbrs root d mine level → level ≠ [] →
  Nx.scan_level nbrs other mine level [] = Nx.Next m' f' →
  half_inv nbrs root (S d) m' f'
  ∧ (∀ x, is_Some (m' !! x) →
          is_Some (mine !! x) ∨ (other !! x = None ∧ ∃ v, x ∈ nbrs v))
  ∧ size mine ≤ size m'
  ∧ (f' ≠ [] → size mine < size m').
Proof.
  intros [Hdom Hold Hfr Hch Hsz] Hne Hscan.
  pose proof (scan_level_spec other level mine []) as Hspec.
  rewrite Hscan in Hspec. destruct Hspec as (A & B & C & D & E).
  split; [split|split_and!].
  - intros x. rewrite A. split.
    + intros [Hx|(v & Hv & Hx)].
      * apply Hdom in Hx. eapply within_mono; [|done]. lia.
      * eapply within_step; [|done]. by apply Hdom, Hfr.
    + intros [Hx|(u & Hu & Hx)]%within_S_inv.
      * left. by apply Hdom.
      * assert (Hwu : within nbrs root d u) by (by exists d).
        destruct (Hold u) as [Hin|(k & -> & Hk)]; [by apply Hdom|..].
        -- right. eauto.
        -- left. apply Hdom. by eapply within_step.
  - intros x Hx. destruct (decide (is_Some (mine !! x))) as [Hm|Hm].
    + right. exists d. split; [done|]. by apply Hdom.
    + left. apply D. right. split; [by apply eq_None_not_Some | done].
  - intros x [Hx|[_ Hx]]%D; [by apply elem_of_nil in Hx | done].
  - intros x Hx. destruct (decide (is_Some (mine !! x))) as [Hm|Hm].
    + destruct (Hch x Hm) as (l & Hl & Hc). exists l. split; [lia|].
      by eapply chain_mono.
    + apply eq_None_not_Some in Hm.
      destruct (C x Hm Hx) as (v & Hv & Hxv & Hlook).
      destruct (Hch v (Hfr v Hv)) as (l & Hl & Hc).
      exists (v :: l). split; [simpl; lia|].
      eapply chain_cons; [done | done | by eapply chain_mono].
  - intros Hf'. destruct f' as [|x f']; [done|].
    assert (Hx : x ∈ x :: f') by apply list_elem_of_here.
    apply D in Hx as [Hx|[Hm Hx]]; [by apply elem_of_nil in Hx|].
    pose proof (size_lt_extend mine m' x B Hm Hx). specialize (Hsz Hne). lia.
  - intros x [Hx|(v & Hv & Hx)]%A; [by left|].
    right. split; [by eapply E | eauto].
  - rewrite <-!size_dom. apply subseteq_size.
    intros x Hx%elem_of_dom. apply elem_of_dom. rewrite B; done.
  - intros Hf'. destruct f' as [|x f']; [done|].
    assert (Hx : x ∈ x :: f') by apply list_elem_of_here.
    apply D in Hx as [Hx|[Hm Hx]]; [by apply elem_of_nil in Hx|].
    by eapply size_lt_extend.
Qed.

(** *** A level that meets the other direction yields a chain *)

Lemma half_inv_found other root d mine level m' w :
  half_inv nbrs root d mine level → level ≠ [] →
  (∀ x, is_Some (mine !! x) → is_Some (other !! x) → False) →
  Nx.scan_level nbrs other mine level [] = Nx.Found m' w →
  is_Some (other !! w)
  ∧ ∃ l, length l ≤ S d ∧ chain nbrs m' root w l ∧ length l < size m'.
Proof.
  intros [Hdom Hold Hfr Hch Hsz] Hne Hdisj Hscan.
  pose proof (scan_level_spec other level mine []) as Hspec.
  rewrite Hscan in Hspec. destruct Hspec as (Ho & Hw & B & C).
  split; [done|].
  assert (Hm : mine !! w = None).
  { apply eq_None_not_Some. intros Hs. by eapply Hdisj. }
  destruct (C w Hm Hw) as (v & Hv & Hwv & Hlook).
  destruct (Hch v (Hfr v Hv)) as (l & Hl & Hc).
  exists (v :: l). split_and!; [simpl; lia | |].
  - eapply chain_cons; [done | done | by eapply chain_mono].
  - pose proof (size_lt_extend mine m' w B Hm Hw). specialize (Hsz Hne).
    simpl. lia.
Qed.

(** *** An exhausted fringe: everything reachable has been seen *)

Lemma half_inv_exhausted root d m v n :
  half_inv nbrs root d m [] → reach nbrs root n v → is_Some (m !! v).
Proof.
  intros [Hdom Hold Hfr Hch Hsz] Hr.
  assert (Hroot : is_Some (m !! root)).
  { apply Hdom. exists 0. split; [lia | apply reach_O]. }
  destruct (Hold root Hroot) as [Hin|(k & -> & _)]; [by apply elem_of_nil in Hin|].
  assert (Hclosed : ∀ x, within nbrs root (S k) x → within nbrs root k x).
  { intros x Hx%Hdom. destruct (Hold x Hx) as [Hin|(k' & Heq & Hk')];
      [by apply elem_of_nil in Hin|]. by simplify_eq. }
  apply Hdom. eapply within_mono; [apply Nat.le_succ_diag_r|].
  induction Hr as [|n u v Hr IH Hv].
  - apply Hclosed, Hdom, Hroot.
  - apply Hclosed. by eapply within_step.
Qed.

Lemma half_inv_init root :
  half_inv nbrs root 0 {[root := None]} [root].
Proof.
  split.
  - intros v. rewrite within_O. rewrite lookup_singleton_is_Some. naive_solver.
  - intros v Hv%lookup_singleton_is_Some. subst. left. apply list_elem_of_here.
  - intros v ->%list_elem_of_singleton. rewrite lookup_singleton_eq. eauto.
  - intros v Hv%lookup_singleton_is_Some. subst. exists []. split; [done|].
    apply chain_nil. by rewrite lookup_singleton_eq.
  - intros _. rewrite map_size_singleton. lia.
Qed.
End HalfFacts.

(** * Facts about the graph *)

Section GraphFacts.
Variable g : Nx.DiGraph.
Implicit Types (u v w x s t : string) (l : list string).

Lemma is_edge_keys u v : is_edge g u v ↔ (u, v) ∈ dict_keys (Nx.g_adj g).
Proof. apply dict_get_is_Some. Qed.

Lemma elem_of_succ u v : v ∈ Nx.succ g u ↔ is_edge g u v.
Proof.
  rewrite is_edge_keys. unfold Nx.succ, dict_keys.
  rewrite list_elem_of_omap, list_elem_of_fmap. split.
  - intros ([[a b] d] & Hin & Hf). simpl in Hf. case_decide; simplify_eq.
    eexists. split; [|done]. done.
  - intros ([[a b] d] & Heq & Hin). simpl in Heq. injection Heq as -> ->.
    exists (a, b, d). split; [done|]. simpl. by rewrite decide_True.
Qed.

Lemma elem_of_pred u v : u ∈ Nx.pred g v ↔ is_edge g u v.
Proof.
  rewrite is_edge_keys. unfold Nx.pred, dict_keys.
  rewrite list_elem_of_omap, list_elem_of_fmap. split.
  - intros ([[a b] d] & Hin & Hf). simpl in Hf. case_decide; simplify_eq.
    eexists. split; [|done]. done.
  - intros ([[a b] d] & Heq & Hin). simpl in Heq. injection Heq as -> ->.
    exists (a, b, d). split; [done|]. simpl. by rewrite decide_True.
Qed.

Lemma route_app u l1 w l2 t :
  route g u l1 w → route g w l2 t → route g u (l1 ++ l2) t.
Proof.
  revert u. induction l1 as [|v l1 IH]; simpl; intros u.
  - by intros ->.
  - intros [He Hr] H2. split; [done|]. by apply IH.
Qed.

Lemma route_snoc u l w v :
  route g u l w → is_edge g w v → route g u (l ++ [v]) v.
Proof. intros Hr He. eapply route_app; [done|]. by split. Qed.

Lemma route_reach s l t : route g s l t → reach (Nx.succ g) s (length l) t.
Proof.
  revert s. induction l as [|v l IH]; simpl; intros s.
  - intros ->. apply reach_O.
  - intros [He Hr]. eapply reach_cons; [by apply IH|]. by apply elem_of_succ.
Qed.

(** A route can be cut anywhere: the first part is seen from its start,
    the second part from its end. *)
Lemma reach_split s n t :
  reach (Nx.succ g) s n t →
  ∀ i, i ≤ n → ∃ x, reach (Nx.succ g) s i x ∧ reach (Nx.pred g) t (n - i) x.
Proof.
  induction 1 as [|n u v Hr IH Hv]; intros i Hi.
  - assert (i = 0) as -> by lia. exists s. split; apply reach_O.
  - destruct (decide (i = S n)) as [->|Hne].
    + exists v. rewrite Nat.sub_diag. split; [by eapply reach_S | apply reach_O].
    + destruct (IH i) as (x & Hx1 & Hx2); [lia|]. exists x. split; [done|].
      replace (S n - i) with (S (n - i)) by lia.
      eapply reach_cons; [done|]. apply elem_of_pred. by apply elem_of_succ.
Qed.

Lemma reach_reverse s n t : reach (Nx.succ g) s n t → reach (Nx.pred g) t n s.
Proof.
  intros Hr. destruct (reach_split s n t Hr 0) as (x & Hx & Hx'); [lia|].
  inversion Hx; subst. by rewrite Nat.sub_0_r in Hx'.
Qed.

(** The chain of the backward search is a route as it stands ... *)
Lemma chain_pred_route m t w l : chain (Nx.pred g) m t w l → route g w l t.
Proof.
  induction 1 as [|v u l Hv Hin Hc IH]; simpl; [done|].
  split; [by apply elem_of_pred | done].
Qed.

(** ... and that of the forward search is one read backwards. *)
Lemma chain_succ_route m s w l :
  chain (Nx.succ g) m s w l →
  ∃ l', reverse (w :: l) = s :: l' ∧ length l' = length l ∧ route g s l' w.
Proof.
  induction 1 as [|v u l Hv Hin Hc IH].
  - exists []. done.
  - destruct IH as (l' & Hrev & Hlen & Hr).
    exists (l' ++ [v]). split_and!.
    + rewrite reverse_cons, Hrev. done.
    + rewrite length_app. simpl. lia.
    + eapply route_snoc; [done|]. by apply elem_of_succ.
Qed.

Lemma path_steps_cons u v l :
  path_steps g (u :: v :: l)
  = match Nx.get_edge_data g u v with
    | None => Raise TypeError
    | Some edge_data =>
        steps ← path_steps g (v :: l);
        Ok (mkPathStep u v (Nx.edge_relation_type edge_data)
                       (Nx.edge_sentence edge_data) :: steps)
    end.
Proof. done. Qed.

Lemma path_steps_route s l t :
  route g s l t →
  ∃ steps, path_steps g (s :: l) = Ok steps
           ∧ length steps = length l ∧ steps_from g s steps t.
Proof.
  revert s. induction l as [|v l IH]; intros s.
  - simpl. intros ->. by exists [].
  - intros [[[rt se] He] Hr]. destruct (IH v Hr) as (steps & Hs & Hlen & Hf).
    exists (mkPathStep s v rt se :: steps).
    rewrite path_steps_cons, He, Hs. simpl. split_and!; auto.
Qed.
End GraphFacts.
Section SearchFacts.
Variable g : Nx.DiGraph.
Hypothesis Hwf : graph_wf g.
Implicit Types (u v w x s t : string) (l : list string).

Lemma search_inv_apart s t df dr p q ff rf n :
  search_inv g s t df dr p q ff rf → reach (Nx.succ g) s n t → df + dr < n.
Proof.
  intros (Hf & Hr & Hdisj & _) Hreach.
  destruct (decide (df + dr < n)) as [|Hle]; [done|]. exfalso.
  destruct (reach_split g s n t Hreach (df `min` n)) as (x & Hx1 & Hx2); [lia|].
  apply (Hdisj x).
  - apply (hi_dom _ _ _ _ _ Hf). exists (df `min` n). split; [lia | done].
  - apply (hi_dom _ _ _ _ _ Hr). exists (n - df `min` n). split; [lia | done].
Qed.

Lemma search_spec s t : ∀ fuel df dr p q ff rf,
  search_inv g s t df dr p q ff rf →
  1 ≤ fuel →
  (ff ≠ [] → rf ≠ [] →
   (length (Nx.g_node g) - size p) + (length (Nx.g_node g) - size q) + 2 ≤ fuel) →
  match Nx.search fuel g p q ff rf with
  | Ok (p', q', w) =>
      ∃ l1 l2, chain (Nx.succ g) p' s w l1 ∧ length l1 < size p'
               ∧ chain (Nx.pred g) q' t w l2 ∧ length l2 < size q'
               ∧ (∀ n, reach (Nx.succ g) s n t → length l1 + length l2 ≤ n)
  | Raise NetworkXNoPath => ∀ n, ¬ reach (Nx.succ g) s n t
  | Raise _ => False
  end.
Proof.
  induction fuel as [|fuel IH]; intros df dr p q ff rf Hinv Hfuel Hbound; [lia|].
  pose proof Hinv as (Hf & Hr & Hdisj & Hpn & Hqn).
  simpl. destruct ff as [|a ff].
  { (* the forward fringe is exhausted *)
    intros n Hreach. apply (Hdisj t).
    - by eapply half_inv_exhausted.
    - apply (hi_dom _ _ _ _ _ Hr). exists 0. split; [lia | apply reach_O]. }
  destruct rf as [|b rf].
  { (* the reverse fringe is exhausted *)
    intros n Hreach%reach_reverse. apply (Hdisj s).
    - apply (hi_dom _ _ _ _ _ Hf). exists 0. split; [lia | apply reach_O].
    - by eapply half_inv_exhausted. }
  assert (Hp_le : size p ≤ length (Nx.g_node g)).
  { etransitivity; [by apply size_le_keys|]. unfold dict_keys. by rewrite length_fmap. }
  assert (Hq_le : size q ≤ length (Nx.g_node g)).
  { etransitivity; [by apply size_le_keys|]. unfold dict_keys. by rewrite length_fmap. }
  specialize (Hbound ltac:(done) ltac:(done)).
  destruct (_ <=? _).
  - (* a forward level *)
    destruct (Nx.scan_level (Nx.succ g) q p (a :: ff) []) as [p' w|p' ff'] eqn:Hscan.
    + destruct (half_inv_found _ _ _ _ _ _ _ _ Hf ltac:(done) Hdisj Hscan)
        as (Hw & l1 & Hl1 & Hc1 & Hs1).
      destruct (hi_chain _ _ _ _ _ Hr w Hw) as (l2 & Hl2 & Hc2).
      pose proof (hi_size _ _ _ _ _ Hr ltac:(done)).
      cbn beta iota. exists l1, l2. split_and!; [done | done | done | lia |].
      intros n Hn. pose proof (search_inv_apart _ _ _ _ _ _ _ _ _ Hinv Hn). lia.
    + destruct (half_inv_next _ _ _ _ _ _ _ _ Hf ltac:(done) Hscan)
        as (Hf' & Hnew & Hsz & Hgrow).
      assert (Hinv' : search_inv g s t (S df) dr p' q ff' (b :: rf)).
      { split_and!; try done.
        - intros x [Hx|[Hx _]]%Hnew Hq; [by eapply Hdisj|].
          rewrite Hx in Hq. by destruct Hq.
        - intros x [Hx|[_ [v Hx]]]%Hnew; [by apply Hpn|].
          by apply elem_of_succ, Hwf in Hx as [_ ?]. }
      cbn beta iota. apply (IH _ _ _ _ _ _ Hinv'); [lia|].
      intros Hne _. specialize (Hgrow Hne).
      assert (size p' ≤ length (Nx.g_node g)).
      { destruct Hinv' as (_ & _ & _ & Hpn' & _).
        etransitivity; [by apply size_le_keys|]. unfold dict_keys.
        by rewrite length_fmap. }
      lia.
  - (* a reverse level *)
    destruct (Nx.scan_level (Nx.pred g) p q (b :: rf) []) as [q' w|q' rf'] eqn:Hscan.
    + destruct (half_inv_found _ _ _ _ _ _ _ _ Hr ltac:(done)
                  (λ x Hq Hp, Hdisj x Hp Hq) Hscan)
        as (Hw & l2 & Hl2 & Hc2 & Hs2).
      destruct (hi_chain _ _ _ _ _ Hf w Hw) as (l1 & Hl1 & Hc1).
      pose proof (hi_size _ _ _ _ _ Hf ltac:(done)).
      cbn beta iota. exists l1, l2. split_and!; [done | lia | done | done |].
      intros n Hn. pose proof (search_inv_apart _ _ _ _ _ _ _ _ _ Hinv Hn). lia.
    + destruct (half_inv_next _ _ _ _ _ _ _ _ Hr ltac:(done) Hscan)
        as (Hr' & Hnew & Hsz & Hgrow).
      assert (Hinv' : search_inv g s t df (S dr) p q' (a :: ff) rf').
      { split_and!; try done.
        - intros x Hp [Hx|[Hx _]]%Hnew; [by eapply Hdisj|].
          rewrite Hx in Hp. by destruct Hp.
        - intros x [Hx|[_ [v Hx]]]%Hnew; [by apply Hqn|].
          by apply elem_of_pred, Hwf in Hx as [? _]. }
      cbn beta iota. apply (IH _ _ _ _ _ _ Hinv'); [lia|].
      intros _ Hne. specialize (Hgrow Hne).
      assert (size q' ≤ length (Nx.g_node g)).
      { destruct Hinv' as (_ & _ & _ & _ & Hqn').
        etransitivity; [by apply size_le_keys|]. unfold dict_keys.
        by rewrite length_fmap. }
      lia.
Qed.
End SearchFacts.
Section PathFacts.
Variable g : Nx.DiGraph.
Hypothesis Hwf : graph_wf g.
Implicit Types (u v w x s t : string) (l : list string).

Lemma has_node_true n : Nx.has_node g n = true ↔ n ∈ dict_keys (Nx.g_node g).
Proof. apply dict_mem_true. Qed.

Lemma route_ends s l t :
  route g s l t → l ≠ [] →
  Nx.has_node g s = true ∧ Nx.has_node g t = true.
Proof.
  revert s. induction l as [|v l IH]; [done|]. intros s [He Hr] _.
  destruct (wf_ends g Hwf s v He) as [Hs Hv].
  split; [by apply has_node_true|].
  destruct l as [|v' l]; [simpl in Hr; subst; by apply has_node_true|].
  by apply (IH v).
Qed.

Lemma steps_from_route s steps t :
  steps_from g s steps t → route g s (ps_target <$> steps) t.
Proof.
  revert s. induction steps as [|st steps IH]; simpl; intros s; [done|].
  intros (_ & He & Hs). split; [|by apply IH]. unfold is_edge. by rewrite He.
Qed.

Lemma chase_from_chain m t w l :
  chain (Nx.pred g) m t w l → length l < size m →
  ∃ nxt, m !! w = Some nxt ∧ Nx.chase (S (size m)) m nxt = Ok l.
Proof.
  intros Hc Hl. inversion Hc as [Hroot | v u l' Hv Hin Hc']; subst.
  - exists None. done.
  - exists (Some u). split; [done|].
    eapply chase_chain; [done|]. simpl in Hl. lia.
Qed.

Lemma search_init_inv s t :
  s ≠ t → Nx.has_node g s = true → Nx.has_node g t = true →
  search_inv g s t 0 0 {[s := None]} {[t := None]} [s] [t].
Proof.
  intros Hne Hs%has_node_true Ht%has_node_true.
  split_and!; try apply half_inv_init.
  - intros x Hx%lookup_singleton_is_Some Hx'%lookup_singleton_is_Some. congruence.
  - intros x Hx%lookup_singleton_is_Some. by subst.
  - intros x Hx%lookup_singleton_is_Some. by subst.
Qed.

Lemma shortest_path_spec s t :
  match Nx.shortest_path g s t with
  | Ok path =>
      Nx.has_node g s = true ∧ Nx.has_node g t = true
      ∧ ∃ l, path = s :: l ∧ route g s l t
             ∧ ∀ l', route g s l' t → length l ≤ length l'
  | Raise NodeNotFound => Nx.has_node g s = false ∨ Nx.has_node g t = false
  | Raise NetworkXNoPath =>
      Nx.has_node g s = true ∧ Nx.has_node g t = true ∧ ∀ l, ¬ route g s l t
  | Raise _ => False
  end.
Proof.
  unfold Nx.shortest_path, Nx.bidirectional_shortest_path.
  destruct (Nx.has_node g s) eqn:Hs; cbn [negb orb]; [|by left].
  destruct (Nx.has_node g t) eqn:Ht; cbn [negb orb]; [|by right].
  unfold Nx._bidirectional_pred_succ. case_decide as Heq.
  - (* the two ends coincide *)
    subst. simpl. rewrite !map_size_singleton. simpl.
    rewrite !lookup_singleton_eq. simpl.
    split_and!; [done..|]. exists []. split_and!; [done | done |].
    intros l' _. simpl. lia.
  - pose proof (search_spec g Hwf s t (Nx.search_fuel g) 0 0
                  {[s := None]} {[t := None]} [s] [t]) as Hspec.
    assert (HN : 1 ≤ length (Nx.g_node g)).
    { apply has_node_true in Hs. unfold dict_keys in Hs.
      destruct (Nx.g_node g); [by apply elem_of_nil in Hs | simpl; lia]. }
    unfold Nx.search_fuel in *.
    specialize (Hspec (search_init_inv s t ltac:(done) Hs Ht) ltac:(lia)).
    rewrite !map_size_singleton in Hspec. specialize (Hspec ltac:(lia)).
    destruct (Nx.search _ g _ _ _ _) as [[[p' q'] w]|e]; cbn -[Nx.chase size reverse].
    + destruct Hspec as (l1 & l2 & Hc1 & Hl1 & Hc2 & Hl2 & Hmin).
      rewrite (chase_chain _ _ _ _ _ _ Hc1) by lia. cbn -[Nx.chase size reverse].
      destruct (chase_from_chain _ _ _ _ Hc2 Hl2) as (nxt & Hnxt & Hdown).
      rewrite Hnxt, Hdown. cbn -[Nx.chase size reverse].
      destruct (chain_succ_route g _ _ _ _ Hc1) as (l' & Hrev & Hlen & Hr1).
      split_and!; [done..|].
      exists (l' ++ l2). rewrite Hrev. split_and!; [done | |].
      * eapply route_app; [done|]. by eapply chain_pred_route.
      * intros l'' Hr%route_reach%Hmin. rewrite length_app. lia.
    + destruct e; try done. split_and!; [done..|].
      intros l Hr%route_reach. by eapply Hspec.
Qed.

Lemma get_path_spec (kg : KnowledgeGraph) s t :
  graph kg = g →
  ∃ steps, get_path kg s t = Ok steps
    ∧ ((Nx.has_node g s = true ∧ Nx.has_node g t = true
        ∧ steps_from g s steps t
        ∧ ∀ l', route g s l' t → length steps ≤ length l')
       ∨ (steps = []
          ∧ (Nx.has_node g s = false ∨ Nx.has_node g t = false
             ∨ ∀ l, ¬ route g s l t))).
Proof.
  intros Hg. unfold get_path. rewrite Hg.
  pose proof (shortest_path_spec s t) as Hspec.
  destruct (Nx.shortest_path g s t) as [path|e].
  - destruct Hspec as (Hs & Ht & l & -> & Hr & Hmin).
    destruct (path_steps_route g s l t Hr) as (steps & Hsteps & Hlen & Hfrom).
    exists steps. split; [done|]. left. split_and!; [done..|].
    intros l' Hl'. rewrite Hlen. by apply Hmin.
  - destruct e; try done.
    + exists []. split; [done|]. right. split; [done|]. tauto.
    + exists []. split; [done|]. right. split; [done|]. tauto.
Qed.
End PathFacts.
(** * The graph store keeps its invariant *)

Section DictElem.
Context {K V : Type} `{EqDecision K}.
Lemma dict_set_elem (d : list (K * V)) k v k' v' :
  (k', v') ∈ dict_set k v d → (k' = k ∧ v' = v) ∨ (k', v') ∈ d.
Proof.
  induction d as [|[k0 v0] d IH]; simpl.
  - intros ?%list_elem_of_singleton. simplify_eq. auto.
  - case_decide; subst.
    + intros [?|?]%elem_of_cons; simplify_eq; [auto|].
      right. by apply list_elem_of_further.
    + intros [?|Hin]%elem_of_cons; simplify_eq.
      * right. apply list_elem_of_here.
      * destruct (IH Hin) as [|]; [auto|]. right. by apply list_elem_of_further.
Qed.
End DictElem.

Section GraphWf.
Implicit Types (g : Nx.DiGraph) (n u v : string).

Lemma graph_wf_empty : graph_wf Nx.empty.
Proof.
  split; simpl; try apply NoDup_nil_2.
  intros u v [? Hx]. done.
Qed.

Lemma touch_node_keys n ns x :
  x ∈ dict_keys (Nx.touch_node n ns) ↔ x = n ∨ x ∈ dict_keys ns.
Proof.
  unfold Nx.touch_node. destruct (dict_mem n ns) eqn:Hm.
  - apply dict_mem_true in Hm. naive_solver.
  - unfold dict_keys. rewrite fmap_app, elem_of_app. simpl.
    rewrite list_elem_of_singleton. tauto.
Qed.

Lemma touch_node_NoDup n ns :
  NoDup (dict_keys ns) → NoDup (dict_keys (Nx.touch_node n ns)).
Proof.
  unfold Nx.touch_node. destruct (dict_mem n ns) eqn:Hm; [done|].
  intros Hnd. unfold dict_keys. rewrite fmap_app. simpl.
  apply NoDup_app. split_and!; [done| |apply NoDup_singleton].
  intros x Hx ->%list_elem_of_singleton.
  apply dict_mem_true in Hx. congruence.
Qed.

Lemma graph_wf_add_node g n attrs : graph_wf g → graph_wf (Nx.add_node g n attrs).
Proof.
  intros [Hn He Hends]. split; simpl; [by apply dict_set_NoDup | done |].
  intros u v Huv. destruct (Hends u v Huv).
  rewrite !dict_keys_set_elem. auto.
Qed.

Lemma update_node_keys g n attrs :
  dict_keys (Nx.g_node (Nx.update_node g n attrs)) = dict_keys (Nx.g_node g)
  ∧ Nx.g_adj (Nx.update_node g n attrs) = Nx.g_adj g.
Proof.
  unfold Nx.update_node. destruct (Nx.has_node g n) eqn:Hn; [|done].
  simpl. split; [|done]. apply dict_keys_set_present. by apply dict_mem_true.
Qed.

Lemma graph_wf_update_node g n attrs :
  graph_wf g → graph_wf (Nx.update_node g n attrs).
Proof.
  destruct (update_node_keys g n attrs) as [Hk Ha].
  intros [Hn He Hends]. split; unfold is_edge, Nx.get_edge_data;
    rewrite ?Hk, ?Ha; done.
Qed.

Lemma graph_wf_add_edge g u v attrs : graph_wf g → graph_wf (Nx.add_edge g u v attrs).
Proof.
  intros [Hn He Hends]. split; simpl.
  - by do 2 apply touch_node_NoDup.
  - by apply dict_set_NoDup.
  - intros a b Hab. rewrite !touch_node_keys.
    apply dict_get_is_Some in Hab. simpl in Hab.
    apply dict_keys_set_elem in Hab as [Heq|Hab]; [simplify_eq; auto|].
    destruct (Hends a b); [by apply dict_get_is_Some|]. auto.
Qed.
End GraphWf.

Section HeapFacts.
Implicit Types (h : heap) (r : ref).

Lemma Entity_update_length h self other :
  length (Entity_update h self other) = length h.
Proof.
  unfold Entity_update. repeat case_match; rewrite ?length_insert; done.
Qed.

Lemma Entity_update_text h self other r :
  heap_text (Entity_update h self other) r = heap_text h r.
Proof.
  unfold Entity_update, heap_text.
  destruct (h !! self) as [s|] eqn:Hs; [|done].
  destruct (h !! other) as [o|] eqn:Ho; [|done].
  assert (Hlt : self < length h) by (by eapply lookup_lt_Some).
  rewrite list_lookup_insert_eq by done.
  assert (Hstep : ∀ e, text e = text s →
            match <[self:=e]> h !! r with Some e0 => text e0 | None => "" end
            = match h !! r with Some e0 => text e0 | None => "" end).
  { intros e He. destruct (decide (r = self)) as [->|Hne].
    - rewrite list_lookup_insert_eq by done. by rewrite Hs.
    - by rewrite list_lookup_insert_ne. }
  destruct (<[self:=_]> h !! other) as [o1|] eqn:Ho1; [|by apply Hstep].
  destruct (decide (r = self)) as [->|Hne].
  - rewrite list_lookup_insert_eq by (by rewrite length_insert). by rewrite Hs.
  - rewrite list_lookup_insert_ne by done. by apply Hstep.
Qed.

Lemma heap_text_app h e r : r < length h → heap_text (h ++ [e]) r = heap_text h r.
Proof. intros Hr. unfold heap_text. by rewrite lookup_app_l. Qed.
End HeapFacts.

Section StoreInv.
Implicit Types (h : heap) (kg : KnowledgeGraph) (r : ref).

Lemma store_inv_init h : store_inv h KnowledgeGraph_init.
Proof.
  split; simpl; try apply NoDup_nil_2; try apply graph_wf_empty.
  - intros k r Hin. by apply elem_of_nil in Hin.
  - intros k r Hin. by apply elem_of_nil in Hin.
  - intros rel Hin. by apply elem_of_nil in Hin.
Qed.

Lemma store_inv_new h kg e : store_inv h kg → store_inv (h ++ [e]) kg.
Proof.
  intros [Hg Hk Ht Hn Hr]. split; try done.
  - intros k r Hin. destruct (Ht k r Hin) as [Hlt Htxt].
    rewrite length_app. split; [lia|]. by rewrite heap_text_app.
  - intros rel Hin. destruct (Hr rel Hin). rewrite length_app. lia.
Qed.

Lemma store_inv_add_entity h kg r :
  store_inv h kg → r < length h →
  store_inv (add_entity h kg r).1 (add_entity h kg r).2.
Proof.
  intros [Hg Hk Ht Hn Hr] Hlt. unfold add_entity.
  destruct (h !! r) as [e|] eqn:He; [|done].
  destruct (dict_get (text e) (entities kg)) as [r0|] eqn:Hget; simpl.
  - (* merge into the stored entity *)
    split; simpl; try done.
    + by apply graph_wf_update_node.
    + intros k r' Hin. rewrite Entity_update_length, Entity_update_text. auto.
    + intros k r' Hin.
      destruct (update_node_keys (graph kg) (text e)
                  (match Entity_update h r0 r !! r0 with
                   | Some e' => Entity_to_dict e'
                   | None => Entity_to_dict e
                   end)) as [-> _]. eauto.
    + intros rel Hin. rewrite Entity_update_length. auto.
  - (* a new key *)
    split; simpl.
    + by apply graph_wf_add_node.
    + by apply dict_set_NoDup.
    + intros k r' [ [-> ->] | Hin]%dict_set_elem; [|auto].
      split; [done|]. unfold heap_text. by rewrite He.
    + intros k r' Hin. apply dict_keys_set_elem.
      apply dict_set_elem in Hin as [ [-> ->] | Hin]; [by left | right; eauto].
    + done.
Qed.

Lemma store_inv_add_relation h kg rel :
  store_inv h kg → source rel < length h → target rel < length h →
  store_inv h (add_relation h kg rel).
Proof.
  intros [Hg Hk Ht Hn Hr] Hs Htg. split; simpl; try done.
  - by apply graph_wf_add_edge.
  - intros k r Hin. rewrite !touch_node_keys. eauto.
  - intros rel' [Hin|Heq%list_elem_of_singleton]%elem_of_app; subst; auto.
Qed.

Lemma reachable_inv h kg : reachable h kg → store_inv h kg.
Proof.
  induction 1; auto using store_inv_init, store_inv_new,
    store_inv_add_entity, store_inv_add_relation.
Qed.
End StoreInv.

(** * Shortest paths of the graph store *)

Lemma step_eta (st : PathStep) :
  st = mkPathStep (ps_source st) (ps_target st) (ps_relation_type st) (ps_sentence st).
Proof. by destruct st. Qed.

Lemma steps_from_cons_inv g u st steps t :
  steps_from g u (st :: steps) t →
  ∃ v a, Nx.get_edge_data g u v = Some a
         ∧ st = mkPathStep u v (Nx.edge_relation_type a) (Nx.edge_sentence a)
         ∧ steps_from g v steps t.
Proof.
  simpl. intros (Hs & He & Hr). eexists _, _. split; [done|]. split; [|done].
  simpl. rewrite <-Hs. apply step_eta.
Qed.

Lemma get_path_route (h : heap) (kg : KnowledgeGraph) s t l :
  reachable h kg → route (graph kg) s l t →
  ∃ steps, get_path kg s t = Ok steps
           ∧ steps_from (graph kg) s steps t
           ∧ ∀ l', route (graph kg) s l' t → length steps ≤ length l'.
Proof.
  intros Hwf%reachable_inv%si_graph Hroute.
  destruct (get_path_spec (graph kg) Hwf kg s t eq_refl) as (steps & Hget & Hcase).
  exists steps. split; [done|].
  destruct Hcase as [(_ & _ & Hfrom & Hmin)|[-> Hnone]]; [done|].
  assert (Hl : l = [] ∧ s = t).
  { destruct l as [|v l]; [done|]. exfalso.
    destruct (route_ends (graph kg) Hwf s (v :: l) t Hroute) as [Hs Ht]; [done|].
    destruct Hnone as [?|[?|Hno]]; [congruence.. | by eapply Hno]. }
  destruct Hl as [-> ->]. split; [done|]. intros l' _. simpl. lia.
Qed.

(** C5. In a store whose graph has no edges but A->B, B->C and C->D between
    four different entities, [get_path A D] is exactly those three steps, in
    order, each with the source, the target and the stored relation type and
    sentence of its edge.  In general, whenever the graph has a route from [s]
    to [t], [get_path s t] returns steps that follow edges of the graph from
    [s] to [t], one step per edge with the attributes stored for it, and no
    route from [s] to [t] has fewer edges. *)
Theorem get_path_shortest (h : heap) (kg : KnowledgeGraph) :
  reachable h kg →
  (∀ A B C D : string,
     NoDup [A; B; C; D] →
     (∀ u v, is_edge (graph kg) u v ↔ (u, v) ∈ [(A, B); (B, C); (C, D)]) →
     ∃ ab bc cd,
       Nx.get_edge_data (graph kg) A B = Some ab
       ∧ Nx.get_edge_data (graph kg) B C = Some bc
       ∧ Nx.get_edge_data (graph kg) C D = Some cd
       ∧ get_path kg A D
         = Ok [ mkPathStep A B (Nx.edge_relation_type ab) (Nx.edge_sentence ab);
                mkPathStep B C (Nx.edge_relation_type bc) (Nx.edge_sentence bc);
                mkPathStep C D (Nx.edge_relation_type cd) (Nx.edge_sentence cd) ])
  ∧ (∀ s t l,
       route (graph kg) s l t →
       ∃ steps, get_path kg s t = Ok steps
                ∧ steps_from (graph kg) s steps t
                ∧ ∀ l', route (graph kg) s l' t → length steps ≤ length l').
Proof.
  intros Hreach. split; [|intros s t l; by apply (get_path_route h)].
  intros A B C D Hnd Hedges.
  apply NoDup_cons in Hnd as [HA Hnd]. apply NoDup_cons in Hnd as [HB Hnd].
  apply NoDup_cons in Hnd as [HC _].
  rewrite !not_elem_of_cons in HA. rewrite !not_elem_of_cons in HB.
  rewrite !not_elem_of_cons in HC.
  destruct HA as (HAB & HAC & HAD & _), HB as (HBC & HBD & _), HC as (HCD & _).
  assert (Hout : ∀ u v, is_edge (graph kg) u v →
            (u = A ∧ v = B) ∨ (u = B ∧ v = C) ∨ (u = C ∧ v = D)).
  { intros u v Huv%Hedges. rewrite !elem_of_cons in Huv.
    destruct Huv as [?|[?|[?|Hnil]]]; simplify_eq; auto.
    by apply elem_of_nil in Hnil. }
  assert (Hroute : route (graph kg) A [B; C; D] D).
  { simpl. split_and!; try done; apply Hedges; rewrite !elem_of_cons; auto. }
  destruct (get_path_route h kg A D _ Hreach Hroute) as (steps & Hget & Hfrom & _).
  rewrite Hget.
  destruct steps as [|s1 steps]; [simpl in Hfrom; congruence|].
  apply steps_from_cons_inv in Hfrom as (v1 & ab & Hab & -> & Hfrom).
  destruct (Hout A v1) as [[_ ->]|[[? _]|[? _]]];
    [by (unfold is_edge; rewrite Hab) | | congruence | congruence].
  destruct steps as [|s2 steps]; [simpl in Hfrom; congruence|].
  apply steps_from_cons_inv in Hfrom as (v2 & bc & Hbc & -> & Hfrom).
  destruct (Hout B v2) as [[? _]|[[_ ->]|[? _]]];
    [by (unfold is_edge; rewrite Hbc) | congruence | | congruence].
  destruct steps as [|s3 steps]; [simpl in Hfrom; congruence|].
  apply steps_from_cons_inv in Hfrom as (v3 & cd & Hcd & -> & Hfrom).
  destruct (Hout C v3) as [[? _]|[[? _]|[_ ->]]];
    [by (unfold is_edge; rewrite Hcd) | congruence | congruence |].
  destruct steps as [|s4 steps].
  - exists ab, bc, cd. done.
  - apply steps_from_cons_inv in Hfrom as (v4 & x & Hx & _ & _).
    destruct (Hout D v4) as [[? _]|[[? _]|[? _]]];
      [by (unfold is_edge; rewrite Hx) | congruence..].
Qed.

(** Where [get_path] has nothing to report. *)
Lemma get_path_nil (h : heap) (kg : KnowledgeGraph) (s t : string) :
  reachable h kg →
  s = t ∨ Nx.has_node (graph kg) s = false ∨ Nx.has_node (graph kg) t = false
  ∨ (∀ l, ¬ route (graph kg) s l t) →
  get_path kg s t = Ok [].
Proof.
  intros Hwf%reachable_inv%si_graph Hmiss.
  destruct (get_path_spec (graph kg) Hwf kg s t eq_refl) as (steps & Hget & Hcase).
  rewrite Hget. f_equal.
  destruct Hcase as [(Hs & Ht & Hfrom & Hmin)|[-> _]]; [|done].
  destruct Hmiss as [->|[?|[?|Hno]]]; [|congruence..|].
  - specialize (Hmin [] eq_refl). destruct steps; [done | simpl in Hmin; lia].
  - exfalso. by eapply Hno, steps_from_route.
Qed.

(** C6. When [s] or [t] is not a node of the graph, or the graph has no route
    from [s] to [t], [get_path s t] returns the empty list: it returns, and
    what it returns is not an exception. *)
Theorem get_path_missing (h : heap) (kg : KnowledgeGraph) (s t : string) :
  reachable h kg →
  Nx.has_node (graph kg) s = false ∨ Nx.has_node (graph kg) t = false
  ∨ (∀ l, ¬ route (graph kg) s l t) →
  get_path kg s t = Ok [].
Proof. intros Hreach Hmiss. apply (get_path_nil h); auto. Qed.

(** C9. For a key stored as an entity, which is then a node of the graph,
    [get_path k k] returns the empty list, the answer it also gives when
    there is no path. *)
Theorem get_path_self (h : heap) (kg : KnowledgeGraph) (k : string) :
  reachable h kg → is_Some (get_entity kg k) →
  Nx.has_node (graph kg) k = true ∧ get_path kg k k = Ok [].
Proof.
  intros Hreach [r Hr]. split.
  - apply dict_mem_true.
    eapply (si_nodes h kg (reachable_inv h kg Hreach) k r).
    by apply dict_get_Some_elem.
  - apply (get_path_nil h); auto.
Qed.

Lemma reachable_add_entity_same h kg r :
  reachable h kg → r < length h → (add_entity h kg r).1 = h →
  reachable h (add_entity h kg r).2.
Proof.
  intros Hr Hlt Heq. pose proof (reachable_add_entity h kg r Hr Hlt) as H.
  by rewrite Heq in H.
Qed.

Lemma chain_reachable : reachable chain_heap chain_kg.
Proof.
  unfold chain_kg, chain_entities. cbn [foldl].
  repeat (apply reachable_add_relation; [|simpl; lia|simpl; lia]).
  repeat (apply reachable_add_entity_same; [|simpl; lia|reflexivity]).
  apply reachable_init.
Qed.

Lemma get_path_shortest_witness :
  get_path chain_kg "A" "D"
  = Ok [ mkPathStep "A" "B" "owns" "A owns B."; mkPathStep "B" "C" "funds" "B funds C.";
         mkPathStep "C" "D" "hires" "C hires D." ]
  ∧ ∃ steps, get_path chain_kg "B" "D" = Ok steps ∧ length steps ≤ 2.
Proof.
  destruct (get_path_shortest chain_heap chain_kg chain_reachable) as [Hchain Hgen].
  split.
  - destruct (Hchain "A" "B" "C" "D") as (ab & bc & cd & Hab & Hbc & Hcd & Hpath).
    + compute_done.
    + intros u v. apply (is_edge_keys (graph chain_kg)).
    + vm_compute in Hab, Hbc, Hcd. simplify_eq. exact Hpath.
  - destruct (Hgen "B" "D" ["C"; "D"]) as (steps & Hget & _ & Hmin).
    + simpl. split_and!; [by eexists | by eexists | done].
    + exists steps. split; [done|]. apply (Hmin ["C"; "D"]).
      simpl. split_and!; [by eexists | by eexists | done].
Defined.

Lemma get_path_missing_witness :
  get_path chain_kg "A" "Z" = Ok [] ∧ get_path chain_kg "D" "A" = Ok [].
Proof.
  split.
  - apply (get_path_missing chain_heap chain_kg "A" "Z" chain_reachable).
    right. left. reflexivity.
  - apply (get_path_missing chain_heap chain_kg "D" "A" chain_reachable).
    right. right. intros [|v l]; simpl.
    + discriminate.
    + intros [[a Ha] _]. vm_compute in Ha. discriminate.
Defined.

Lemma get_path_self_witness :
  Nx.has_node (graph chain_kg) "B" = true ∧ get_path chain_kg "B" "B" = Ok [].
Proof.
  apply (get_path_self chain_heap chain_kg "B" chain_reachable).
  vm_compute. by eexists.
Defined.
(** * Two relations between the same pair of entities *)

Section EdgeOverwrite.
Context {K V : Type} `{EqDecision K}.

Lemma dict_filter_key_absent (d : list (K * V)) k :
  k ∉ dict_keys d → filter (λ e, e.1 = k) d = [].
Proof.
  unfold dict_keys. induction d as [|[k' v'] d IH]; [done|].
  rewrite fmap_cons, not_elem_of_cons. simpl. intros [Hne Hin].
  rewrite filter_cons_False by (simpl; congruence). auto.
Qed.

Lemma dict_filter_key (d : list (K * V)) k v :
  NoDup (dict_keys d) → dict_get k d = Some v →
  filter (λ e, e.1 = k) d = [(k, v)].
Proof.
  unfold dict_keys. induction d as [|[k' v'] d IH]; [done|].
  rewrite fmap_cons. simpl. intros [Hnotin Hnd]%NoDup_cons.
  case_decide as Hk.
  - intros [= ->]. subst k'. rewrite filter_cons_True by done.
    by rewrite dict_filter_key_absent.
  - intros Hget. rewrite filter_cons_False by (simpl; congruence). auto.
Qed.
End EdgeOverwrite.

Lemma out_entries_of_pair (adj : list (string * string * Nx.EdgeAttr)) s t :
  filter (λ e, re_direction e = outgoing ∧ re_entity e = t)
         (out_entry <$> filter (λ e, e.1.1 = s) adj)
  = out_entry <$> filter (λ e, e.1 = (s, t)) adj.
Proof.
  induction adj as [|[[u v] a] adj IH]; [done|].
  destruct (decide (u = s)) as [->|Hu].
  - rewrite (filter_cons_True (λ e, e.1.1 = s)) by done. rewrite fmap_cons.
    destruct (decide (v = t)) as [->|Hv].
    + rewrite !filter_cons_True by done. rewrite fmap_cons. by rewrite IH.
    + rewrite !filter_cons_False; [done| |]; simpl; [congruence | intros [_ ?]; done].
  - rewrite !filter_cons_False; [done| |]; simpl; congruence.
Qed.

Lemma in_entries_of_pair (adj : list (string * string * Nx.EdgeAttr)) s t :
  filter (λ e, re_direction e = incoming ∧ re_entity e = s)
         (in_entry <$> filter (λ e, e.1.2 = t) adj)
  = in_entry <$> filter (λ e, e.1 = (s, t)) adj.
Proof.
  induction adj as [|[[u v] a] adj IH]; [done|].
  destruct (decide (v = t)) as [->|Hv].
  - rewrite (filter_cons_True (λ e, e.1.2 = t)) by done. rewrite fmap_cons.
    destruct (decide (u = s)) as [->|Hu].
    + rewrite !filter_cons_True by done. rewrite fmap_cons. by rewrite IH.
    + rewrite !filter_cons_False; [done| |]; simpl; [congruence | intros [_ ?]; done].
  - rewrite !filter_cons_False; [done| |]; simpl; congruence.
Qed.

Lemma filter_direction_none (P : RelationEntry → Prop) `{∀ e, Decision (P e)}
    (f : string * string * Nx.EdgeAttr → RelationEntry) l :
  (∀ e, ¬ P (f e)) → filter P (f <$> l) = [].
Proof.
  intros Hno. induction l as [|e l IH]; [done|].
  rewrite fmap_cons, filter_cons_False by done. done.
Qed.

Lemma get_relations_unfold h kg k r :
  get_entity kg k = Some r →
  get_relations h kg k
  = (out_entry <$> Nx.out_edges (graph kg) (heap_text h r))
    ++ (in_entry <$> Nx.in_edges (graph kg) (heap_text h r)).
Proof. intros Hr. unfold get_relations. by rewrite Hr. Qed.

Lemma steps_from_edge g u steps t st :
  steps_from g u steps t → st ∈ steps →
  Nx.get_edge_data g (ps_source st) (ps_target st)
  = Some (Nx.mkEdgeAttr (ps_relation_type st) (ps_sentence st)).
Proof.
  revert u. induction steps as [|s0 steps IH]; intros u Hfrom Hin.
  - by apply elem_of_nil in Hin.
  - destruct Hfrom as (Hs & He & Hrest).
    apply elem_of_cons in Hin as [->|Hin]; [by rewrite Hs | by eapply IH].
Qed.

(** C3. After two [add_relation] calls for the same ordered pair of entity
    texts, the relation list ends with both relations in the order of the
    calls, the graph stores one edge for the pair, and that edge carries the
    relation type and sentence of the second relation; these are the
    attributes [get_relations] reports for the pair, in both directions, and
    the ones of every step over that pair in any answer of [get_path]. *)
Theorem add_relation_overwrites (h : heap) (kg : KnowledgeGraph) (r1 r2 : Relation) :
  reachable h kg →
  heap_text h (source r1) = heap_text h (source r2) →
  heap_text h (target r1) = heap_text h (target r2) →
  let kg2 := add_relation h (add_relation h kg r1) r2 in
  let s := heap_text h (source r2) in
  let t := heap_text h (target r2) in
  relations kg2 = relations kg ++ [r1; r2]
  ∧ Nx.get_edge_data (graph kg2) s t
    = Some (Nx.mkEdgeAttr (relation_type r2) (sentence r2))
  ∧ filter (λ e, e.1 = (s, t)) (Nx.g_adj (graph kg2))
    = [((s, t), Nx.mkEdgeAttr (relation_type r2) (sentence r2))]
  ∧ (is_Some (get_entity kg2 s) →
     filter (λ e, re_direction e = outgoing ∧ re_entity e = t)
            (get_relations h kg2 s)
     = [mkRelationEntry outgoing (relation_type r2) t (sentence r2)])
  ∧ (is_Some (get_entity kg2 t) →
     filter (λ e, re_direction e = incoming ∧ re_entity e = s)
            (get_relations h kg2 t)
     = [mkRelationEntry incoming (relation_type r2) s (sentence r2)])
  ∧ (∀ a b steps st,
       get_path kg2 a b = Ok steps → st ∈ steps →
       ps_source st = s → ps_target st = t →
       ps_relation_type st = relation_type r2 ∧ ps_sentence st = sentence r2)
  ∧ (s ≠ t →
     get_path kg2 s t = Ok [mkPathStep s t (relation_type r2) (sentence r2)]).
Proof.
  intros Hreach Hsrc Htgt kg2 s t.
  pose proof (reachable_inv h kg Hreach) as Hinv.
  assert (Hwf2 : graph_wf (graph kg2)).
  { unfold kg2. simpl. do 2 apply graph_wf_add_edge. apply Hinv. }
  assert (Hedge : Nx.get_edge_data (graph kg2) s t
                  = Some (Nx.mkEdgeAttr (relation_type r2) (sentence r2))).
  { unfold kg2, Nx.get_edge_data. simpl. apply dict_get_set_eq. }
  assert (Hone : filter (λ e, e.1 = (s, t)) (Nx.g_adj (graph kg2))
                 = [((s, t), Nx.mkEdgeAttr (relation_type r2) (sentence r2))]).
  { apply dict_filter_key; [apply Hwf2 | exact Hedge]. }
  assert (Htext : ∀ k r, get_entity kg2 k = Some r → heap_text h r = k).
  { intros k r Hk. apply dict_get_Some_elem in Hk.
    by destruct (si_text h kg Hinv k r Hk). }
  split_and!.
  - unfold kg2. simpl. by rewrite <-app_assoc.
  - exact Hedge.
  - exact Hone.
  - intros [r Hr]. rewrite (get_relations_unfold h kg2 s r Hr), (Htext s r Hr).
    rewrite filter_app. unfold Nx.out_edges, Nx.in_edges.
    rewrite out_entries_of_pair, Hone.
    rewrite (filter_direction_none _ in_entry); [done|].
    intros e [Hd _]. done.
  - intros [r Hr]. rewrite (get_relations_unfold h kg2 t r Hr), (Htext t r Hr).
    rewrite filter_app. unfold Nx.out_edges, Nx.in_edges.
    rewrite in_entries_of_pair, Hone.
    rewrite (filter_direction_none _ out_entry); [done|].
    intros e [Hd _]. done.
  - intros a b steps st Hget Hin Hs Ht.
    destruct (get_path_spec (graph kg2) Hwf2 kg2 a b eq_refl)
      as (steps' & Hget' & Hcase).
    rewrite Hget in Hget'. injection Hget' as <-.
    destruct Hcase as [(_ & _ & Hfrom & _)|[-> _]]; [|by apply elem_of_nil in Hin].
    pose proof (steps_from_edge _ _ _ _ _ Hfrom Hin) as He.
    rewrite Hs, Ht in He.
    assert (Heq : Some (Nx.mkEdgeAttr (ps_relation_type st) (ps_sentence st))
                  = Some (Nx.mkEdgeAttr (relation_type r2) (sentence r2))).
    { rewrite <-He. exact Hedge. }
    by injection Heq as -> ->.
  - intros Hne.
    destruct (get_path_spec (graph kg2) Hwf2 kg2 s t eq_refl)
      as (steps & Hget & Hcase).
    assert (Hroute : route (graph kg2) s [t] t).
    { cbn [route]. split; [|done]. unfold is_edge. by rewrite Hedge. }
    rewrite Hget. f_equal.
    destruct Hcase as [(_ & _ & Hfrom & Hmin)|[-> Hnone]].
    + specialize (Hmin [t] Hroute). simpl in Hmin.
      destruct steps as [|st steps]; [simpl in Hfrom; congruence|].
      destruct steps as [|st' steps]; [|simpl in Hmin; lia].
      destruct Hfrom as (Hs & He & Ht). simpl in Ht. rewrite Ht in He.
      assert (Heq : Some (Nx.mkEdgeAttr (ps_relation_type st) (ps_sentence st))
                    = Some (Nx.mkEdgeAttr (relation_type r2) (sentence r2))).
      { rewrite <-He. exact Hedge. }
      injection Heq as Hrt Hse.
      rewrite (step_eta st). congruence.
    + exfalso.
      destruct (route_ends (graph kg2) Hwf2 s [t] t Hroute) as [? ?]; [done|].
      destruct Hnone as [?|[?|Hno]]; [congruence..|]. by eapply Hno.
Qed.

Lemma add_relation_overwrites_witness :
  let kg2 := add_relation chain_heap
               (add_relation chain_heap chain_kg (mkRelation 0 1 "sues" "A sues B."))
               (mkRelation 0 1 "buys" "A buys B.") in
  Nx.get_edge_data (graph kg2) "A" "B" = Some (Nx.mkEdgeAttr "buys" "A buys B.")
  ∧ get_path kg2 "A" "B" = Ok [mkPathStep "A" "B" "buys" "A buys B."].
Proof.
  intros kg2.
  destruct (add_relation_overwrites chain_heap chain_kg
              (mkRelation 0 1 "sues" "A sues B.") (mkRelation 0 1 "buys" "A buys B.")
              chain_reachable eq_refl eq_refl)
    as (_ & Hedge & _ & _ & _ & _ & Hpath).
  split; [exact Hedge|]. apply Hpath. discriminate.
Defined.
(** * Adding an entity object again *)

Lemma Entity_update_self (h : heap) (self other : ref) (s o : Entity) :
  h !! self = Some s → h !! other = Some o →
  ∃ s', Entity_update h self other !! self = Some s'
        ∧ text s' = text s
        ∧ occurrences s' = (occurrences s + occurrences o)%Z
        ∧ mentions s' = mentions s ∪ mentions o.
Proof.
  intros Hs Ho. unfold Entity_update. rewrite Hs, Ho.
  assert (Hlt : self < length h) by (by eapply lookup_lt_Some).
  rewrite list_lookup_insert_eq by done.
  destruct (decide (other = self)) as [->|Hne].
  - rewrite list_lookup_insert_eq by done.
    rewrite list_lookup_insert_eq by (by rewrite length_insert).
    eexists. split; [done|]. simplify_eq. simpl. split_and!; [done | done |].
    set_solver.
  - rewrite list_lookup_insert_ne by done. rewrite Ho.
    rewrite list_lookup_insert_eq by (by rewrite length_insert).
    eexists. split; [done|]. simpl. done.
Qed.

Lemma Entity_update_lookup_text (h : heap) (self other r : ref) (e : Entity) :
  h !! r = Some e →
  ∃ e', Entity_update h self other !! r = Some e' ∧ text e' = text e.
Proof.
  intros He.
  destruct (Entity_update h self other !! r) as [e'|] eqn:He'.
  - exists e'. split; [done|].
    pose proof (Entity_update_text h self other r) as Ht.
    unfold heap_text in Ht. by rewrite He, He' in Ht.
  - apply lookup_ge_None in He'. rewrite Entity_update_length in He'.
    apply lookup_lt_Some in He. lia.
Qed.

Lemma add_entity_fresh (h : heap) (kg : KnowledgeGraph) (e : ref) (ent : Entity) :
  h !! e = Some ent → get_entity kg (text ent) = None →
  add_entity h kg e
  = (h, mkKnowledgeGraph (dict_set (text ent) e (entities kg)) (relations kg)
          (Nx.add_node (graph kg) (text ent) (Entity_to_dict ent))).
Proof. intros He Hk. unfold add_entity, get_entity in *. by rewrite He, Hk. Qed.

Lemma add_entity_merge (h : heap) (kg : KnowledgeGraph) (e r : ref) (ent : Entity) :
  h !! e = Some ent → get_entity kg (text ent) = Some r →
  (add_entity h kg e).1 = Entity_update h r e
  ∧ entities (add_entity h kg e).2 = entities kg
  ∧ relations (add_entity h kg e).2 = relations kg.
Proof. intros He Hk. unfold add_entity, get_entity in *. by rewrite He, Hk. Qed.

(** C1. Calling [add_entity] twice with the same Entity object: after the
    first call the object's text is a key of the store; the second call keeps
    the keys, the stored object and its text, and adds to the stored
    occurrence count the count the passed object has at that moment.  When the
    first call inserted the object, the stored object is the passed one, so
    the second call doubles its count: a new object, whose count is 1, goes
    from 1 to 2. *)
Theorem add_entity_twice (h : heap) (kg : KnowledgeGraph) (e : ref) (ent : Entity) :
  reachable h kg → h !! e = Some ent →
  let st1 := add_entity h kg e in
  let st2 := add_entity st1.1 st1.2 e in
  ∃ r ent1 ent2 e1,
    get_entity st1.2 (text ent) = Some r ∧ get_entity st2.2 (text ent) = Some r
    ∧ st1.1 !! r = Some ent1 ∧ st2.1 !! r = Some ent2 ∧ st1.1 !! e = Some e1
    ∧ text ent1 = text ent ∧ text ent2 = text ent
    ∧ dict_keys (entities st2.2) = dict_keys (entities st1.2)
    ∧ occurrences ent2 = (occurrences ent1 + occurrences e1)%Z
    ∧ (get_entity kg (text ent) = None →
       r = e ∧ occurrences ent1 = occurrences ent
       ∧ occurrences ent2 = (2 * occurrences ent)%Z
       ∧ (occurrences ent = 1%Z → occurrences ent2 = (occurrences ent1 + 1)%Z)).
Proof.
  intros Hinv%reachable_inv He st1 st2.
  assert (Hfirst : ∃ r ent1 e1,
            get_entity st1.2 (text ent) = Some r ∧ st1.1 !! r = Some ent1
            ∧ st1.1 !! e = Some e1 ∧ text ent1 = text ent ∧ text e1 = text ent
            ∧ (get_entity kg (text ent) = None →
               r = e ∧ ent1 = ent ∧ e1 = ent)).
  { destruct (get_entity kg (text ent)) as [r|] eqn:Hk.
    - destruct (add_entity_merge h kg e r ent He Hk) as (Hh & Hents & _).
      destruct (si_text h kg Hinv (text ent) r) as [Hlt Htxt];
        [by apply dict_get_Some_elem|].
      destruct (lookup_lt_is_Some_2 h r Hlt) as [er Her].
      destruct (Entity_update_lookup_text h r e r er Her) as (ent1 & H1 & Ht1).
      destruct (Entity_update_lookup_text h r e e ent He) as (e1 & H2 & Ht2).
      exists r, ent1, e1. unfold st1, get_entity. rewrite Hh, Hents.
      split_and!; try done.
      unfold heap_text in Htxt. rewrite Her in Htxt. congruence.
    - exists e, ent, ent. unfold st1. rewrite (add_entity_fresh h kg e ent He Hk).
      simpl. unfold get_entity. simpl. rewrite dict_get_set_eq. done. }
  destruct Hfirst as (r & ent1 & e1 & Hk1 & Hr1 & He1 & Ht1 & Hte1 & Hfresh).
  assert (Hk1' : get_entity st1.2 (text e1) = Some r) by (by rewrite Hte1).
  destruct (add_entity_merge st1.1 st1.2 e r e1 He1 Hk1') as (Hh2 & Hents2 & _).
  destruct (Entity_update_self st1.1 r e ent1 e1 Hr1 He1)
    as (ent2 & Hr2 & Ht2 & Hocc & _).
  exists r, ent1, ent2, e1. unfold st2, get_entity. rewrite Hh2, Hents2.
  split_and!; try done; [congruence|].
  intros Hnone. destruct (Hfresh Hnone) as (-> & -> & ->).
  split_and!; [done | done | lia | lia].
Qed.

Lemma add_entity_twice_witness :
  let h := [Entity_init "Google" "ORG" 0 6] in
  let st1 := add_entity h KnowledgeGraph_init 0 in
  let st2 := add_entity st1.1 st1.2 0 in
  occurrences <$> st1.1 !! 0 = Some 1%Z ∧ occurrences <$> st2.1 !! 0 = Some 2%Z
  ∧ dict_keys (entities st2.2) = ["Google"].
Proof.
  intros h st1 st2.
  destruct (add_entity_twice h KnowledgeGraph_init 0 (Entity_init "Google" "ORG" 0 6)
              (reachable_init h) eq_refl)
    as (r & ent1 & ent2 & e1 & _ & _ & Hr1 & Hr2 & _ & _ & _ & Hkeys & _ & Hfresh).
  destruct (Hfresh eq_refl) as (-> & Ho1 & Ho2 & _).
  fold st1 in Hr1. fold st1 st2 in Hr2, Hkeys.
  rewrite Hr1, Hr2, Hkeys. simpl. rewrite Ho1, Ho2. done.
Defined.

(** The statement of C1 fails when the object is added a third time: the
    counts of a new object are 1, 2 and 4. *)
Lemma add_entity_twice_counterexample :
  let h := [Entity_init "Google" "ORG" 0 6] in
  let st1 := add_entity h KnowledgeGraph_init 0 in
  let st2 := add_entity st1.1 st1.2 0 in
  let st3 := add_entity st2.1 st2.2 0 in
  occurrences <$> st1.1 !! 0 = Some 1%Z
  ∧ occurrences <$> st2.1 !! 0 = Some 2%Z
  ∧ occurrences <$> st3.1 !! 0 = Some 4%Z
  ∧ occurrences <$> st3.1 !! 0 ≠ Some (2 + 1)%Z.
Proof. vm_compute. split_and!; congruence. Qed.
(** * Saving and loading *)

Lemma load_entities_fresh (data : list EntityDict) : ∀ (h : heap) (kg : KnowledgeGraph),
  NoDup (d_text <$> data) →
  (∀ d, d ∈ data → d_text d ∉ dict_keys (entities kg)) →
  (load_entities h kg data).1 = h ++ (entity_of_dict <$> data)
  ∧ entities (load_entities h kg data).2
    = entities kg ++ imap (λ i d, (d_text d, length h + i)) data
  ∧ relations (load_entities h kg data).2 = relations kg.
Proof.
  induction data as [|d data IH]; intros h kg Hnd Hfresh.
  - simpl. by rewrite !app_nil_r.
  - rewrite fmap_cons in Hnd. apply NoDup_cons in Hnd as [Hd Hnd].
    cbn [load_entities alloc].
    fold (entity_of_dict d).
    assert (Hlook : (h ++ [entity_of_dict d]) !! length h = Some (entity_of_dict d)).
    { rewrite lookup_app_r by lia. by rewrite Nat.sub_diag. }
    assert (Hk : get_entity kg (text (entity_of_dict d)) = None).
    { apply dict_get_None. apply Hfresh. apply list_elem_of_here. }
    rewrite (add_entity_fresh _ kg _ _ Hlook Hk).
    set (kg1 := mkKnowledgeGraph _ _ _).
    destruct (IH (h ++ [entity_of_dict d]) kg1 Hnd) as (H1 & H2 & H3).
    { intros d' Hd'. unfold kg1. simpl. rewrite dict_keys_set_elem.
      intros [Heq|Hin].
      - apply Hd. rewrite <-Heq. by apply list_elem_of_fmap_2.
      - eapply Hfresh; [|done]. by apply list_elem_of_further. }
    rewrite H1, H2, H3. unfold kg1. simpl. split_and!; [|  |done].
    + by rewrite <-app_assoc.
    + rewrite dict_set_absent by (apply Hfresh, list_elem_of_here).
      rewrite <-app_assoc. simpl. do 2 f_equal; [f_equal; lia|].
      apply imap_ext. intros i x _. simpl. rewrite length_app. simpl.
      f_equal. lia.
Qed.

Lemma load_relations_spec (data : list RelationDict) : ∀ (h : heap) (kg : KnowledgeGraph),
  entities (load_relations h kg data) = entities kg
  ∧ length (relations (load_relations h kg data))
    = length (relations kg) + length (filter (resolved (entities kg)) data).
Proof.
  induction data as [|rd data IH]; intros h kg.
  - simpl. split; [done | lia].
  - cbn [load_relations]. unfold get_entity.
    destruct (decide (resolved (entities kg) rd)) as [Hres|Hres].
    + rewrite filter_cons_True by done.
      destruct Hres as [[s Hs] [t Ht]]. rewrite Hs, Ht.
      destruct (IH h (add_relation h kg (mkRelation s t (rd_relation_type rd)
                                                   (rd_sentence rd))))
        as [He Hl].
      rewrite He, Hl. simpl. rewrite length_app. simpl. split; [done | lia].
    + rewrite filter_cons_False by done.
      destruct (IH h kg) as [He Hl].
      assert (Hskip : (match dict_get (rd_source rd) (entities kg),
                             dict_get (rd_target rd) (entities kg) with
                       | Some s, Some t =>
                           load_relations h
                             (add_relation h kg
                                (mkRelation s t (rd_relation_type rd) (rd_sentence rd)))
                             data
                       | _, _ => load_relations h kg data
                       end) = load_relations h kg data).
      { destruct (dict_get (rd_source rd) (entities kg)) eqn:E1; [|done].
        destruct (dict_get (rd_target rd) (entities kg)) eqn:E2; [|done].
        destruct Hres. split; eauto. }
      rewrite Hskip. done.
Qed.

Lemma to_dict_texts (h : heap) (kg : KnowledgeGraph) :
  store_inv h kg →
  d_text <$> snap_entities (to_dict h kg) = dict_keys (entities kg).
Proof.
  intros Hinv. unfold to_dict, dict_values, dict_keys. simpl.
  rewrite <-!list_fmap_compose. apply list_fmap_ext.
  intros i [k r] Hi. simpl.
  destruct (si_text h kg Hinv k r) as [Hlt Htxt]; [by eapply list_elem_of_lookup_2|].
  unfold heap_text in Htxt. destruct (h !! r); [done|].
  apply lookup_lt_is_Some_2 in Hlt. rewrite Htxt in *. done.
Qed.

Lemma imap_keys {A B C} (f : A → B) (g : nat → C) (l : list A) :
  (imap (λ i d, (f d, g i)) l).*1 = f <$> l.
Proof.
  revert g. induction l as [|x l IH]; intros g; [done|].
  simpl. f_equal. apply (IH (g ∘ S)).
Qed.

Lemma filter_all {A} (P : A → Prop) `{∀ x, Decision (P x)} (l : list A) :
  Forall P l → filter P l = l.
Proof.
  induction 1 as [|x l Hx Hl IH]; [done|].
  rewrite filter_cons_True by done. by rewrite IH.
Qed.

(** C4. Loading the snapshot of a store gives a store with the same number
    of entities under the same keys, each with the mentions, the occurrence
    count and the type it had, and with as many relations as the snapshot has
    relations both of whose ends are entity keys: all of them when every
    relation of the store joins stored entities. *)
Theorem load_to_dict (h h0 : heap) (kg : KnowledgeGraph) :
  reachable h kg →
  let st := load h0 (to_dict h kg) in
  length (entities st.2) = length (entities kg)
  ∧ dict_keys (entities st.2) = dict_keys (entities kg)
  ∧ (∀ k r ent,
       get_entity kg k = Some r → h !! r = Some ent →
       ∃ r' ent',
         get_entity st.2 k = Some r' ∧ st.1 !! r' = Some ent'
         ∧ text ent' = k ∧ mentions ent' = mentions ent
         ∧ occurrences ent' = occurrences ent
         ∧ entity_type ent' = entity_type ent)
  ∧ length (relations st.2)
    = length (filter (resolved (entities kg)) (snap_relations (to_dict h kg)))
  ∧ (Forall (resolved (entities kg)) (snap_relations (to_dict h kg)) →
     length (relations st.2) = length (relations kg)).
Proof.
  intros Hinv%reachable_inv st.
  pose proof (to_dict_texts h kg Hinv) as Htexts.
  assert (Hsnap_e : ∀ i r ent, entities kg !! i = Some r → h !! r.2 = Some ent →
            snap_entities (to_dict h kg) !! i = Some (Entity_to_dict ent)).
  { intros i r ent Hi Hr. unfold to_dict, dict_values. simpl.
    rewrite !list_lookup_fmap, Hi. simpl. by rewrite Hr. }
  assert (Hsnap_r : length (snap_relations (to_dict h kg)) = length (relations kg)).
  { unfold to_dict. simpl. by rewrite length_fmap. }
  revert st. generalize dependent (to_dict h kg). intros snap Htexts Hsnap_e Hsnap_r st.
  destruct (load_entities_fresh (snap_entities snap) h0 KnowledgeGraph_init)
    as (Hheap & Hents & Hrels).
  { rewrite Htexts. apply Hinv. }
  { intros d _. simpl. apply not_elem_of_nil. }
  simpl in Hents, Hrels.
  destruct (load_relations_spec (snap_relations snap)
              (load_entities h0 KnowledgeGraph_init (snap_entities snap)).1
              (load_entities h0 KnowledgeGraph_init (snap_entities snap)).2)
    as (Hents' & Hlen).
  assert (Hst1 : st.1 = h0 ++ (entity_of_dict <$> snap_entities snap)).
  { unfold st, load. destruct (load_entities _ _ _). simpl in *. done. }
  assert (Hst2 : st.2 = load_relations
            (load_entities h0 KnowledgeGraph_init (snap_entities snap)).1
            (load_entities h0 KnowledgeGraph_init (snap_entities snap)).2
            (snap_relations snap)).
  { unfold st, load. destruct (load_entities _ _ _). simpl in *. done. }
  rewrite Hents in Hents'. rewrite Hrels, Hents in Hlen. simpl in Hlen.
  assert (Hkeys : dict_keys (entities st.2) = dict_keys (entities kg)).
  { rewrite Hst2, Hents'. unfold dict_keys at 1. by rewrite imap_keys. }
  assert (Hsame : ∀ rd, resolved (entities st.2) rd ↔ resolved (entities kg) rd).
  { intros rd. unfold resolved. by rewrite !dict_get_is_Some, Hkeys. }
  assert (Hcount : length (relations st.2)
            = length (filter (resolved (entities kg)) (snap_relations snap))).
  { rewrite Hst2, Hlen. f_equal. apply list_filter_iff. intros rd.
    rewrite <-Hsame, Hst2, Hents'. done. }
  split_and!.
  - apply (f_equal length) in Hkeys. unfold dict_keys in Hkeys.
    by rewrite !length_fmap in Hkeys.
  - done.
  - intros k r ent Hk Hr.
    apply dict_get_Some_elem, list_elem_of_lookup_1 in Hk as [i Hi].
    assert (Hd : snap_entities snap !! i = Some (Entity_to_dict ent))
      by (by apply (Hsnap_e i (k, r))).
    assert (Hk : text ent = k).
    { destruct (si_text h kg Hinv k r) as [_ Ht]; [by eapply list_elem_of_lookup_2|].
      unfold heap_text in Ht. by rewrite Hr in Ht. }
    exists (length h0 + i), (entity_of_dict (Entity_to_dict ent)). split_and!.
    + unfold get_entity. apply dict_get_elem_NoDup.
      * rewrite Hkeys. apply Hinv.
      * rewrite Hst2, Hents'. eapply list_elem_of_lookup_2 with (i := i).
        rewrite list_lookup_imap, Hd. simpl. by rewrite Hk.
    + rewrite Hst1. rewrite lookup_app_r by lia.
      replace (length h0 + i - length h0) with i by lia.
      by rewrite list_lookup_fmap, Hd.
    + done.
    + simpl. apply list_to_set_elements_L.
    + done.
    + done.
  - done.
  - intros Hall. by rewrite Hcount, filter_all.
Qed.

Lemma load_to_dict_witness :
  let st := load chain_heap (to_dict chain_heap chain_kg) in
  length (entities st.2) = 4 ∧ length (relations st.2) = 3.
Proof.
  intros st.
  destruct (load_to_dict chain_heap chain_heap chain_kg chain_reachable)
    as (Hents & _ & _ & _ & Hrels).
  fold st in Hents, Hrels. split; [exact Hents|].
  apply Hrels. vm_compute.
  repeat (apply Forall_cons; split; [split; eexists; reflexivity|]).
  apply Forall_nil_2.
Defined.

(** The statement of C4 fails for a store that holds a relation between
    objects that were never added as entities: the snapshot lists the
    relation and [load] skips it. *)
Lemma load_to_dict_counterexample :
  let h := [Entity_init "Ada" "PERSON" 0 3; Entity_init "IBM" "ORG" 0 3] in
  let kg := add_relation h KnowledgeGraph_init (mkRelation 0 1 "joins" "Ada joins IBM.") in
  length (relations kg) = 1
  ∧ length (snap_relations (to_dict h kg)) = 1
  ∧ length (relations (load h (to_dict h kg)).2) = 0.
Proof. vm_compute. done. Qed.
(** * The query engine *)

Lemma greedy_Some {R : Type} (ok : ascii → bool) (s : string)
    (k : string → string → option R) (r : R) :
  Re.greedy ok s k = Some r → ∃ taken rest, k taken rest = Some r.
Proof.
  revert k. induction s as [|c s IH]; intros k; simpl; [done|].
  destruct (ok c); [|done].
  destruct (Re.greedy ok s _) as [r'|] eqn:Hg.
  - intros [= <-]. apply IH in Hg as (taken & rest & Hk). eauto.
  - eauto.
Qed.

Lemma greedy_all {R : Type} (ok : ascii → bool) (s : string)
    (k : string → string → option R) (r : R) :
  s ≠ EmptyString → string_forall ok s = true →
  k s EmptyString = Some r → Re.greedy ok s k = Some r.
Proof.
  revert k. induction s as [|c s IH]; intros k Hne Hall Hk; [done|].
  simpl in *. apply andb_prop in Hall as [Hc Hall]. rewrite Hc.
  destruct s as [|c' s'].
  - simpl. done.
  - rewrite (IH (λ taken rest, k (String c taken) rest)); done.
Qed.

Lemma greedy_head_fails {R : Type} (ok : ascii → bool) (c : ascii) (s : string)
    (k : string → string → option R) :
  ok c = false → Re.greedy ok (String c s) k = None.
Proof. intros Hc. simpl. by rewrite Hc. Qed.

Lemma run_groups (p : list Re.item) : ∀ s gs gs',
  Re.run p s gs = Some gs' → length gs' = length gs + groups_of p.
Proof.
  induction p as [|[word| |] p IH]; intros s gs gs'; simpl.
  - case_match; [|done]. intros [= <-]. lia.
  - destruct (Re.lit word s); [|done]. apply IH.
  - intros (taken & rest & Hk)%greedy_Some. by apply IH in Hk.
  - intros (taken & rest & Hk)%greedy_Some. apply IH in Hk.
    rewrite length_app in Hk. simpl in Hk. lia.
Qed.

Lemma first_match_arity (patterns : list (command * list Re.item)) query cmd groups :
  Forall (λ cp, groups_of cp.2 = arity cp.1) patterns →
  first_match patterns query = Some (cmd, groups) → length groups = arity cmd.
Proof.
  induction 1 as [|[c p] patterns Hcp _ IH]; simpl; [done|].
  destruct (Re.re_match p query) as [gs|] eqn:Hm; [|done].
  intros [= <- <-]. apply run_groups in Hm. simpl in *. lia.
Qed.

Lemma command_patterns_arity :
  Forall (λ cp, groups_of cp.2 = arity cp.1) command_patterns.
Proof. repeat constructor. Qed.

Ltac answer :=
  eexists; split; [reflexivity | simpl; first [done | by (intros _; split)]].

Section Handlers.
Variable save_error : string → option string.
Variable h : heap.
Variable kg : KnowledgeGraph.
Hypothesis Hreach : reachable h kg.

Lemma _handle_find_total name :
  ∃ resp, _handle_find h kg name = Ok resp
          ∧ (success resp = false → data resp = None ∧ message resp ≠ EmptyString).
Proof. unfold _handle_find. repeat case_match; answer. Qed.

Lemma _handle_path_total a b :
  ∃ resp, _handle_path h kg a b = Ok resp
          ∧ (success resp = false → data resp = None ∧ message resp ≠ EmptyString).
Proof.
  unfold _handle_path.
  destruct (get_entity kg a) as [ra|]; [|answer].
  destruct (get_entity kg b) as [rb|]; [|answer].
  destruct (get_path_spec (graph kg) (si_graph _ _ (reachable_inv _ _ Hreach)) kg
              (heap_text h ra) (heap_text h rb) eq_refl) as (steps & -> & _).
  simpl. destruct steps; answer.
Qed.

Lemma _handle_related_total name :
  ∃ resp, _handle_related h kg name = Ok resp
          ∧ (success resp = false → data resp = None ∧ message resp ≠ EmptyString).
Proof. unfold _handle_related. case_match; answer. Qed.

Lemma call_handler_total cmd groups :
  length groups = arity cmd →
  ∃ resp, call_handler save_error h kg cmd groups = Ok resp
          ∧ (success resp = false → data resp = None ∧ message resp ≠ EmptyString).
Proof.
  intros Hlen. destruct cmd; simpl in Hlen;
    repeat (destruct groups as [|? groups]; simpl in Hlen; try lia); simpl.
  - apply _handle_find_total.
  - apply _handle_path_total.
  - apply _handle_related_total.
  - unfold _handle_count. answer.
  - unfold _handle_export. case_match; answer.
  - unfold _handle_help. answer.
Qed.

Lemma execute_query_total query :
  ∃ resp, execute_query save_error h kg query = Ok resp
          ∧ (success resp = false → data resp = None ∧ message resp ≠ EmptyString).
Proof.
  unfold execute_query.
  destruct (first_match command_patterns (Py.strip query)) as [[cmd groups]|] eqn:Hm.
  - apply call_handler_total.
    eapply first_match_arity; [apply command_patterns_arity | done].
  - case_decide; [answer | apply _handle_find_total].
Qed.
End Handlers.

Lemma find_ci_None name (items : list (string * ref)) :
  find_ci name items = None ↔ ∀ k, k ∈ dict_keys items → Py.lower k ≠ Py.lower name.
Proof.
  unfold dict_keys. induction items as [|[k r] items IH]; simpl.
  - split; [|done]. intros _ k Hk. by apply elem_of_nil in Hk.
  - case_decide as Hk.
    + split; [done|]. intros Hall. destruct (Hall k); [apply list_elem_of_here | done].
    + rewrite IH. split.
      * intros Hall k' [->|Hk']%elem_of_cons; auto.
      * intros Hall k' Hk'. apply Hall. by apply list_elem_of_further.
Qed.

Lemma find_ci_Some name (items : list (string * ref)) k :
  k ∈ dict_keys items → Py.lower k = Py.lower name → is_Some (find_ci name items).
Proof.
  intros Hk Hl. destruct (find_ci name items) eqn:E; [eauto|].
  by destruct (proj1 (find_ci_None name items) E k Hk).
Qed.

(** C8. [execute_query] returns for every input string, and what it returns
    is a response: a record of a boolean [success], a string [message] and an
    optional [data].  A response with [success = false] carries no data and a
    message that is not empty.  The three not-found cases give
    [success = false] and the message that names what is missing: a [find]
    whose name equals no key, not even up to letter case; a [related] whose
    name is no key; a [path] whose source is no key, whose target is no key,
    or between whose ends the graph has no route. *)
Theorem execute_query_contract (save_error : string → option string)
    (h : heap) (kg : KnowledgeGraph) (query : string) :
  reachable h kg →
  ∃ resp : Response,
    execute_query save_error h kg query = Ok resp
    ∧ (success resp = false → data resp = None ∧ message resp ≠ EmptyString)
    ∧ (∀ name,
         first_match command_patterns (Py.strip query) = Some (cmd_find, [name]) →
         (∀ k, k ∈ dict_keys (entities kg) → Py.lower k ≠ Py.lower name) →
         resp = mkResponse false ("Entity '" +:+ name +:+ "' not found.") None)
    ∧ (∀ name,
         first_match command_patterns (Py.strip query) = Some (cmd_related, [name]) →
         get_entity kg name = None →
         resp = mkResponse false ("Entity '" +:+ name +:+ "' not found.") None)
    ∧ (∀ a b,
         first_match command_patterns (Py.strip query) = Some (cmd_path, [a; b]) →
         (get_entity kg a = None →
          resp = mkResponse false ("Source entity '" +:+ a +:+ "' not found.") None)
         ∧ (is_Some (get_entity kg a) → get_entity kg b = None →
            resp = mkResponse false ("Target entity '" +:+ b +:+ "' not found.") None)
         ∧ (is_Some (get_entity kg a) → is_Some (get_entity kg b) →
            (a = b ∨ ∀ l, ¬ route (graph kg) a l b) →
            resp = mkResponse false
                     ("No path found from '" +:+ a +:+ "' to '" +:+ b +:+ "'.") None)).
Proof.
  intros Hreach.
  destruct (execute_query_total save_error h kg Hreach query) as (resp & Hq & Hfail).
  exists resp. split; [done|]. split; [done|].
  unfold execute_query in Hq. split_and!.
  - intros name Hm Hnone. rewrite Hm in Hq. simpl in Hq.
    unfold _handle_find in Hq.
    assert (Hk : get_entity kg name = None).
    { apply dict_get_None. intros Hin. by apply (Hnone name). }
    rewrite Hk, (proj2 (find_ci_None name (entities kg)) Hnone) in Hq.
    by injection Hq as <-.
  - intros name Hm Hnone. rewrite Hm in Hq. simpl in Hq.
    unfold _handle_related in Hq. rewrite Hnone in Hq. by injection Hq as <-.
  - intros a b Hm. rewrite Hm in Hq. simpl in Hq. unfold _handle_path in Hq.
    split_and!.
    + intros Ha. rewrite Ha in Hq. by injection Hq as <-.
    + intros [ra Ha] Hb. rewrite Ha, Hb in Hq. by injection Hq as <-.
    + intros [ra Ha] [rb Hb] Hno. rewrite Ha, Hb in Hq.
      pose proof (reachable_inv h kg Hreach) as Hinv.
      destruct (si_text h kg Hinv a ra) as [_ Hta]; [by apply dict_get_Some_elem|].
      destruct (si_text h kg Hinv b rb) as [_ Htb]; [by apply dict_get_Some_elem|].
      rewrite Hta, Htb in Hq.
      assert (Hpath : get_path kg a b = Ok []).
      { apply (get_path_nil h kg a b Hreach). tauto. }
      rewrite Hpath in Hq. by injection Hq as <-.
Qed.

Lemma execute_query_contract_witness :
  execute_query (λ _, None) chain_heap chain_kg "  Find  nobody "
  = Ok (mkResponse false "Entity 'nobody' not found." None)
  ∧ execute_query (λ _, None) chain_heap chain_kg "related b"
    = Ok (mkResponse false "Entity 'b' not found." None)
  ∧ execute_query (λ _, None) chain_heap chain_kg "path from D to A"
    = Ok (mkResponse false "No path found from 'D' to 'A'." None).
Proof.
  split_and!.
  - destruct (execute_query_contract (λ _, None) chain_heap chain_kg "  Find  nobody "
                chain_reachable) as (resp & -> & _ & Hfind & _).
    f_equal. apply (Hfind "nobody"); [reflexivity|].
    intros k Hk. change (k ∈ ["A"; "B"; "C"; "D"]) in Hk. rewrite !elem_of_cons in Hk.
    destruct Hk as [->|[->|[->|[->|Hk]]]]; [discriminate.. |].
    by apply elem_of_nil in Hk.
  - destruct (execute_query_contract (λ _, None) chain_heap chain_kg "related b"
                chain_reachable) as (resp & -> & _ & _ & Hrel & _).
    f_equal. apply (Hrel "b"); reflexivity.
  - destruct (execute_query_contract (λ _, None) chain_heap chain_kg "path from D to A"
                chain_reachable) as (resp & -> & _ & _ & _ & Hpath).
    f_equal. destruct (Hpath "D" "A") as (_ & _ & Hno); [reflexivity|].
    apply Hno; [by eexists | by eexists |]. right.
    intros [|v l]; simpl; [discriminate|].
    intros [[x Hx] _]. vm_compute in Hx. discriminate.
Defined.
(** * Names after a command word *)

Lemma lstrip_length s : String.length (Py.lstrip s) ≤ String.length s.
Proof.
  induction s as [|c s IH]; simpl; [done|]. destruct (Py.isspace c); simpl; lia.
Qed.

Lemma rstrip_length s : String.length (Py.rstrip s) ≤ String.length s.
Proof.
  induction s as [|c s IH]; simpl; [done|].
  destruct (Py.rstrip s); [destruct (Py.isspace c)|]; simpl in *; lia.
Qed.

Lemma lstrip_head c s : Py.lstrip (String c s) = String c s → Py.isspace c = false.
Proof.
  simpl. destruct (Py.isspace c); [|done]. intros Heq.
  pose proof (lstrip_length s) as Hl. rewrite Heq in Hl. simpl in Hl. lia.
Qed.

Lemma strip_fixed s :
  Py.strip s = s → Py.lstrip s = s ∧ Py.rstrip s = s.
Proof.
  unfold Py.strip. intros Heq.
  assert (Hl : Py.lstrip s = s).
  { destruct s as [|c s]; [done|]. simpl in *.
    destruct (Py.isspace c); [|done].
    pose proof (rstrip_length (Py.lstrip s)) as H1.
    pose proof (lstrip_length s) as H2. rewrite Heq in H1. simpl in H1. lia. }
  split; [done|]. by rewrite Hl in Heq.
Qed.

Lemma append_cons c p s : String c p +:+ s = String c (p +:+ s).
Proof. reflexivity. Qed.

Lemma rstrip_app p s :
  Py.rstrip s ≠ EmptyString → Py.rstrip (p +:+ s) = p +:+ Py.rstrip s.
Proof.
  intros Hne. induction p as [|c p IH]; [reflexivity|].
  rewrite !append_cons. simpl. rewrite IH.
  destruct (p +:+ Py.rstrip s) eqn:E; [|done].
  destruct p; [done | discriminate].
Qed.

Lemma plain_name_head s :
  plain_name s → ∃ c s', s = String c s' ∧ Py.isspace c = false.
Proof.
  intros (Hne & Hs & _). destruct (strip_fixed s Hs) as [Hl _].
  destruct s as [|c s']; [done|].
  exists c, s'. split; [done|]. by apply (lstrip_head c s').
Qed.

Lemma strip_command (word s : string) c w :
  word = String c w → Py.isspace c = false → plain_name s →
  Py.strip (word +:+ " " +:+ s) = word +:+ " " +:+ s.
Proof.
  intros -> Hc (Hne & Hs & _). destruct (strip_fixed s Hs) as [_ Hr]. unfold Py.strip.
  assert (Hl : Py.lstrip (String c w +:+ " " +:+ s) = String c w +:+ " " +:+ s).
  { rewrite append_cons. simpl. by rewrite Hc. }
  rewrite Hl. rewrite rstrip_app.
  - rewrite rstrip_app by (by rewrite Hr). by rewrite Hr.
  - rewrite rstrip_app by (by rewrite Hr). rewrite Hr. done.
Qed.

Lemma greedy_cons {R : Type} (ok : ascii → bool) c s (k : string → string → option R) :
  Re.greedy ok (String c s) k
  = if ok c then
      match Re.greedy ok s (λ taken rest, k (String c taken) rest) with
      | Some r => Some r
      | None => k (String c EmptyString) s
      end
    else None.
Proof. reflexivity. Qed.

Lemma match_word_name (word s : string) :
  plain_name s →
  Re.lit word (word +:+ " " +:+ s) = Some (" " +:+ s) →
  Re.re_match [Re.Lit word; Re.Spaces; Re.Group] (word +:+ " " +:+ s) = Some [s].
Proof.
  intros Hplain Hlit. destruct (plain_name_head s Hplain) as (c & s' & -> & Hc).
  destruct Hplain as (Hne & _ & Hdot).
  unfold Re.re_match. cbn [Re.run]. rewrite Hlit.
  change (" " +:+ String c s') with (String " " (String c s')).
  rewrite greedy_cons. change (Py.isspace " ") with true. cbv iota.
  rewrite greedy_head_fails by done.
  apply greedy_all; [done | done |]. reflexivity.
Qed.

Lemma first_match_related s :
  plain_name s →
  first_match command_patterns ("related " +:+ s) = Some (cmd_related, [s]).
Proof.
  intros Hplain. unfold command_patterns. cbn [first_match].
  assert (H1 : Re.re_match [Re.Lit "find"; Re.Spaces; Re.Group] ("related " +:+ s) = None)
    by reflexivity.
  assert (H2 : Re.re_match [Re.Lit "path"; Re.Spaces; Re.Lit "from"; Re.Spaces; Re.Group;
                            Re.Spaces; Re.Lit "to"; Re.Spaces; Re.Group]
                 ("related " +:+ s) = None) by reflexivity.
  rewrite H1, H2.
  change ("related " +:+ s) with ("related" +:+ " " +:+ s).
  rewrite match_word_name; [done | done | reflexivity].
Qed.

Lemma first_match_find s :
  plain_name s →
  first_match command_patterns ("find " +:+ s) = Some (cmd_find, [s]).
Proof.
  intros Hplain. unfold command_patterns. cbn [first_match].
  change ("find " +:+ s) with ("find" +:+ " " +:+ s).
  rewrite match_word_name; [done | done | reflexivity].
Qed.

Lemma find_ci_elem name (items : list (string * ref)) e :
  find_ci name items = Some e →
  ∃ k, (k, e) ∈ items ∧ Py.lower k = Py.lower name.
Proof.
  induction items as [|[k r] items IH]; simpl; [done|].
  case_decide as Hk.
  - intros [= ->]. exists k. split; [apply list_elem_of_here | done].
  - intros (k' & Hin & Hl)%IH. exists k'. split; [by apply list_elem_of_further | done].
Qed.

(** C10. Let [t] be the key of a stored entity and [s] a name that equals
    [t] up to letter case and is itself no key of the store ([s] is a name as
    typed: not empty, white space at neither end, no line feed).  Then
    ["related " + s] is answered with [success = false] and the message that
    the entity is not found, because [_handle_related] looks the name up as it
    is, while ["find " + s] succeeds and finds a stored entity whose key
    equals [s] up to letter case. *)
Theorem related_is_case_sensitive (save_error : string → option string)
    (h : heap) (kg : KnowledgeGraph) (t s : string) :
  reachable h kg →
  is_Some (get_entity kg t) → Py.lower s = Py.lower t →
  get_entity kg s = None → plain_name s →
  execute_query save_error h kg ("related " +:+ s)
  = Ok (mkResponse false ("Entity '" +:+ s +:+ "' not found.") None)
  ∧ ∃ resp k,
      execute_query save_error h kg ("find " +:+ s) = Ok resp
      ∧ success resp = true
      ∧ message resp = "Found entity: " +:+ k
      ∧ k ∈ dict_keys (entities kg) ∧ Py.lower k = Py.lower s.
Proof.
  intros Hinv%reachable_inv Ht Hlow Hs Hplain. split.
  - unfold execute_query.
    change ("related " +:+ s) with ("related" +:+ " " +:+ s).
    rewrite (strip_command "related" s "r" "elated" eq_refl eq_refl Hplain).
    change ("related" +:+ " " +:+ s) with ("related " +:+ s).
    rewrite (first_match_related s Hplain). simpl.
    unfold _handle_related. by rewrite Hs.
  - unfold execute_query.
    change ("find " +:+ s) with ("find" +:+ " " +:+ s).
    rewrite (strip_command "find" s "f" "ind" eq_refl eq_refl Hplain).
    change ("find" +:+ " " +:+ s) with ("find " +:+ s).
    rewrite (first_match_find s Hplain). simpl.
    unfold _handle_find. rewrite Hs.
    destruct (find_ci_Some s (entities kg) t) as [e He];
      [by apply dict_get_is_Some | done |].
    rewrite He. destruct (find_ci_elem s (entities kg) e He) as (k & Hin & Hk).
    destruct (si_text h kg Hinv k e Hin) as [_ Htxt].
    eexists _, k. split; [reflexivity|]. simpl. rewrite Htxt.
    split_and!; [done | done | | done].
    apply list_elem_of_fmap. by exists (k, e).
Qed.

Lemma case_reachable : reachable case_heap case_kg.
Proof.
  unfold case_kg. cbn [foldl].
  repeat (apply reachable_add_entity_same; [|simpl; lia|reflexivity]).
  apply reachable_init.
Qed.

Lemma related_is_case_sensitive_witness :
  execute_query (λ _, None) case_heap case_kg "related apple"
  = Ok (mkResponse false "Entity 'apple' not found." None)
  ∧ ∃ resp, execute_query (λ _, None) case_heap case_kg "find apple" = Ok resp
            ∧ message resp = "Found entity: Apple".
Proof.
  destruct (related_is_case_sensitive (λ _, None) case_heap case_kg "Apple" "apple"
              case_reachable)
    as (Hrel & resp & k & Hfind & _ & Hmsg & Hk & Hlow).
  - by eexists.
  - reflexivity.
  - reflexivity.
  - split_and!; [discriminate | reflexivity | reflexivity].
  - split; [exact Hrel|]. exists resp. split; [exact Hfind|].
    rewrite Hmsg. change (k ∈ ["google"; "Google"; "Apple"]) in Hk.
    rewrite !elem_of_cons in Hk.
    destruct Hk as [->|[->|[->|Hk]]]; [discriminate | discriminate | done |].
    by apply elem_of_nil in Hk.
Defined.

(** The statement of C10 fails when the other spelling is a key too: with
    entities "google" and "Google" stored, ["related Google"] succeeds. *)
Lemma related_is_case_sensitive_counterexample :
  is_Some (get_entity case_kg "google")
  ∧ Py.lower "Google" = Py.lower "google" ∧ "Google" ≠ "google"
  ∧ execute_query (λ _, None) case_heap case_kg "related Google"
    = Ok (mkResponse true "Found related entities for 'Google'"
            (Some (RelatedData [] []))).
Proof. split_and!; [by eexists | reflexivity | discriminate | reflexivity]. Qed.
(** * The cache *)

Section CacheFacts.
Context {V : Type}.
Implicit Types (f g : File V) (dir l : list (File V)) (m : list (string * V)).

Lemma insert_by_mtime_perm f l : insert_by_mtime f l ≡ₚ f :: l.
Proof.
  induction l as [|g l IH]; simpl; [done|].
  case_match; [done|]. rewrite IH. apply Permutation_swap.
Qed.

Lemma insert_by_mtime_sorted f l :
  StronglySorted newer_first l → StronglySorted newer_first (insert_by_mtime f l).
Proof.
  induction 1 as [|g l Hs IH Hall]; simpl.
  - repeat constructor.
  - destruct (f_mtime g <? f_mtime f)%Z eqn:Hlt.
    + apply Z.ltb_lt in Hlt. constructor; [by constructor|].
      constructor; [unfold newer_first; lia|].
      eapply Forall_impl; [done|]. unfold newer_first. intros; lia.
    + apply Z.ltb_ge in Hlt. constructor; [done|].
      rewrite insert_by_mtime_perm. by constructor.
Qed.

Lemma sort_by_mtime_acc l : ∀ acc,
  StronglySorted newer_first acc →
  StronglySorted newer_first (foldl (λ acc f, insert_by_mtime f acc) acc l)
  ∧ foldl (λ acc f, insert_by_mtime f acc) acc l ≡ₚ acc ++ l.
Proof.
  induction l as [|f l IH]; intros acc Hacc; simpl.
  - by rewrite app_nil_r.
  - destruct (IH (insert_by_mtime f acc)) as [Hs Hp];
      [by apply insert_by_mtime_sorted|].
    split; [done|]. rewrite Hp, insert_by_mtime_perm.
    simpl. apply Permutation_middle.
Qed.

Lemma sort_by_mtime_sorted l : StronglySorted newer_first (sort_by_mtime l).
Proof. apply sort_by_mtime_acc. constructor. Qed.

Lemma sort_by_mtime_perm l : sort_by_mtime l ≡ₚ l.
Proof. apply (sort_by_mtime_acc l []). constructor. Qed.

Lemma slice_to_nonneg {A} (n : Z) (l : list A) :
  (0 ≤ n)%Z → slice_to n l = take (Z.to_nat n) l.
Proof. intros Hn. unfold slice_to. by rewrite (proj2 (Z.leb_le 0 n)). Qed.

Lemma load_loop l : ∀ m,
  NoDup (f_stem <$> l) →
  (∀ f, f ∈ l → f_stem f ∉ dict_keys m) →
  foldl (λ m f, match f_value f with
                | Some value => dict_set (f_stem f) value m
                | None => m
                end) m l
  = m ++ omap entry_of_file l.
Proof.
  induction l as [|f l IH]; intros m Hnd Hfresh; simpl.
  - by rewrite app_nil_r.
  - rewrite fmap_cons in Hnd. apply NoDup_cons in Hnd as [Hf Hnd].
    unfold entry_of_file at 1. destruct (f_value f) as [value|] eqn:Hv; simpl.
    + rewrite dict_set_absent by (apply Hfresh, list_elem_of_here).
      rewrite IH; [by rewrite <-app_assoc | done |].
      intros g Hg. unfold dict_keys. rewrite fmap_app, elem_of_app. simpl.
      rewrite list_elem_of_singleton. intros [Hin|Heq].
      * eapply Hfresh; [|done]. by apply list_elem_of_further.
      * apply Hf. rewrite <-Heq. by apply list_elem_of_fmap_2.
    + apply IH; [done|]. intros g Hg. apply Hfresh. by apply list_elem_of_further.
Qed.
End CacheFacts.

Lemma length_omap_le {A B} (f : A → option B) (l : list A) :
  length (omap f l) ≤ length l.
Proof.
  induction l as [|x l IH]; [done|]. csimpl. destruct (f x); simpl; lia.
Qed.


(** C2. Constructing a cache over a directory of files with different names
    and a capacity that is not negative selects the files of the directory
    that were modified most recently, as many as the capacity allows, and
    loads those of them that can be read into memory, most recent first, each
    under the stem of its file name with the value the file holds; the
    directory and the capacity are as given. *)
Theorem Cache_init_loads {V : Type} (dir : list (File V)) (capacity : Z) :
  NoDup (f_stem <$> dir) → (0 ≤ capacity)%Z →
  ∃ selected others : list (File V),
    dir ≡ₚ selected ++ others
    ∧ length selected = Z.to_nat capacity `min` length dir
    ∧ StronglySorted newer_first selected
    ∧ (∀ f g, f ∈ selected → g ∈ others → newer_first f g)
    ∧ cache (Cache_init dir capacity) = omap entry_of_file selected
    ∧ length (cache (Cache_init dir capacity)) ≤ Z.to_nat capacity
    ∧ cache_dir (Cache_init dir capacity) = dir
    ∧ max_size (Cache_init dir capacity) = capacity.
Proof.
  intros Hnd Hmax.
  pose proof (sort_by_mtime_sorted dir) as Hsorted.
  pose proof (sort_by_mtime_perm dir) as Hperm.
  rewrite <-(take_drop (Z.to_nat capacity) (sort_by_mtime dir)) in Hsorted, Hperm.
  exists (take (Z.to_nat capacity) (sort_by_mtime dir)),
         (drop (Z.to_nat capacity) (sort_by_mtime dir)).
  assert (Hnd' : NoDup (f_stem <$> take (Z.to_nat capacity) (sort_by_mtime dir))).
  { rewrite fmap_take. eapply sublist_NoDup; [|apply sublist_take].
    by rewrite (sort_by_mtime_perm dir). }
  assert (Hcache : cache (Cache_init dir capacity)
            = omap entry_of_file (take (Z.to_nat capacity) (sort_by_mtime dir))).
  { unfold Cache_init, _load_cache. simpl. rewrite slice_to_nonneg by done.
    rewrite load_loop; [done | done |]. intros f _. apply not_elem_of_nil. }
  split_and!.
  - by symmetry.
  - rewrite length_take. f_equal. by rewrite (sort_by_mtime_perm dir).
  - by eapply StronglySorted_app_1_l.
  - intros f g Hf Hg. by eapply StronglySorted_app_1_elem_of.
  - done.
  - rewrite Hcache. etransitivity; [apply length_omap_le|].
    rewrite length_take. lia.
  - done.
  - done.
Qed.

Lemma Cache_init_loads_witness :
  ∃ selected others : list (File string),
    sample_dir ≡ₚ selected ++ others
    ∧ length selected = 2
    ∧ cache (Cache_init sample_dir 2) = omap entry_of_file selected.
Proof.
  destruct (Cache_init_loads sample_dir 2) as (sel & oth & Hp & Hl & _ & _ & Hc & _).
  - compute_done.
  - lia.
  - exists sel, oth. split_and!; [exact Hp | exact Hl | exact Hc].
Defined.

(** The statement of C2 fails on a directory written by two [set] calls of
    an earlier run: the entries are loaded under the stems of the file names,
    so the fingerprint is no key of the memory, and they are loaded most
    recent first, so the next [set] evicts the entry modified last. *)
Lemma Cache_init_loads_counterexample :
  ∃ earlier later : Cache string,
    set_all sample_hash 1 (Cache_init [] 2)
      [("entities_1", "v1"); ("relations__2", "v2")] = Ok earlier
    ∧ f_stem <$> cache_dir earlier = ["0"; "2"]
    ∧ dict_keys (cache (Cache_init (cache_dir earlier) 2)) = ["2"; "0"]
    ∧ dict_get "relations__2" (cache (Cache_init (cache_dir earlier) 2)) = None
    ∧ set sample_hash 3 (Cache_init (cache_dir earlier) 2) "entities_30" "v3" = Ok later
    ∧ dict_keys (cache later) = ["0"; "entities_30"].
Proof. vm_compute. eexists _, _. split_and!; reflexivity. Qed.
(** * Eviction *)

Section FileFacts.
Context {V : Type}.
Implicit Types (dir : list (File V)).

Lemma file_exists_true stem dir :
  file_exists stem dir = true ↔ stem ∈ f_stem <$> dir.
Proof. unfold file_exists. apply bool_decide_eq_true. Qed.

Lemma file_exists_unlink stem s dir :
  file_exists stem (unlink s dir) = true ↔ stem ≠ s ∧ file_exists stem dir = true.
Proof.
  rewrite !file_exists_true. unfold unlink. rewrite !list_elem_of_fmap.
  split.
  - intros (f & -> & [Hf Hin]%list_elem_of_filter). split; [done|]. eauto.
  - intros (Hne & f & -> & Hin). exists f. split; [done|].
    apply list_elem_of_filter. done.
Qed.

Lemma file_exists_write now stem s (value : V) dir :
  file_exists stem (write_file now s value dir) = true
  ↔ stem = s ∨ file_exists stem dir = true.
Proof.
  unfold write_file. destruct (file_exists s dir) eqn:Hs.
  - rewrite !file_exists_true. rewrite <-list_fmap_compose.
    rewrite !list_elem_of_fmap. split.
    + intros (f & -> & Hin). simpl. case_decide; simpl; [by left|].
      right. eauto.
    + intros [->|(f & -> & Hin)].
      * apply file_exists_true, list_elem_of_fmap in Hs as (f & -> & Hin).
        exists f. simpl. rewrite decide_True by done. done.
      * exists f. split; [|done]. simpl. case_decide; simpl; congruence.
  - rewrite !file_exists_true, fmap_app, elem_of_app. simpl.
    rewrite list_elem_of_singleton. tauto.
Qed.

End FileFacts.

Section EvictFacts.
Context {V : Type}.
Variable hash : string → Z.
Implicit Types (m : list (string * V)) (dir : list (File V)) (c : Cache V).

Lemma prune_spec (capacity : Z) m : ∀ dir,
  (0 ≤ capacity)%Z →
  prune hash capacity m dir
  = (drop (length m - Z.to_nat capacity) m,
     unlink_all hash (dict_keys (take (length m - Z.to_nat capacity) m)) dir,
     None).
Proof.
  induction m as [|[key value] m IH]; intros dir Hcap; cbn [prune].
  - destruct (Z.gtb_spec 0 capacity); [lia | done].
  - destruct (Z.gtb_spec (Z.of_nat (length ((key, value) :: m))) capacity) as [Hgt|Hle];
      cbn [length] in *.
    + rewrite IH by done.
      replace (S (length m) - Z.to_nat capacity)
        with (S (length m - Z.to_nat capacity)) by lia.
      done.
    + replace (S (length m) - Z.to_nat capacity) with 0 by lia. done.
Qed.

Lemma set_fresh now c key (value : V) :
  (0 ≤ max_size c)%Z → key ∉ dict_keys (cache c) →
  set hash now c key value
  = Ok (mkCache
          (write_file now (_get_cache_file hash key) value
             (unlink_all hash
                (dict_keys (take (length (cache c) + 1 - Z.to_nat (max_size c))
                                 (cache c ++ [(key, value)])))
                (cache_dir c)))
          (max_size c)
          (drop (length (cache c) + 1 - Z.to_nat (max_size c))
                (cache c ++ [(key, value)]))).
Proof.
  intros Hcap Hkey. unfold set, _prune_cache. simpl.
  rewrite dict_set_absent by done. rewrite prune_spec by done.
  rewrite length_app. simpl. done.
Qed.

Lemma get_hit c key (value : V) :
  NoDup (dict_keys (cache c)) → dict_get key (cache c) = Some value →
  get hash c key
  = (Some value,
     mkCache (cache_dir c) (max_size c) (dict_remove key (cache c) ++ [(key, value)])).
Proof.
  intros Hnd Hget. unfold get. rewrite Hget. do 2 f_equal.
  apply dict_set_absent.
  clear Hget. unfold dict_keys in *. induction (cache c) as [|[k v] m IH]; simpl.
  - apply not_elem_of_nil.
  - rewrite fmap_cons in Hnd. apply NoDup_cons in Hnd as [Hk Hnd].
    case_decide; subst; [done|]. rewrite fmap_cons, not_elem_of_cons.
    split; [done | auto].
Qed.
End EvictFacts.

Section EvictSeq.
Context {V : Type}.
Variable hash : string → Z.
Implicit Types (m items : list (string * V)) (c : Cache V).

Lemma set_all_fill items : ∀ c now,
  (0 ≤ max_size c)%Z →
  length (cache c) ≤ Z.to_nat (max_size c) →
  NoDup (dict_keys (cache c) ++ dict_keys items) →
  ∃ c', set_all hash now c items = Ok c'
        ∧ cache c' = drop (length (cache c) + length items - Z.to_nat (max_size c))
                          (cache c ++ items)
        ∧ max_size c' = max_size c.
Proof.
  induction items as [|[key value] items IH]; intros c now Hcap Hlen Hnd.
  - exists c. simpl. rewrite app_nil_r, Nat.add_0_r.
    replace (length (cache c) - Z.to_nat (max_size c)) with 0 by lia. done.
  - assert (Hkey : key ∉ dict_keys (cache c)).
    { apply NoDup_app in Hnd as (_ & Hdisj & _). intros Hin.
      apply (Hdisj key Hin). unfold dict_keys. rewrite fmap_cons. apply list_elem_of_here. }
    cbn [set_all]. rewrite (set_fresh hash now c key value Hcap Hkey).
    set (d1 := length (cache c) + 1 - Z.to_nat (max_size c)).
    set (c1 := mkCache _ _ _).
    destruct (IH c1 (now + 1)%Z) as (c' & Hset & Hcache & Hmax).
    { done. }
    { unfold c1. simpl. rewrite length_drop, length_app. simpl. lia. }
    { unfold c1. simpl.
      eapply sublist_NoDup;
        [|apply sublist_app; [apply fmap_sublist, sublist_drop | reflexivity]].
      unfold dict_keys in *. rewrite fmap_app, <-app_assoc. simpl.
      by rewrite fmap_cons in Hnd. }
    exists c'. split; [exact Hset|]. split; [|by rewrite Hmax].
    rewrite Hcache. unfold c1. simpl.
    rewrite length_drop, length_app. simpl.
    rewrite <-(drop_app_le (cache c ++ [(key, value)]) items d1)
      by (rewrite length_app; simpl; lia).
    rewrite drop_drop, <-app_assoc. simpl. f_equal. lia.
Qed.

Lemma set_all_snoc items kv : ∀ c now,
  set_all hash now c (items ++ [kv])
  = c' ← set_all hash now c items;
    set hash (now + Z.of_nat (length items))%Z c' kv.1 kv.2.
Proof.
  destruct kv as [k v].
  induction items as [|[key value] items IH]; intros c now; simpl.
  - rewrite Z.add_0_r. by destruct (set hash now c k v).
  - destruct (set hash now c key value) as [c1|e]; simpl; [|done].
    rewrite IH. destruct (set_all hash (now + 1) c1 items); simpl; [|done].
    f_equal. lia.
Qed.
End EvictSeq.

(** C7. For a cache whose capacity is not negative and whose memory holds
    at most that many entries under different keys:
    (1) after [set] has stored capacity + 1 different fingerprints that were
    not in memory, the memory holds the last capacity of them and not the
    first, and a mirror file for the first is on disk exactly when the last
    fingerprint has the same file name;
    (2) [_prune_cache] leaves the newest capacity entries of the memory and
    deletes the mirror files of the ones before them;
    (3) [get] of a key in memory returns its value and makes the entry the
    newest;
    (4) [set] of a key that is not in memory adds the entry as the newest
    and then prunes. *)
Theorem set_evicts_oldest {V : Type} (hash : string → Z) (c : Cache V) :
  (0 ≤ max_size c)%Z →
  NoDup (dict_keys (cache c)) →
  length (cache c) ≤ Z.to_nat (max_size c) →
  (∀ now items,
     length items = S (Z.to_nat (max_size c)) →
     NoDup (dict_keys items) →
     (∀ key, key ∈ dict_keys items → key ∉ dict_keys (cache c)) →
     ∃ c', set_all hash now c items = Ok c'
           ∧ cache c' = drop 1 items
           ∧ max_size c' = max_size c
           ∧ (∀ oldest newest,
                head items = Some oldest → last items = Some newest →
                (oldest.1 ∉ dict_keys (cache c'))
                ∧ (file_exists (_get_cache_file hash oldest.1) (cache_dir c') = true
                   ↔ _get_cache_file hash oldest.1 = _get_cache_file hash newest.1)))
  ∧ (∀ (m : list (string * V)) (dir : list (File V)),
       prune hash (max_size c) m dir
       = (drop (length m - Z.to_nat (max_size c)) m,
          unlink_all hash (dict_keys (take (length m - Z.to_nat (max_size c)) m)) dir,
          None))
  ∧ (∀ key value,
       dict_get key (cache c) = Some value →
       get hash c key
       = (Some value,
          mkCache (cache_dir c) (max_size c)
                  (dict_remove key (cache c) ++ [(key, value)])))
  ∧ (∀ now key value,
       key ∉ dict_keys (cache c) →
       ∃ c', set hash now c key value = Ok c'
             ∧ cache c' = drop (length (cache c) + 1 - Z.to_nat (max_size c))
                               (cache c ++ [(key, value)])).
Proof.
  intros Hcap Hnd Hlen. split_and!.
  - intros now items Hitems Hkeys Hfresh.
    destruct (decide (items = [])) as [->|Hne]; [done|].
    destruct (exists_last Hne) as (front & [kl vl] & ->).
    rewrite length_app in Hitems. simpl in Hitems.
    unfold dict_keys in Hkeys. rewrite fmap_app in Hkeys.
    destruct (set_all_fill hash front c now Hcap Hlen) as (cf & Hcf & Hcache & Hmax).
    { apply NoDup_app. split_and!; [done| |by apply NoDup_app in Hkeys as [? _]].
      intros k Hk Hk'. apply (Hfresh k); [|done].
      unfold dict_keys. rewrite fmap_app, elem_of_app. by left. }
    replace (length (cache c) + length front - Z.to_nat (max_size c))
      with (length (cache c)) in Hcache by lia.
    rewrite drop_app_length in Hcache.
    assert (Hkl : kl ∉ dict_keys (cache cf)).
    { rewrite Hcache. apply NoDup_app in Hkeys as (_ & Hdisj & _).
      intros Hin. apply (Hdisj kl Hin). simpl. apply list_elem_of_here. }
    rewrite set_all_snoc, Hcf. simpl.
    rewrite (set_fresh hash _ cf kl vl) by (by rewrite ?Hmax).
    rewrite Hcache, Hmax.
    replace (length front + 1 - Z.to_nat (max_size c)) with 1 by lia.
    eexists. split; [reflexivity|]. simpl. split_and!; [done | done |].
    intros oldest newest Hfirst Hfinal.
    rewrite last_snoc in Hfinal. injection Hfinal as <-. simpl.
    assert (Hhead : front ++ [(kl, vl)] = oldest :: drop 1 (front ++ [(kl, vl)])).
    { destruct front; simpl in *; by simplify_eq. }
    split.
    + rewrite <-fmap_app, Hhead, fmap_cons in Hkeys.
      by apply NoDup_cons in Hkeys as [? _].
    + rewrite Hhead. simpl. unfold unlink_all. simpl.
      rewrite file_exists_write, file_exists_unlink. split; [|auto].
      intros [?|[? _]]; done.
  - intros m dir. by apply prune_spec.
  - intros key value Hget. by apply get_hit.
  - intros now key value Hkey. rewrite (set_fresh hash now c key value Hcap Hkey).
    eexists. split; [reflexivity | done].
Qed.

Lemma set_evicts_oldest_witness :
  ∃ c' : Cache string,
    set_all sample_hash 1 (Cache_init [] 2)
      [("entities_1", "v1"); ("relations__2", "v2"); ("entities_300", "v3")] = Ok c'
    ∧ cache c' = [("relations__2", "v2"); ("entities_300", "v3")]
    ∧ file_exists (_get_cache_file sample_hash "entities_1") (cache_dir c') = false.
Proof.
  destruct (set_evicts_oldest sample_hash (Cache_init (V := string) [] 2))
    as (Hfill & _); [simpl; lia | apply NoDup_nil_2 | simpl; lia |].
  destruct (Hfill 1%Z [("entities_1", "v1"); ("relations__2", "v2"); ("entities_300", "v3")])
    as (c' & Hset & Hcache & _ & Hdisk); [reflexivity | compute_done | |].
  - intros key _. apply not_elem_of_nil.
  - exists c'. split; [exact Hset|]. split; [exact Hcache|].
    destruct (Hdisk ("entities_1", "v1") ("entities_300", "v3") eq_refl eq_refl)
      as [_ Hiff].
    destruct (file_exists _ (cache_dir c')); [|done].
    destruct Hiff as [Hiff _]. specialize (Hiff eq_refl). vm_compute in Hiff.
    discriminate.
Defined.

(** The statement of C7 fails in two ways.  With capacity 0 the fingerprint
    that [set] stores is evicted at once, and its mirror file is written after
    that: it is absent from memory and present on disk.  With capacity 2,
    after [set] of a, of b, of a again and of c, the entry evicted is a, which
    was used after b: [set] of a key that is in memory leaves the entry where
    it is. *)
Lemma set_evicts_oldest_counterexample :
  (∃ c' : Cache string,
     set_all sample_hash 1 (Cache_init [] 0) [("entities_1", "v1")] = Ok c'
     ∧ cache c' = []
     ∧ file_exists (_get_cache_file sample_hash "entities_1") (cache_dir c') = true)
  ∧ (∃ c' : Cache string,
       set_all sample_hash 1 (Cache_init [] 2)
         [("a", "1"); ("bb", "2"); ("a", "3"); ("ccc", "4")] = Ok c'
       ∧ dict_keys (cache c') = ["bb"; "ccc"]).
Proof. split; vm_compute; eexists; split_and!; reflexivity. Qed.

(** * Invariants of the graph store *)

Section StoreSteps.

Lemma filter_ext_elem {A} (P Q : A → Prop) `{∀ x, Decision (P x)}
    `{∀ x, Decision (Q x)} (l : list A) :
  (∀ x, x ∈ l → P x ↔ Q x) → filter P l = filter Q l.
Proof.
  induction l as [|a l IH]; intros Hext; [done|].
  rewrite !filter_cons. rewrite IH by (intros; apply Hext; by right).
  destruct (decide (P a)) as [HP|HP], (decide (Q a)) as [HQ|HQ]; try done.
  - destruct HQ. apply Hext; [by left | done].
  - destruct HP. apply Hext; [by left | done].
Qed.

Lemma Entity_update_other (h : heap) (self other x : ref) :
  x ≠ self → Entity_update h self other !! x = h !! x.
Proof.
  intros Hne. unfold Entity_update.
  destruct (h !! self) as [s|] eqn:Hs; [|done].
  destruct (h !! other) as [o|] eqn:Ho; [|done].
  set (h1 := <[self := _]> h).
  destruct (h1 !! self) as [s1|] eqn:Hs1.
  - destruct (h1 !! other) as [o1|] eqn:Ho1.
    + rewrite list_lookup_insert_ne by done. subst h1.
      by rewrite list_lookup_insert_ne.
    + subst h1. by rewrite list_lookup_insert_ne.
  - subst h1. by rewrite list_lookup_insert_ne.
Qed.

Lemma add_entity_heap_text (h : heap) (kg : KnowledgeGraph) (r x : ref) :
  heap_text (add_entity h kg r).1 x = heap_text h x.
Proof.
  unfold add_entity. destruct (h !! r) as [e|]; [|done].
  destruct (dict_get (text e) (entities kg)); [|done].
  simpl. apply Entity_update_text.
Qed.

Lemma add_entity_relations (h : heap) (kg : KnowledgeGraph) (r : ref) :
  relations (add_entity h kg r).2 = relations kg.
Proof.
  unfold add_entity. destruct (h !! r) as [e|]; [|done].
  by destruct (dict_get (text e) (entities kg)).
Qed.

Lemma add_entity_adj (h : heap) (kg : KnowledgeGraph) (r : ref) :
  Nx.g_adj (graph (add_entity h kg r).2) = Nx.g_adj (graph kg).
Proof.
  unfold add_entity. destruct (h !! r) as [e|]; [|done].
  destruct (dict_get (text e) (entities kg)); [|done].
  simpl. apply update_node_keys.
Qed.

Lemma relations_between_ext (h h' : heap) (kg kg' : KnowledgeGraph) u v :
  relations kg' = relations kg →
  (∀ rel, rel ∈ relations kg →
     heap_text h' (source rel) = heap_text h (source rel)
     ∧ heap_text h' (target rel) = heap_text h (target rel)) →
  relations_between h' kg' u v = relations_between h kg u v.
Proof.
  intros Hrel Hext. unfold relations_between. rewrite Hrel.
  apply filter_ext_elem. intros rel Hin.
  destruct (Hext rel Hin) as [-> ->]. done.
Qed.

End StoreSteps.

Lemma edge_of_relations (h : heap) (kg : KnowledgeGraph) :
  reachable h kg → ∀ u v,
  Nx.get_edge_data (graph kg) u v = attrs_of <$> last (relations_between h kg u v).
Proof.
  induction 1 as [h|h kg e Hr IH|h kg r Hr IH Hlt|h kg rel Hr IH Hs Ht]; intros u v.
  - done.
  - rewrite IH. f_equal. f_equal. symmetry. apply relations_between_ext; [done|].
    intros rel Hin. destruct (si_rels _ _ (reachable_inv _ _ Hr) rel Hin).
    by rewrite !heap_text_app.
  - unfold Nx.get_edge_data. rewrite add_entity_adj. fold (Nx.get_edge_data (graph kg) u v).
    rewrite IH. f_equal. f_equal. symmetry. apply relations_between_ext.
    + apply add_entity_relations.
    + intros. by rewrite !add_entity_heap_text.
  - unfold relations_between, add_relation, Nx.get_edge_data, Nx.add_edge.
    cbn [relations graph Nx.g_adj].
    rewrite filter_app, filter_cons, filter_nil.
    destruct (decide ((heap_text h (source rel), heap_text h (target rel)) = (u, v)))
      as [Heq|Hne].
    + injection Heq as <- <-. rewrite (dict_get_set_eq _ (_, _)).
      rewrite decide_True by done. by rewrite last_snoc.
    + rewrite (dict_get_set_ne _ (_, _) (_, _)) by done.
      rewrite decide_False by (intros [Hu Hv]; apply Hne; congruence).
      rewrite app_nil_r. apply IH.
Qed.

(** In every state of the graph store the edge from [u] to [v] carries the
    relation type and sentence of the relation added last among those that
    join [u] to [v]; there is no such edge when none was added, and every
    relation of the list has its edge. *)
Theorem edge_is_last_relation (h : heap) (kg : KnowledgeGraph) :
  reachable h kg →
  (∀ u v, Nx.get_edge_data (graph kg) u v
          = attrs_of <$> last (relations_between h kg u v))
  ∧ (∀ rel, rel ∈ relations kg →
       is_edge (graph kg) (heap_text h (source rel)) (heap_text h (target rel))).
Proof.
  intros Hr. split; [by apply edge_of_relations|].
  intros rel Hin. unfold is_edge. rewrite (edge_of_relations h kg Hr).
  assert (Hb : rel ∈ relations_between h kg (heap_text h (source rel))
                       (heap_text h (target rel))).
  { unfold relations_between. apply list_elem_of_filter. done. }
  destruct (relations_between h kg _ _) as [|r0 l] using rev_ind.
  - by apply elem_of_nil in Hb.
  - rewrite last_snoc. by eexists.
Qed.

Lemma edge_is_last_relation_witness :
  Nx.get_edge_data (graph chain_kg) "B" "C" = Some (Nx.mkEdgeAttr "funds" "B funds C.")
  ∧ Nx.get_edge_data (graph chain_kg) "C" "B" = None.
Proof.
  destruct (edge_is_last_relation chain_heap chain_kg chain_reachable) as [He _].
  rewrite !He. split; reflexivity.
Defined.

(** Every step that [get_path] reports is a relation of the store: the one
    added last among the relations that join the step's source to its
    target, with that relation's type and sentence. *)
Theorem get_path_steps_stored (h : heap) (kg : KnowledgeGraph) (s t : string)
    (steps : list PathStep) (st : PathStep) :
  reachable h kg → get_path kg s t = Ok steps → st ∈ steps →
  ∃ rel, last (relations_between h kg (ps_source st) (ps_target st)) = Some rel
         ∧ rel ∈ relations kg
         ∧ heap_text h (source rel) = ps_source st
         ∧ heap_text h (target rel) = ps_target st
         ∧ relation_type rel = ps_relation_type st
         ∧ sentence rel = ps_sentence st.
Proof.
  intros Hr Hpath Hin.
  destruct (get_path_spec (graph kg) (si_graph _ _ (reachable_inv _ _ Hr)) kg s t eq_refl)
    as (steps' & Hpath' & Hspec).
  rewrite Hpath in Hpath'. injection Hpath' as <-.
  destruct Hspec as [(_ & _ & Hfrom & _)|[-> _]]; [|by apply elem_of_nil in Hin].
  pose proof (steps_from_edge _ _ _ _ _ Hfrom Hin) as Hedge.
  rewrite (edge_of_relations h kg Hr) in Hedge.
  destruct (last (relations_between h kg (ps_source st) (ps_target st)))
    as [rel|] eqn:Hlast; [|done].
  injection Hedge as Hty Hse. exists rel.
  assert (Hb : rel ∈ relations_between h kg (ps_source st) (ps_target st)).
  { apply last_Some in Hlast as [l' ->]. apply elem_of_app. right. by left. }
  unfold relations_between in Hb. apply list_elem_of_filter in Hb as [[Hsrc Htgt] Hrel].
  done.
Qed.

Lemma get_path_steps_stored_witness :
  ∃ rel, last (relations_between chain_heap chain_kg "B" "C") = Some rel
         ∧ relation_type rel = "funds".
Proof.
  destruct (get_path_steps_stored chain_heap chain_kg "A" "D"
              [ mkPathStep "A" "B" "owns" "A owns B."; mkPathStep "B" "C" "funds" "B funds C.";
                mkPathStep "C" "D" "hires" "C hires D." ]
              (mkPathStep "B" "C" "funds" "B funds C.") chain_reachable)
    as (rel & Hlast & _ & _ & _ & Hty & _).
  - reflexivity.
  - right. left.
  - exists rel. split; [exact Hlast | exact Hty].
Defined.

(** * What the store keeps about entities *)

Lemma Entity_update_self_full (h : heap) (self other : ref) (s o : Entity) :
  h !! self = Some s → h !! other = Some o →
  Entity_update h self other !! self
  = Some (mkEntity (text s) (normalized_text s) (entity_type s) (start s) (end_ s)
            (occurrences s + occurrences o)
            (mentions s ∪ (if decide (self = other) then mentions s else mentions o))).
Proof.
  intros Hs Ho. unfold Entity_update. rewrite Hs, Ho.
  assert (Hlt : self < length h) by (by eapply lookup_lt_Some).
  rewrite list_lookup_insert_eq by done.
  destruct (decide (self = other)) as [<-|Hne].
  - rewrite list_lookup_insert_eq by done.
    rewrite list_lookup_insert_eq by (by rewrite length_insert). done.
  - rewrite list_lookup_insert_ne, Ho by done.
    rewrite list_lookup_insert_eq by (by rewrite length_insert). done.
Qed.

Lemma touch_node_get n ns k :
  k ∈ dict_keys ns → dict_get k (Nx.touch_node n ns) = dict_get k ns.
Proof.
  intros Hk. unfold Nx.touch_node. destruct (dict_mem n ns) eqn:Hm; [done|].
  destruct (dict_get k ns) as [a|] eqn:Hg.
  - clear Hk Hm. induction ns as [|[k' a'] ns IH]; [done|]. simpl in *.
    case_decide; [done|]. by apply IH.
  - apply dict_get_None in Hg. done.
Qed.

Lemma node_of_entity (h : heap) (kg : KnowledgeGraph) :
  reachable h kg → ∀ k r e,
  get_entity kg k = Some r → h !! r = Some e →
  dict_get k (Nx.g_node (graph kg)) = Some (Some (Entity_to_dict e)).
Proof.
  induction 1 as [h|h kg e0 Hr IH|h kg r0 Hr IH Hlt|h kg rel Hr IH Hs Ht];
    intros k r e Hk He.
  - done.
  - pose proof (reachable_inv _ _ Hr) as Hinv.
    apply dict_get_Some_elem in Hk as Hin.
    destruct (si_text _ _ Hinv _ _ Hin) as [Hlt _].
    rewrite lookup_app_l in He by done. by eapply IH.
  - pose proof (reachable_inv _ _ Hr) as Hinv.
    destruct (lookup_lt_is_Some_2 h r0 Hlt) as [e0 He0].
    destruct (get_entity kg (text e0)) as [r1|] eqn:Hold.
    + (* the text is stored: the stored object absorbs the new one *)
      apply dict_get_Some_elem in Hold as Hin1.
      destruct (si_text _ _ Hinv _ _ Hin1) as [Hlt1 Htext1].
      destruct (lookup_lt_is_Some_2 h r1 Hlt1) as [e1 He1].
      destruct (add_entity_merge h kg r0 r1 e0 He0 Hold) as (Hh & Hents & _).
      unfold get_entity in Hk. rewrite Hents in Hk. rewrite Hh in He.
      unfold add_entity. rewrite He0. unfold get_entity in Hold. rewrite Hold.
      cbn [snd graph].
      assert (Hnode : Nx.has_node (graph kg) (text e0) = true).
      { apply dict_mem_true. by eapply si_nodes. }
      unfold Nx.update_node. rewrite Hnode. cbn [Nx.g_node].
      destruct (decide (k = text e0)) as [->|Hne].
      * rewrite Hold in Hk. injection Hk as <-.
        rewrite He. by rewrite dict_get_set_eq.
      * rewrite dict_get_set_ne by done.
        apply dict_get_Some_elem in Hk as Hin.
        destruct (si_text _ _ Hinv _ _ Hin) as [_ Htext].
        rewrite Entity_update_other in He by congruence.
        by eapply IH.
    + (* a new text *)
      rewrite (add_entity_fresh h kg r0 e0 He0 Hold) in *. cbn [fst snd graph] in *.
      unfold get_entity in Hk. cbn [entities] in Hk. unfold Nx.add_node. cbn [Nx.g_node].
      destruct (decide (k = text e0)) as [->|Hne].
      * rewrite dict_get_set_eq in Hk. injection Hk as <-.
        rewrite He0 in He. injection He as <-. by rewrite dict_get_set_eq.
      * rewrite dict_get_set_ne in Hk by done. rewrite dict_get_set_ne by done.
        by eapply IH.
  - pose proof (reachable_inv _ _ Hr) as Hinv.
    unfold add_relation, Nx.add_edge. cbn [graph Nx.g_node].
    unfold get_entity in Hk. cbn [entities] in Hk.
    apply dict_get_Some_elem in Hk as Hin.
    pose proof (si_nodes _ _ Hinv _ _ Hin) as Hnode.
    rewrite touch_node_get by (apply touch_node_keys; by right).
    rewrite touch_node_get by done. by eapply IH.
Qed.

(** In every state of the graph store the attributes of an entity's graph
    node are what [to_dict] gives for the stored entity object: its text,
    type, occurrence count and mentions.  The keys of the entity dictionary
    are the texts of the stored objects, no key occurs twice, and each one is
    a node of the graph. *)
Theorem node_mirrors_entity (h : heap) (kg : KnowledgeGraph) (k : string) (r : ref)
    (e : Entity) :
  reachable h kg → get_entity kg k = Some r → h !! r = Some e →
  text e = k
  ∧ Nx.has_node (graph kg) k = true
  ∧ dict_get k (Nx.g_node (graph kg)) = Some (Some (Entity_to_dict e)).
Proof.
  intros Hr Hk He. pose proof (reachable_inv _ _ Hr) as Hinv.
  apply dict_get_Some_elem in Hk as Hin.
  destruct (si_text _ _ Hinv _ _ Hin) as [_ Htext].
  split_and!.
  - unfold heap_text in Htext. by rewrite He in Htext.
  - apply dict_mem_true. by eapply si_nodes.
  - by eapply node_of_entity.
Qed.

Lemma node_mirrors_entity_witness :
  dict_get "C" (Nx.g_node (graph chain_kg))
  = Some (Some (mkEntityDict "C" "ORG" 1 ["C"])).
Proof.
  destruct (node_mirrors_entity chain_heap chain_kg "C" 2 (Entity_init "C" "ORG" 0 1)
              chain_reachable eq_refl eq_refl) as (_ & _ & Hnode).
  exact Hnode.
Defined.

(** Adding an entity object whose text is already stored under another
    object changes that stored object only: its occurrence count grows by the
    count of the object passed, its mentions become the union of both, and its
    text, type and positions stay; the object passed, the keys and the
    relation list are as before, and the node of the text gets the attributes
    of the merged object. *)
Theorem add_entity_merges (h : heap) (kg : KnowledgeGraph) (e r : ref)
    (ent old : Entity) :
  reachable h kg →
  h !! e = Some ent → get_entity kg (text ent) = Some r → r ≠ e → h !! r = Some old →
  let st := add_entity h kg e in
  let new := mkEntity (text old) (normalized_text old) (entity_type old)
               (start old) (end_ old)
               (occurrences old + occurrences ent) (mentions old ∪ mentions ent) in
  st.1 = <[r := new]> h
  ∧ st.1 !! e = Some ent
  ∧ entities st.2 = entities kg
  ∧ relations st.2 = relations kg
  ∧ dict_get (text ent) (Nx.g_node (graph st.2)) = Some (Some (Entity_to_dict new))
  ∧ Nx.g_adj (graph st.2) = Nx.g_adj (graph kg).
Proof.
  intros Hr He Hk Hne Hold st new.
  destruct (add_entity_merge h kg e r ent He Hk) as (Hh & Hents & Hrels).
  pose proof (Entity_update_self_full h r e old ent Hold He) as Hnew.
  rewrite decide_False in Hnew by done. fold new in Hnew.
  assert (Hheap : Entity_update h r e = <[r := new]> h).
  { apply list_eq. intros i. destruct (decide (i = r)) as [->|Hi].
    - rewrite Hnew. rewrite list_lookup_insert_eq; [done|]. by eapply lookup_lt_Some.
    - rewrite Entity_update_other by done. by rewrite list_lookup_insert_ne. }
  subst st. rewrite Hh, Hheap. split_and!; try done.
  - rewrite list_lookup_insert_ne by done. done.
  - assert (Hreach' : reachable (add_entity h kg e).1 (add_entity h kg e).2).
    { apply reachable_add_entity; [done|]. by eapply lookup_lt_Some. }
    apply (node_of_entity _ _ Hreach' (text ent) r new).
    + unfold get_entity. rewrite Hents. exact Hk.
    + rewrite Hh, Hheap. rewrite list_lookup_insert_eq; [done|]. by eapply lookup_lt_Some.
  - apply add_entity_adj.
Qed.

Lemma add_entity_merges_witness :
  let h := [Entity_init "Google" "ORG" 0 6; Entity_init "Google" "PRODUCT" 10 16] in
  let kg := (add_entity h KnowledgeGraph_init 0).2 in
  (add_entity h kg 1).1
  = [ mkEntity "Google" "google" "ORG" 0 6 2 {[ "Google" ]} ;
      Entity_init "Google" "PRODUCT" 10 16 ].
Proof.
  intros h kg.
  assert (Hr : reachable h kg).
  { apply (reachable_add_entity_same h KnowledgeGraph_init 0);
      [apply reachable_init | simpl; lia | reflexivity]. }
  destruct (add_entity_merges h kg 1 0 (Entity_init "Google" "PRODUCT" 10 16)
              (Entity_init "Google" "ORG" 0 6) Hr eq_refl eq_refl ltac:(lia) eq_refl)
    as (Hh & _).
  rewrite Hh. vm_compute. reflexivity.
Defined.

(** * Relations seen from both ends *)

Lemma elem_of_out_entries (g : Nx.DiGraph) x ty y se :
  mkRelationEntry outgoing ty y se ∈ out_entry <$> Nx.out_edges g x
  ↔ ((x, y), Nx.mkEdgeAttr ty se) ∈ Nx.g_adj g.
Proof.
  unfold Nx.out_edges. rewrite list_elem_of_fmap. split.
  - intros ([[a b] [ty' se']] & Heq & Hin).
    apply list_elem_of_filter in Hin as [Ha Hin]. simpl in Ha. subst a.
    unfold out_entry in Heq. simpl in Heq. by injection Heq as -> -> ->.
  - intros Hin. exists ((x, y), Nx.mkEdgeAttr ty se). split; [done|].
    apply list_elem_of_filter. done.
Qed.

Lemma elem_of_in_entries (g : Nx.DiGraph) y ty x se :
  mkRelationEntry incoming ty x se ∈ in_entry <$> Nx.in_edges g y
  ↔ ((x, y), Nx.mkEdgeAttr ty se) ∈ Nx.g_adj g.
Proof.
  unfold Nx.in_edges. rewrite list_elem_of_fmap. split.
  - intros ([[a b] [ty' se']] & Heq & Hin).
    apply list_elem_of_filter in Hin as [Hb Hin]. simpl in Hb. subst b.
    unfold in_entry in Heq. simpl in Heq. by injection Heq as -> -> ->.
  - intros Hin. exists ((x, y), Nx.mkEdgeAttr ty se). split; [done|].
    apply list_elem_of_filter. done.
Qed.

Lemma get_relations_of_key (h : heap) (kg : KnowledgeGraph) (k : string) :
  reachable h kg → is_Some (get_entity kg k) →
  get_relations h kg k
  = (out_entry <$> Nx.out_edges (graph kg) k) ++ (in_entry <$> Nx.in_edges (graph kg) k).
Proof.
  intros Hr [r Hk]. rewrite (get_relations_unfold h kg k r Hk).
  apply dict_get_Some_elem in Hk.
  destruct (si_text _ _ (reachable_inv _ _ Hr) _ _ Hk) as [_ ->]. done.
Qed.

Lemma length_omap_filter {A B} (P : A → Prop) `{∀ x, Decision (P x)}
    (f : A → B) (l : list A) :
  length (omap (λ x, if decide (P x) then Some (f x) else None) l)
  = length (filter P l).
Proof.
  induction l as [|a l IH]; [done|]. rewrite filter_cons. csimpl.
  destruct (decide (P a)); simpl; by rewrite <-IH.
Qed.

(** For two stored entities [x] and [y], [get_relations] lists an outgoing
    relation to [y] among the relations of [x] exactly when it lists the
    incoming relation from [x], with the same type and sentence, among those
    of [y]: exactly when the graph has that edge from [x] to [y]. *)
Theorem get_relations_mirror (h : heap) (kg : KnowledgeGraph) (x y ty se : string) :
  reachable h kg → is_Some (get_entity kg x) → is_Some (get_entity kg y) →
  (mkRelationEntry outgoing ty y se ∈ get_relations h kg x
   ↔ Nx.get_edge_data (graph kg) x y = Some (Nx.mkEdgeAttr ty se))
  ∧ (mkRelationEntry incoming ty x se ∈ get_relations h kg y
     ↔ Nx.get_edge_data (graph kg) x y = Some (Nx.mkEdgeAttr ty se)).
Proof.
  intros Hr Hx Hy.
  pose proof (wf_edges _ (si_graph _ _ (reachable_inv _ _ Hr))) as Hnd.
  assert (Hedge : ((x, y), Nx.mkEdgeAttr ty se) ∈ Nx.g_adj (graph kg)
                  ↔ Nx.get_edge_data (graph kg) x y = Some (Nx.mkEdgeAttr ty se)).
  { unfold Nx.get_edge_data. split.
    - by apply dict_get_elem_NoDup.
    - apply dict_get_Some_elem. }
  rewrite !get_relations_of_key by done. rewrite !elem_of_app.
  rewrite elem_of_out_entries, elem_of_in_entries, <-Hedge. split.
  - split; [|by left]. intros [Hin|Hin]; [done|].
    apply list_elem_of_fmap in Hin as (e & Heq & _). by destruct e as [[? ?] [? ?]].
  - split; [|by right]. intros [Hin|Hin]; [|done].
    apply list_elem_of_fmap in Hin as (e & Heq & _). by destruct e as [[? ?] [? ?]].
Qed.

Lemma get_relations_mirror_witness :
  mkRelationEntry outgoing "funds" "C" "B funds C." ∈ get_relations chain_heap chain_kg "B"
  ∧ mkRelationEntry incoming "funds" "B" "B funds C." ∈ get_relations chain_heap chain_kg "C".
Proof.
  destruct (get_relations_mirror chain_heap chain_kg "B" "C" "funds" "B funds C."
              chain_reachable) as [Hout Hin].
  - by eexists.
  - by eexists.
  - split; [apply Hout | apply Hin]; reflexivity.
Defined.

(** The number of relations [get_relations] lists for a stored entity is the
    degree of its node: one entry per outgoing edge followed by one per
    incoming edge, a self-loop being listed in both directions.  For a text
    that is no entity key the list is empty, whatever edges its node has. *)
Theorem get_relations_degree (h : heap) (kg : KnowledgeGraph) (k : string) :
  reachable h kg →
  (is_Some (get_entity kg k) →
   length (get_relations h kg k) = degree (graph kg) k
   ∧ re_direction <$> get_relations h kg k
     = replicate (length (Nx.succ (graph kg) k)) outgoing
       ++ replicate (length (Nx.pred (graph kg) k)) incoming)
  ∧ (get_entity kg k = None → get_relations h kg k = []).
Proof.
  intros Hr. split.
  - intros Hk. rewrite get_relations_of_key by done.
    assert (Hout : length (Nx.succ (graph kg) k) = length (Nx.out_edges (graph kg) k)).
    { unfold Nx.succ, Nx.out_edges.
      apply (length_omap_filter (λ e : string * string * Nx.EdgeAttr, e.1.1 = k)
               (λ e, e.1.2)). }
    assert (Hin : length (Nx.pred (graph kg) k) = length (Nx.in_edges (graph kg) k)).
    { unfold Nx.pred, Nx.in_edges.
      apply (length_omap_filter (λ e : string * string * Nx.EdgeAttr, e.1.2 = k)
               (λ e, e.1.1)). }
    split.
    + rewrite length_app, !length_fmap. unfold degree. lia.
    + rewrite fmap_app, Hout, Hin, <-!list_fmap_compose.
      f_equal.
      * generalize (Nx.out_edges (graph kg) k). intros l.
        induction l as [|a l IH]; [done|]. csimpl. by rewrite <-IH.
      * generalize (Nx.in_edges (graph kg) k). intros l.
        induction l as [|a l IH]; [done|]. csimpl. by rewrite <-IH.
  - intros Hk. unfold get_relations. by rewrite Hk.
Qed.

Lemma get_relations_degree_witness :
  length (get_relations chain_heap chain_kg "B") = 2
  ∧ get_relations chain_heap chain_kg "Z" = [].
Proof.
  destruct (get_relations_degree chain_heap chain_kg "B" chain_reachable) as [Hdeg _].
  destruct (get_relations_degree chain_heap chain_kg "Z" chain_reachable) as [_ Hnone].
  split.
  - destruct Hdeg as [-> _]; [by eexists | reflexivity].
  - apply Hnone. reflexivity.
Defined.

(** * Counting and the summary *)

Section Counting.
Context {A : Type} (key : A → string).

Lemma sum_values_set (d : list (string * Z)) k v :
  sum_values (dict_set k v d) = (sum_values d - default 0 (dict_get k d) + v)%Z.
Proof.
  unfold sum_values, dict_values. induction d as [|[k' v'] d IH]; csimpl.
  - lia.
  - case_decide; csimpl; [lia|]. rewrite IH. lia.
Qed.

Lemma count_loop (l : list A) : ∀ counts,
  let out := foldl (λ counts x,
                      dict_set (key x) (default 0 (dict_get (key x) counts) + 1)%Z counts)
                   counts l in
  (NoDup (dict_keys counts) → NoDup (dict_keys out))
  ∧ (∀ k, default 0%Z (dict_get k out)
          = (default 0 (dict_get k counts)
             + Z.of_nat (length (filter (λ x, key x = k) l)))%Z)
  ∧ (∀ k, k ∈ dict_keys out ↔ k ∈ dict_keys counts ∨ k ∈ key <$> l)
  ∧ sum_values out = (sum_values counts + Z.of_nat (length l))%Z.
Proof.
  induction l as [|a l IH]; intros counts; cbn zeta.
  - simpl. split_and!; [done | intros; lia | | lia].
    intros k. rewrite elem_of_nil. tauto.
  - cbn [foldl]. specialize (IH (dict_set (key a)
        (default 0 (dict_get (key a) counts) + 1)%Z counts)).
    cbn zeta in IH. destruct IH as (Hnd & Hget & Hkeys & Hsum). split_and!.
    + intros H0. apply Hnd. by apply dict_set_NoDup.
    + intros k. rewrite Hget, filter_cons.
      destruct (decide (key a = k)) as [<-|Hne].
      * rewrite dict_get_set_eq. simpl. lia.
      * rewrite dict_get_set_ne by done. lia.
    + intros k. rewrite Hkeys, dict_keys_set_elem, fmap_cons, elem_of_cons. naive_solver.
    + rewrite Hsum, sum_values_set. simpl. lia.
Qed.

Lemma count_by_spec (l : list A) :
  NoDup (dict_keys (count_by key l))
  ∧ (∀ k, default 0%Z (dict_get k (count_by key l))
          = Z.of_nat (length (filter (λ x, key x = k) l)))
  ∧ (∀ k, k ∈ dict_keys (count_by key l) ↔ k ∈ key <$> l)
  ∧ sum_values (count_by key l) = Z.of_nat (length l).
Proof.
  destruct (count_loop l []) as (Hnd & Hget & Hkeys & Hsum). unfold count_by.
  split_and!.
  - apply Hnd. constructor.
  - intros k. rewrite (Hget k). simpl. lia.
  - intros k. rewrite (Hkeys k). simpl. rewrite elem_of_nil. tauto.
  - rewrite Hsum. unfold sum_values. simpl. lia.
Qed.

End Counting.

(** The two counting methods give, for every type, the number of stored
    entities (of relations) of exactly that type; a type is a key of the
    result exactly when some entity (relation) has it, no key occurs twice,
    and the counts add up to the number of entities (of relations), which is
    what [get_summary] reports beside them. *)
Theorem get_summary_counts (h : heap) (kg : KnowledgeGraph) :
  let s := get_summary h kg in
  sum_values (sm_entity_types s) = Z.of_nat (sm_num_entities s)
  ∧ sum_values (sm_relation_types s) = Z.of_nat (sm_num_relations s)
  ∧ (∀ ty, default 0%Z (dict_get ty (_count_entity_types h kg))
           = Z.of_nat (length (filter (λ r, heap_entity_type h r = ty)
                                      (dict_values (entities kg)))))
  ∧ (∀ ty, default 0%Z (dict_get ty (_count_relation_types kg))
           = Z.of_nat (length (filter (λ r, relation_type r = ty) (relations kg))))
  ∧ (∀ ty, is_Some (dict_get ty (_count_entity_types h kg))
           ↔ ty ∈ heap_entity_type h <$> dict_values (entities kg))
  ∧ (∀ ty, is_Some (dict_get ty (_count_relation_types kg))
           ↔ ty ∈ relation_type <$> relations kg)
  ∧ NoDup (dict_keys (_count_entity_types h kg))
  ∧ NoDup (dict_keys (_count_relation_types kg)).
Proof.
  intros s. subst s. cbn [get_summary sm_entity_types sm_relation_types
                          sm_num_entities sm_num_relations].
  change (_count_entity_types h kg)
    with (count_by (heap_entity_type h) (dict_values (entities kg))).
  change (_count_relation_types kg) with (count_by relation_type (relations kg)).
  destruct (count_by_spec (heap_entity_type h) (dict_values (entities kg)))
    as (Hnd1 & Hget1 & Hkeys1 & Hsum1).
  destruct (count_by_spec relation_type (relations kg))
    as (Hnd2 & Hget2 & Hkeys2 & Hsum2).
  split_and!; try done.
  - rewrite Hsum1. unfold dict_values. by rewrite length_fmap.
  - intros ty. by rewrite dict_get_is_Some.
  - intros ty. by rewrite dict_get_is_Some.
Qed.

Section MostConnected.

Lemma insert_by_degree_perm x l : insert_by_degree x l ≡ₚ x :: l.
Proof.
  induction l as [|y l IH]; simpl; [done|].
  destruct (y.2 <? x.2); [done|]. rewrite IH. apply Permutation_swap.
Qed.

Lemma insert_by_degree_sorted x l :
  StronglySorted more_connected l → StronglySorted more_connected (insert_by_degree x l).
Proof.
  induction 1 as [|y l Hs IH Hall]; simpl.
  - repeat constructor.
  - destruct (y.2 <? x.2) eqn:Hlt.
    + apply Nat.ltb_lt in Hlt. constructor; [by constructor|].
      constructor; [unfold more_connected; lia|].
      eapply Forall_impl; [done|]. unfold more_connected. intros; lia.
    + apply Nat.ltb_ge in Hlt. constructor; [done|].
      rewrite insert_by_degree_perm. by constructor.
Qed.

Lemma sort_by_degree_acc l : ∀ acc,
  StronglySorted more_connected acc →
  StronglySorted more_connected (foldl (λ acc x, insert_by_degree x acc) acc l)
  ∧ foldl (λ acc x, insert_by_degree x acc) acc l ≡ₚ acc ++ l.
Proof.
  induction l as [|x l IH]; intros acc Hacc; simpl.
  - by rewrite app_nil_r.
  - destruct (IH (insert_by_degree x acc)) as [Hs Hp];
      [by apply insert_by_degree_sorted|].
    split; [done|]. rewrite Hp, insert_by_degree_perm.
    simpl. apply Permutation_middle.
Qed.

Lemma sorted_omap {A B} (R : relation A) (R' : relation B) (f : A → option B) l :
  (∀ x y a b, f x = Some a → f y = Some b → R x y → R' a b) →
  StronglySorted R l → StronglySorted R' (omap f l).
Proof.
  intros Hf. induction 1 as [|x l Hs IH Hall]; csimpl; [constructor|].
  destruct (f x) as [a|] eqn:Hx; [|done]. constructor; [done|].
  apply Forall_forall. intros b Hb. apply list_elem_of_omap in Hb as (y & Hy & Hfy).
  eapply Hf; [done..|]. rewrite Forall_forall in Hall. by apply Hall.
Qed.

Lemma filter_length_lt {A} (P : A → Prop) `{∀ x, Decision (P x)} (l : list A) x :
  x ∈ l → ¬ P x → length (filter P l) < length l.
Proof.
  induction 1 as [x l|x y l Hin IH]; intros HP; rewrite filter_cons.
  - rewrite decide_False by done. pose proof (length_filter P l). simpl. lia.
  - specialize (IH HP). destruct (decide (P y)); simpl; lia.
Qed.

Lemma filter_none {A} (P : A → Prop) `{∀ x, Decision (P x)} (l : list A) :
  (∀ x, x ∈ l → ¬ P x) → filter P l = [].
Proof.
  induction l as [|a l IH]; intros Hall; [done|].
  rewrite filter_cons, decide_False by (apply Hall; by left).
  apply IH. intros x Hx. apply Hall. by right.
Qed.

End MostConnected.

(** For a limit that is not negative, [_get_most_connected] lists at most
    [limit] entries, highest degree first; every entry names a node that is a
    stored entity, with that entity's type and the degree of the node (its
    incoming plus its outgoing edges), and fewer than [limit] nodes of the
    graph have a higher degree than a listed one. *)
Theorem most_connected_spec (h : heap) (kg : KnowledgeGraph) (limit : Z) :
  (0 ≤ limit)%Z →
  let res := _get_most_connected h kg limit in
  length res ≤ Z.to_nat limit
  ∧ StronglySorted (λ a b, mc_connections b ≤ mc_connections a) res
  ∧ (∀ c, c ∈ res →
       mc_entity c ∈ nodes (graph kg)
       ∧ mc_connections c = degree (graph kg) (mc_entity c)
       ∧ (∃ r, get_entity kg (mc_entity c) = Some r
               ∧ mc_type c = heap_entity_type h r)
       ∧ length (filter (λ n, mc_connections c < degree (graph kg) n)
                        (nodes (graph kg))) < Z.to_nat limit).
Proof.
  intros Hlimit res. subst res. unfold _get_most_connected.
  set (g := graph kg).
  set (degs := (λ node, (node, degree g node)) <$> nodes g).
  set (pick := λ nd : string * nat,
         match get_entity kg nd.1 with
         | Some entity => Some (mkConnected nd.1 (heap_entity_type h entity) nd.2)
         | None => None
         end).
  rewrite slice_to_nonneg by done. set (n := Z.to_nat limit).
  destruct (sort_by_degree_acc degs [] ltac:(constructor)) as [Hsorted Hperm].
  fold (sort_by_degree degs) in Hsorted, Hperm. simpl in Hperm.
  set (L := sort_by_degree degs) in *.
  assert (Hsplit : L = take n L ++ drop n L) by (by rewrite take_drop).
  assert (Hdegs : ∀ nd, nd ∈ L → nd.1 ∈ nodes g ∧ nd.2 = degree g nd.1).
  { intros nd Hnd. rewrite Hperm in Hnd. subst degs.
    apply list_elem_of_fmap in Hnd as (node & -> & Hnode). done. }
  split_and!.
  - etrans; [apply length_omap_le|]. rewrite length_take. lia.
  - apply (sorted_omap more_connected _ pick).
    + intros x y a b Hx Hy Hxy. unfold pick in Hx, Hy.
      destruct (get_entity kg x.1); [|done]. destruct (get_entity kg y.1); [|done].
      injection Hx as <-. injection Hy as <-. exact Hxy.
    + rewrite Hsplit in Hsorted. by apply StronglySorted_app_1_l in Hsorted.
  - intros c Hc. apply list_elem_of_omap in Hc as (nd & Hnd & Hpick).
    unfold pick in Hpick. destruct (get_entity kg nd.1) as [r|] eqn:Hr; [|done].
    injection Hpick as <-. cbn [mc_entity mc_connections mc_type].
    destruct (Hdegs nd) as [Hnode Hdeg].
    { rewrite Hsplit. apply elem_of_app. by left. }
    split_and!; [done | done | by exists r |].
    assert (Hcount : length (filter (λ node, nd.2 < degree g node) (nodes g))
                     = length (filter (λ p : string * nat, nd.2 < p.2) L)).
    { rewrite Hperm. subst degs. generalize (nodes g). intros l.
      induction l as [|a l IH]; [done|]. rewrite fmap_cons, !filter_cons. simpl.
      destruct (decide (nd.2 < degree g a)); simpl; by rewrite IH. }
    rewrite Hcount, Hsplit, filter_app, length_app.
    rewrite (filter_none _ (drop n L)).
    + simpl. rewrite Nat.add_0_r.
      eapply Nat.lt_le_trans; [apply (filter_length_lt _ _ nd); [done | lia]|].
      rewrite length_take. lia.
    + intros y Hy. rewrite Hsplit in Hsorted.
      pose proof (StronglySorted_app_1_elem_of _ _ _ _ _ Hsorted Hnd Hy) as Hle.
      unfold more_connected in Hle. lia.
Qed.

Lemma most_connected_spec_witness :
  _get_most_connected chain_heap chain_kg 2
  = [mkConnected "B" "ORG" 2; mkConnected "C" "ORG" 2]
  ∧ length (_get_most_connected chain_heap chain_kg 2) ≤ 2.
Proof.
  split; [reflexivity|].
  apply (most_connected_spec chain_heap chain_kg 2). lia.
Defined.

(** * More about the cache *)

Section CacheMore.
Context {V : Type}.
Variable hash : string → Z.

Lemma read_file_write now stem (value : V) dir :
  read_file stem (write_file now stem value dir) = Some value.
Proof.
  unfold write_file. destruct (file_exists stem dir) eqn:Hex.
  - apply file_exists_true in Hex. unfold read_file.
    induction dir as [|f dir IH]; [by apply elem_of_nil in Hex|].
    rewrite fmap_cons. cbn [list_find]. destruct (decide (f_stem f = stem)) as [Heq|Hne].
    + rewrite decide_True by done. done.
    + rewrite decide_False by done.
      rewrite fmap_cons in Hex. apply elem_of_cons in Hex as [Heq|Hin]; [congruence|].
      specialize (IH Hin). 
      destruct (list_find _ _) as [[i g]|]; [|done]. done.
  - unfold read_file. assert (Hnot : stem ∉ f_stem <$> dir).
    { intros Hin. apply file_exists_true in Hin. congruence. }
    clear Hex. induction dir as [|f dir IH]; simpl.
    + by rewrite decide_True.
    + rewrite fmap_cons, not_elem_of_cons in Hnot. destruct Hnot as [Hne Hnot].
      rewrite decide_False by congruence. specialize (IH Hnot).
      destruct (list_find _ _) as [[i g]|]; [|done]. done.
Qed.

End CacheMore.

Section RoundTrip.
Context {V : Type}.
Variable hash : string → Z.
Implicit Types (m : list (string * V)) (dir : list (File V)) (c : Cache V).

Lemma dict_get_drop m n key value :
  NoDup (dict_keys m) → dict_get key (drop n m) = Some value →
  dict_get key m = Some value.
Proof.
  intros Hnd Hget. apply dict_get_elem_NoDup; [done|].
  apply dict_get_Some_elem in Hget. rewrite <-(take_drop n m).
  apply elem_of_app. by right.
Qed.

Lemma set_unfold now c key (value : V) :
  (0 ≤ max_size c)%Z →
  let m := dict_set key value (cache c) in
  let n := length m - Z.to_nat (max_size c) in
  set hash now c key value
  = Ok (mkCache
          (write_file now (_get_cache_file hash key) value
             (unlink_all hash (dict_keys (take n m)) (cache_dir c)))
          (max_size c) (drop n m)).
Proof.
  intros Hcap m n. unfold set, _prune_cache. cbn [cache max_size cache_dir].
  rewrite prune_spec by done. done.
Qed.

Lemma get_miss_unfold c key :
  (0 ≤ max_size c)%Z → dict_get key (cache c) = None →
  get hash c key
  = match read_file (_get_cache_file hash key) (cache_dir c) with
    | Some value =>
        let m := dict_set key value (cache c) in
        let n := length m - Z.to_nat (max_size c) in
        if file_exists (_get_cache_file hash key) (cache_dir c) then
          (Some value,
           mkCache (unlink_all hash (dict_keys (take n m)) (cache_dir c))
                   (max_size c) (drop n m))
        else (None, c)
    | None => (None, c)
    end.
Proof.
  intros Hcap Hmiss. unfold get. rewrite Hmiss.
  destruct (file_exists _ _); destruct (read_file _ _) as [value|]; try done.
  unfold _prune_cache. cbn [cache max_size cache_dir].
  rewrite prune_spec by done. done.
Qed.

Lemma read_file_exists stem dir (value : V) :
  read_file stem dir = Some value → file_exists stem dir = true.
Proof.
  unfold read_file. intros Hread. apply file_exists_true.
  destruct (list_find _ dir) as [[i f]|] eqn:Hfind; [|done].
  apply list_find_Some in Hfind as (Hi & Hstem & _).
  apply list_elem_of_fmap. exists f. split; [done|]. by eapply list_elem_of_lookup_2.
Qed.

End RoundTrip.

Lemma get_after_set {V : Type} (hash : string → Z) (now : Z) (c : Cache V)
    (key : string) (value : V) :
  (0 ≤ max_size c)%Z → NoDup (dict_keys (cache c)) →
  ∃ c', set hash now c key value = Ok c'
        ∧ (get hash c' key).1 = Some value
        ∧ max_size c' = max_size c.
Proof.
  intros Hcap Hnd. rewrite set_unfold by done. cbn zeta.
  set (m := dict_set key value (cache c)).
  set (n := length m - Z.to_nat (max_size c)).
  eexists. split; [done|]. split; [|done].
  destruct (dict_get key (drop n m)) as [v|] eqn:Hget.
  - unfold get. cbn [cache]. rewrite Hget. simpl.
    apply dict_get_drop in Hget; [|by apply dict_set_NoDup].
    subst m. rewrite dict_get_set_eq in Hget. done.
  - rewrite get_miss_unfold by done. cbn [cache_dir cache max_size].
    rewrite read_file_write. cbn zeta.
    rewrite (proj2 (file_exists_write _ _ _ _ _)) by (by left). done.
Qed.

(** A value stored with [set] is what the next [get] of the same key
    returns, whatever the capacity (not negative) and whatever else the cache
    holds: from memory when the entry survived the pruning, and otherwise
    from the mirror file that [set] wrote after pruning. *)
Theorem set_then_get {V : Type} (hash : string → Z) (now : Z) (c : Cache V)
    (key : string) (value : V) :
  (0 ≤ max_size c)%Z → NoDup (dict_keys (cache c)) →
  ∃ c', set hash now c key value = Ok c'
        ∧ (get hash c' key).1 = Some value
        ∧ file_exists (_get_cache_file hash key) (cache_dir c') = true
        ∧ read_file (_get_cache_file hash key) (cache_dir c') = Some value.
Proof.
  intros Hcap Hnd.
  destruct (get_after_set hash now c key value Hcap Hnd) as (c' & Hset & Hget & _).
  exists c'. split; [done|]. split; [done|].
  rewrite set_unfold in Hset by done. cbn zeta in Hset. injection Hset as <-.
  cbn [cache_dir]. split.
  - apply file_exists_write. by left.
  - apply read_file_write.
Qed.

Lemma set_then_get_witness :
  ∃ c', set sample_hash 1 (Cache_init (V := string) [] 0) "entities_1" "v1" = Ok c'
        ∧ cache c' = []
        ∧ (get sample_hash c' "entities_1").1 = Some "v1".
Proof.
  destruct (set_then_get sample_hash 1 (Cache_init (V := string) [] 0) "entities_1" "v1")
    as (c' & Hset & Hget & _).
  - simpl. lia.
  - simpl. constructor.
  - exists c'. split; [exact Hset|]. split; [|exact Hget].
    vm_compute in Hset. injection Hset as <-. reflexivity.
Defined.

Section Bounded.
Context {V : Type}.
Variable hash : string → Z.
Implicit Types (m : list (string * V)) (dir : list (File V)) (c : Cache V).

Lemma dict_remove_keys m key :
  NoDup (dict_keys m) →
  dict_keys (dict_remove key m) = filter (λ k, k ≠ key) (dict_keys m).
Proof.
  unfold dict_keys. induction m as [|[k v] m IH]; intros Hnd; [done|].
  rewrite fmap_cons in Hnd. apply NoDup_cons in Hnd as [Hk Hnd].
  cbn [dict_remove]. rewrite fmap_cons, filter_cons. cbn [fst].
  destruct (decide (key = k)) as [->|Hne].
  - rewrite decide_False by (intros H; by apply H).
    symmetry. apply filter_all. apply Forall_forall. intros x Hx ->. done.
  - rewrite decide_True by congruence. rewrite fmap_cons. cbn [fst]. by rewrite IH.
Qed.

Lemma dict_remove_length m key :
  key ∈ dict_keys m → S (length (dict_remove key m)) = length m.
Proof.
  unfold dict_keys. induction m as [|[k v] m IH]; intros Hin.
  - by apply elem_of_nil in Hin.
  - cbn [dict_remove]. destruct (decide (key = k)) as [->|Hne]; [done|].
    rewrite fmap_cons in Hin. apply elem_of_cons in Hin as [Heq|Hin]; [done|].
    simpl. by rewrite IH.
Qed.

Lemma drop_keys_NoDup m n : NoDup (dict_keys m) → NoDup (dict_keys (drop n m)).
Proof.
  unfold dict_keys. rewrite fmap_drop. intros Hnd.
  eapply sublist_NoDup; [exact Hnd|]. apply sublist_drop.
Qed.

Lemma dict_set_length_le m key (value : V) :
  length (dict_set key value m) ≤ S (length m).
Proof.
  induction m as [|[k v] m IH]; simpl; [lia|]. case_decide; simpl; lia.
Qed.

Lemma pruned_ok dir (capacity : Z) m n :
  (0 ≤ capacity)%Z → NoDup (dict_keys m) → n = length m - Z.to_nat capacity →
  cache_ok (mkCache dir capacity (drop n m)).
Proof.
  intros Hcap Hnd ->. unfold cache_ok. cbn [max_size cache].
  split_and!; [done | by apply drop_keys_NoDup |].
  rewrite length_drop. lia.
Qed.

Lemma loaded_keys_NoDup (l : list (File V)) :
  NoDup (f_stem <$> l) → NoDup (dict_keys (omap entry_of_file l)).
Proof.
  intros Hnd. unfold dict_keys. eapply sublist_NoDup; [exact Hnd|].
  clear Hnd. induction l as [|f l IH]; [done|]. csimpl.
  unfold entry_of_file at 1. destruct (f_value f); csimpl.
  - by apply sublist_skip.
  - by apply sublist_cons.
Qed.

End Bounded.

(** The memory of a cache never outgrows its capacity.  A cache built by
    the constructor over a directory of distinctly named files, with a
    capacity that is not negative, holds no key twice and at most [max_size]
    entries, and [get], [set] and [clear] keep it so and keep the capacity;
    [set] does not raise. *)
Theorem cache_stays_bounded {V : Type} (hash : string → Z) :
  (∀ (dir : list (File V)) (capacity : Z),
     (0 ≤ capacity)%Z → NoDup (f_stem <$> dir) →
     cache_ok (Cache_init dir capacity))
  ∧ (∀ (c : Cache V) key,
       cache_ok c →
       cache_ok (get hash c key).2 ∧ max_size (get hash c key).2 = max_size c)
  ∧ (∀ (c : Cache V) now key value,
       cache_ok c →
       ∃ c', set hash now c key value = Ok c' ∧ cache_ok c'
             ∧ max_size c' = max_size c)
  ∧ (∀ c : Cache V, cache_ok c → cache_ok (clear c) ∧ cache (clear c) = []).
Proof.
  split_and!.
  - intros dir capacity Hcap Hnd. unfold Cache_init, _load_cache.
    cbn [cache_dir max_size cache]. rewrite slice_to_nonneg by done.
    set (sel := take (Z.to_nat capacity) (sort_by_mtime dir)).
    assert (Hsel : NoDup (f_stem <$> sel)).
    { eapply sublist_NoDup; [|apply fmap_sublist, sublist_take].
      by rewrite sort_by_mtime_perm. }
    rewrite load_loop; [|done|intros f _; apply not_elem_of_nil]. simpl.
    unfold cache_ok. cbn [max_size cache]. split_and!; [done | |].
    + by apply loaded_keys_NoDup.
    + etrans; [apply length_omap_le|]. subst sel. rewrite length_take. lia.
  - intros c key (Hcap & Hnd & Hlen).
    destruct (dict_get key (cache c)) as [value|] eqn:Hget.
    + rewrite (get_hit hash c key value Hnd Hget). cbn [snd max_size].
      split; [|done]. unfold cache_ok. cbn [max_size cache].
      assert (Hin : key ∈ dict_keys (cache c)).
      { apply dict_get_is_Some. by eexists. }
      split_and!; [done | |].
      * unfold dict_keys. rewrite fmap_app. fold (dict_keys (dict_remove key (cache c))).
        rewrite dict_remove_keys by done. simpl.
        apply NoDup_app. split_and!.
        -- by apply NoDup_filter.
        -- intros x [Hne _]%list_elem_of_filter Hx%list_elem_of_singleton. done.
        -- apply NoDup_singleton.
      * rewrite length_app. simpl. pose proof (dict_remove_length _ _ Hin). lia.
    + rewrite get_miss_unfold by done.
      destruct (read_file _ _) as [value|]; [|done]. cbn zeta.
      destruct (file_exists _ _); [|done]. cbn [snd max_size]. split; [|done].
      apply pruned_ok; [done | by apply dict_set_NoDup | done].
  - intros c now key value (Hcap & Hnd & Hlen). rewrite set_unfold by done. cbn zeta.
    eexists. split; [done|]. split; [|done].
    apply pruned_ok; [done | by apply dict_set_NoDup | done].
  - intros c (Hcap & _ & _). split; [|done]. unfold cache_ok, clear.
    cbn [max_size cache]. split_and!; [done | constructor | simpl; lia].
Qed.

Section NegativeCapacity.
Context {V : Type}.
Variable hash : string → Z.

Lemma prune_negative (capacity : Z) (m : list (string * V)) : ∀ dir,
  (capacity < 0)%Z →
  prune hash capacity m dir = ([], unlink_all hash (dict_keys m) dir, Some KeyError).
Proof.
  induction m as [|[key value] m IH]; intros dir Hcap; cbn [prune].
  - destruct (Z.gtb_spec 0 capacity); [done | lia].
  - destruct (Z.gtb_spec (Z.of_nat (length ((key, value) :: m))) capacity) as [Hgt|Hle];
      [|lia].
    by rewrite IH.
Qed.

Lemma file_exists_unlink_all stem (keys : list string) : ∀ dir : list (File V),
  file_exists stem (unlink_all hash keys dir) = true
  ↔ file_exists stem dir = true ∧ ∀ k, k ∈ keys → _get_cache_file hash k ≠ stem.
Proof.
  induction keys as [|k ks IH]; intros dir.
  - unfold unlink_all. simpl. split; [|tauto]. intros Hx. split; [done|].
    intros k Hk. by apply elem_of_nil in Hk.
  - change (unlink_all hash (k :: ks) dir)
      with (unlink_all hash ks (unlink (_get_cache_file hash k) dir)).
    rewrite IH, file_exists_unlink. split.
    + intros [[Hne Hex] Hks]. split; [done|].
      intros k' [->|Hk']%elem_of_cons; [congruence | by apply Hks].
    + intros [Hex Hks]. split_and!; [|done|].
      * intros ->. by apply (Hks k); [left|].
      * intros k' Hk'. apply Hks. by right.
Qed.

End NegativeCapacity.

(** A cache with a negative capacity cannot be written: every [set] empties
    the memory and then fails with the [KeyError] of taking the oldest entry
    of an empty store, before the mirror file is written; a [get] that misses
    memory answers [None] even when a readable mirror file exists, and it
    deletes that file. *)
Theorem set_negative_capacity {V : Type} (hash : string → Z) (c : Cache V) :
  (max_size c < 0)%Z →
  (∀ now key value, set hash now c key value = Raise KeyError)
  ∧ (∀ key, dict_get key (cache c) = None →
       (get hash c key).1 = None
       ∧ (is_Some (read_file (_get_cache_file hash key) (cache_dir c)) →
          cache (get hash c key).2 = []
          ∧ file_exists (_get_cache_file hash key) (cache_dir (get hash c key).2) = false)).
Proof.
  intros Hcap. split.
  - intros now key value. unfold set, _prune_cache. cbn [cache max_size cache_dir].
    by rewrite prune_negative.
  - intros key Hmiss. unfold get. rewrite Hmiss.
    destruct (read_file _ _) as [value|] eqn:Hread.
    + rewrite (read_file_exists _ _ _ Hread).
      unfold _prune_cache. cbn [cache max_size cache_dir]. rewrite prune_negative by done.
      cbn [fst snd cache cache_dir]. split; [done|]. intros _. split; [done|].
      apply not_true_is_false. intros [_ Hex]%file_exists_unlink_all.
      apply (Hex key); [|done]. apply dict_keys_set_elem. by left.
    + destruct (file_exists _ _); (split; [done|]); by intros [? ?].
Qed.

Lemma set_negative_capacity_witness :
  cache (Cache_init sample_dir (-1)) = [("22", "b")]
  ∧ set sample_hash 1 (Cache_init sample_dir (-1)) "k" "v" = Raise KeyError.
Proof.
  split; [reflexivity|].
  apply (set_negative_capacity sample_hash (Cache_init sample_dir (-1))). simpl. lia.
Defined.

(** A [get] that misses memory reads the mirror file of the key.  When the
    file is readable (and the capacity is at least one) the value read is
    the answer and the entry becomes the newest in memory, the oldest ones
    being evicted to make room; when there is no such file, or it cannot be
    read, the answer is [None] and nothing changes. *)
Theorem get_reads_mirror {V : Type} (hash : string → Z) (c : Cache V) (key : string) :
  (1 ≤ max_size c)%Z → dict_get key (cache c) = None →
  (∀ value,
     read_file (_get_cache_file hash key) (cache_dir c) = Some value →
     let n := length (cache c) + 1 - Z.to_nat (max_size c) in
     get hash c key
     = (Some value,
        mkCache (unlink_all hash (dict_keys (take n (cache c))) (cache_dir c))
                (max_size c) (drop n (cache c) ++ [(key, value)])))
  ∧ (read_file (_get_cache_file hash key) (cache_dir c) = None →
     get hash c key = (None, c)).
Proof.
  intros Hcap Hmiss. split.
  - intros value Hread n. rewrite get_miss_unfold by first [done | lia].
    rewrite Hread, (read_file_exists _ _ _ Hread). cbn zeta.
    rewrite dict_set_absent by (by apply dict_get_None).
    rewrite length_app. simpl. fold n.
    assert (Hn : n ≤ length (cache c)) by lia.
    rewrite take_app_le, drop_app_le by done. done.
  - intros Hread. rewrite get_miss_unfold by first [done | lia]. by rewrite Hread.
Qed.

Lemma get_reads_mirror_witness :
  (get sample_hash (Cache_init sample_dir 1) "123456789012345678901").1 = Some "a"
  ∧ (get sample_hash (Cache_init sample_dir 1) "nothing").1 = None.
Proof.
  destruct (get_reads_mirror sample_hash (Cache_init sample_dir 1)
              "123456789012345678901") as [Hhit _]; [simpl; lia | reflexivity |].
  destruct (get_reads_mirror sample_hash (Cache_init sample_dir 1) "nothing")
    as [_ Hmiss]; [simpl; lia | reflexivity |].
  split.
  - rewrite (Hhit "a"); reflexivity.
  - rewrite Hmiss; reflexivity.
Defined.



(** * How queries are read *)

Section Stripping.

Lemma lstrip_nonspace s c t : Py.lstrip s = String c t → Py.isspace c = false.
Proof.
  induction s as [|a s IH]; simpl; [done|].
  destruct (Py.isspace a) eqn:Ha; [done|]. intros [= <- <-]. done.
Qed.

Lemma rstrip_cons_nonspace c s :
  Py.isspace c = false → ∃ r, Py.rstrip (String c s) = String c r.
Proof.
  intros Hc. simpl. destruct (Py.rstrip s) as [|a r].
  - rewrite Hc. by eexists.
  - by eexists.
Qed.

Lemma rstrip_idem s : Py.rstrip (Py.rstrip s) = Py.rstrip s.
Proof.
  induction s as [|c s IH]; [done|]. simpl.
  destruct (Py.rstrip s) as [|a r] eqn:Hr.
  - destruct (Py.isspace c) eqn:Hc; [done|]. simpl. by rewrite Hc.
  - change (Py.rstrip (String c (String a r)))
      with (match Py.rstrip (String a r) with
            | EmptyString => if Py.isspace c then EmptyString else String c EmptyString
            | r' => String c r'
            end).
    by rewrite IH.
Qed.

Lemma strip_idem s : Py.strip (Py.strip s) = Py.strip s.
Proof.
  unfold Py.strip. destruct (Py.lstrip s) as [|c t] eqn:Hl; [done|].
  pose proof (lstrip_nonspace _ _ _ Hl) as Hc.
  destruct (rstrip_cons_nonspace c t Hc) as [r Hr].
  rewrite Hr. cbn [Py.lstrip]. rewrite Hc. rewrite <-Hr. apply rstrip_idem.
Qed.

Lemma lstrip_spaces ws s :
  string_forall Py.isspace ws = true → Py.lstrip (ws +:+ s) = Py.lstrip s.
Proof.
  induction ws as [|c ws IH]; [done|]. cbn [string_forall].
  intros [Hc Hws]%andb_true_iff. rewrite append_cons. cbn [Py.lstrip].
  rewrite Hc. by apply IH.
Qed.

Lemma lstrip_all_spaces ws :
  string_forall Py.isspace ws = true → Py.lstrip ws = EmptyString.
Proof.
  induction ws as [|c ws IH]; [done|]. cbn [string_forall Py.lstrip].
  intros [-> Hws]%andb_true_iff. by apply IH.
Qed.

Lemma rstrip_spaces ws : string_forall Py.isspace ws = true → Py.rstrip ws = EmptyString.
Proof.
  induction ws as [|c ws IH]; [done|]. simpl.
  intros [Hc Hws]%andb_true_iff. rewrite IH by done. by rewrite Hc.
Qed.

Lemma rstrip_app_spaces s ws :
  string_forall Py.isspace ws = true → Py.rstrip (s +:+ ws) = Py.rstrip s.
Proof.
  intros Hws. induction s as [|c s IH].
  - by apply rstrip_spaces.
  - rewrite append_cons. simpl. by rewrite IH.
Qed.

Lemma strip_app_spaces s ws :
  string_forall Py.isspace ws = true → Py.strip (s +:+ ws) = Py.strip s.
Proof.
  intros Hws. unfold Py.strip. induction s as [|c s IH].
  - change (EmptyString +:+ ws) with ws. by rewrite lstrip_all_spaces.
  - rewrite append_cons. simpl. destruct (Py.isspace c); [done|].
    rewrite <-append_cons. by apply rstrip_app_spaces.
Qed.

End Stripping.

(** [execute_query] ignores white space around the query: a query and the
    same query between two runs of blanks, tabs or line ends get the same
    answer, as do a query and its stripped form. *)
Theorem execute_query_ignores_blanks (save_error : string → option string)
    (h : heap) (kg : KnowledgeGraph) (ws1 ws2 query : string) :
  string_forall Py.isspace ws1 = true → string_forall Py.isspace ws2 = true →
  execute_query save_error h kg (ws1 +:+ query +:+ ws2)
  = execute_query save_error h kg query
  ∧ execute_query save_error h kg (Py.strip query)
    = execute_query save_error h kg query.
Proof.
  intros H1 H2.
  assert (Hs : Py.strip (ws1 +:+ query +:+ ws2) = Py.strip query).
  { unfold Py.strip. rewrite lstrip_spaces by done.
    fold (Py.strip (query +:+ ws2)). fold (Py.strip query). by apply strip_app_spaces. }
  unfold execute_query. by rewrite Hs, strip_idem.
Qed.

Lemma execute_query_ignores_blanks_witness :
  execute_query (λ _, None) chain_heap chain_kg "   help  "
  = execute_query (λ _, None) chain_heap chain_kg "help".
Proof.
  apply (execute_query_ignores_blanks (λ _, None) chain_heap chain_kg "   " "  " "help");
    reflexivity.
Defined.

Section Matching.

Lemma append_assoc (a b c : string) : (a +:+ b) +:+ c = a +:+ (b +:+ c).
Proof. induction a as [|x a IH]; [done|]. by rewrite !append_cons, IH. Qed.

Lemma isspace_lower c : Py.isspace (Py.char_lower c) = Py.isspace c.
Proof. by destruct c as [[] [] [] [] [] [] [] []]. Qed.

Lemma lit_any_case word : ∀ W rest,
  Py.lower W = Py.lower word → Re.lit word (W +:+ rest) = Some rest.
Proof.
  induction word as [|a word IH]; intros [|b W] rest Heq; try done.
  simpl in Heq. injection Heq as Hc Hw. rewrite append_cons. cbn [Re.lit].
  rewrite decide_True by done. by apply IH.
Qed.

Lemma re_match_head_fails a w p b s :
  Py.char_lower a ≠ Py.char_lower b →
  Re.re_match (Re.Lit (String a w) :: p) (String b s) = None.
Proof.
  intros Hne. unfold Re.re_match. cbn [Re.run Re.lit]. by rewrite decide_False.
Qed.

Lemma greedy_span {R : Type} (ok : ascii → bool) (ws s : string)
    (k : string → string → option R) (r : R) :
  ws ≠ EmptyString → string_forall ok ws = true →
  match s with EmptyString => True | String c _ => ok c = false end →
  k ws s = Some r → Re.greedy ok (ws +:+ s) k = Some r.
Proof.
  intros Hne Hall Hs. revert k. induction ws as [|c ws IH]; intros k Hk; [done|].
  cbn [string_forall] in Hall. apply andb_true_iff in Hall as [Hc Hall].
  rewrite append_cons, greedy_cons, Hc.
  destruct ws as [|c' ws].
  - change (EmptyString +:+ s) with s.
    destruct s as [|x s]; [by rewrite Hk|].
    by rewrite greedy_head_fails.
  - by rewrite (IH ltac:(done) Hall (λ taken rest, k (String c taken) rest) Hk).
Qed.

Lemma run_word_name (word W ws s : string) (gs : list string) :
  Py.lower W = Py.lower word → ws ≠ EmptyString →
  string_forall Py.isspace ws = true → plain_name s →
  Re.run [Re.Lit word; Re.Spaces; Re.Group] (W +:+ ws +:+ s) gs = Some (gs ++ [s]).
Proof.
  intros HW Hne Hws Hplain. destruct (plain_name_head s Hplain) as (c & s' & -> & Hc).
  destruct Hplain as (_ & _ & Hdot).
  cbn [Re.run]. rewrite lit_any_case by done.
  apply greedy_span; [done..|].
  apply greedy_all; [done | done |]. reflexivity.
Qed.

Lemma strip_words (W ws s : string) c w :
  W = String c w → Py.isspace c = false → plain_name s →
  Py.strip (W +:+ ws +:+ s) = W +:+ ws +:+ s.
Proof.
  intros -> Hc (Hne & Hs & _). destruct (strip_fixed s Hs) as [_ Hr]. unfold Py.strip.
  assert (Hl : Py.lstrip (String c w +:+ ws +:+ s) = String c w +:+ ws +:+ s).
  { rewrite append_cons. simpl. by rewrite Hc. }
  rewrite Hl. rewrite <-append_assoc. rewrite rstrip_app by (by rewrite Hr).
  by rewrite Hr.
Qed.

Lemma word_head (W word : string) a w :
  word = String a w → Py.lower W = Py.lower word →
  ∃ c W', W = String c W' ∧ Py.char_lower c = Py.char_lower a
          ∧ Py.isspace c = Py.isspace a.
Proof.
  intros -> Heq. destruct W as [|c W']; [done|]. simpl in Heq. injection Heq as Hc _.
  exists c, W'. split_and!; [done | done |].
  by rewrite <-(isspace_lower c), Hc, isspace_lower.
Qed.

End Matching.

(** The command words [find], [related], [count] and [export] are read in
    any letter case and may be followed by any run of white space; what
    follows the run, when it is a plain name, is handed to the command's
    handler as it was typed. *)
Theorem command_words_any_case (save_error : string → option string)
    (h : heap) (kg : KnowledgeGraph) (W ws s : string) :
  ws ≠ EmptyString → string_forall Py.isspace ws = true → plain_name s →
  (Py.lower W = "find" →
   execute_query save_error h kg (W +:+ ws +:+ s) = _handle_find h kg s)
  ∧ (Py.lower W = "related" →
     execute_query save_error h kg (W +:+ ws +:+ s) = _handle_related h kg s)
  ∧ (Py.lower W = "count" →
     execute_query save_error h kg (W +:+ ws +:+ s) = _handle_count h kg s)
  ∧ (Py.lower W = "export" →
     execute_query save_error h kg (W +:+ ws +:+ s) = _handle_export save_error s).
Proof.
  intros Hne Hws Hplain.
  assert (Hgo : ∀ word a w cmd c W',
            word = String a w → Py.isspace a = false → Py.lower word = word →
            Py.lower (String c W') = word → Py.isspace c = Py.isspace a →
            (∀ q groups,
               Re.re_match [Re.Lit word; Re.Spaces; Re.Group] (String c q) = Some groups →
               first_match command_patterns (String c q) = Some (cmd, groups)) →
            first_match command_patterns (Py.strip (String c W' +:+ ws +:+ s))
            = Some (cmd, [s])).
  { intros word a w cmd c W' Hword Ha Hlow HW Hsp Hfirst.
    rewrite (strip_words _ ws s c W') by (done || congruence).
    rewrite append_cons. apply Hfirst. rewrite <-append_cons.
    unfold Re.re_match. rewrite run_word_name; [done | by rewrite Hlow | done..]. }
  split_and!; intros HW; unfold execute_query.
  - destruct (word_head W "find" "f" "ind" eq_refl HW) as (c & W' & -> & Hc & Hsp).
    rewrite (Hgo "find" "f"%char "ind" cmd_find c W'); [done..|].
    intros q groups Hm. unfold command_patterns. cbn [first_match]. by rewrite Hm.
  - destruct (word_head W "related" "r" "elated" eq_refl HW) as (c & W' & -> & Hc & Hsp).
    rewrite (Hgo "related" "r"%char "elated" cmd_related c W'); [done..|].
    intros q groups Hm. unfold command_patterns. cbn [first_match].
    rewrite !re_match_head_fails by (by rewrite Hc). by rewrite Hm.
  - destruct (word_head W "count" "c" "ount" eq_refl HW) as (c & W' & -> & Hc & Hsp).
    rewrite (Hgo "count" "c"%char "ount" cmd_count c W'); [done..|].
    intros q groups Hm. unfold command_patterns. cbn [first_match].
    rewrite !re_match_head_fails by (by rewrite Hc). by rewrite Hm.
  - destruct (word_head W "export" "e" "xport" eq_refl HW) as (c & W' & -> & Hc & Hsp).
    rewrite (Hgo "export" "e"%char "xport" cmd_export c W'); [done..|].
    intros q groups Hm. unfold command_patterns. cbn [first_match].
    rewrite !re_match_head_fails by (by rewrite Hc). by rewrite Hm.
Qed.

Lemma command_words_any_case_witness :
  execute_query (λ _, None) chain_heap chain_kg ("FinD" +:+ "   " +:+ "B")
  = _handle_find chain_heap chain_kg "B"
  ∧ execute_query (λ _, None) chain_heap chain_kg ("EXPORT" +:+ " " +:+ "graph.json")
    = Ok (mkResponse true "Knowledge graph exported to graph.json" None).
Proof.
  assert (Hb : plain_name "B") by (split_and!; [discriminate | reflexivity..]).
  assert (Hf : plain_name "graph.json") by (split_and!; [discriminate | reflexivity..]).
  split.
  - by apply (command_words_any_case (λ _, None) chain_heap chain_kg "FinD" "   " "B").
  - by apply (command_words_any_case (λ _, None) chain_heap chain_kg "EXPORT" " "
                "graph.json").
Defined.

Section PathPattern.

(** A word: no white space in it. *)
Lemma word_chars_dot s :
  string_forall word_char s = true → string_forall Re.dot s = true.
Proof.
  induction s as [|c s IH]; [done|]. cbn [string_forall].
  intros [Hc Hs]%andb_true_iff. rewrite IH by done. rewrite andb_true_r.
  unfold Re.dot. destruct (bool_decide_reflect (c = "010"%char)) as [->|]; done.
Qed.

Lemma word_rstrip s :
  string_forall word_char s = true → Py.rstrip s = s.
Proof.
  induction s as [|c s IH]; [done|]. cbn [string_forall].
  intros [Hc Hs]%andb_true_iff. simpl. rewrite IH by done.
  destruct s; [|done]. by apply negb_true_iff in Hc as ->.
Qed.

Lemma word_plain s :
  s ≠ EmptyString → string_forall word_char s = true → plain_name s.
Proof.
  intros Hne Hs. split_and!; [done | | by apply word_chars_dot].
  unfold Py.strip. destruct s as [|c s]; [done|].
  cbn [string_forall] in Hs. apply andb_true_iff in Hs as Hs'. destruct Hs' as [Hc _].
  apply negb_true_iff in Hc. cbn [Py.lstrip]. rewrite Hc. by apply word_rstrip.
Qed.

Lemma greedy_word_fails {R : Type} s (k : string → string → option R) :
  string_forall word_char s = true →
  Re.greedy Py.isspace s k = None.
Proof.
  destruct s as [|c s]; [done|]. cbn [string_forall].
  intros [Hc _]%andb_true_iff. apply greedy_head_fails. by apply negb_true_iff.
Qed.

Lemma lit_rest (P : ascii → bool) word : ∀ s rest,
  Re.lit word s = Some rest → string_forall P s = true → string_forall P rest = true.
Proof.
  induction word as [|a word IH]; intros s rest Hlit Hs; simpl in Hlit.
  - by injection Hlit as <-.
  - destruct s as [|b s]; [done|]. case_decide; [|done].
    cbn [string_forall] in Hs. apply andb_true_iff in Hs as [_ Hs]. by eapply IH.
Qed.

Lemma suffix_forall (P : ascii → bool) x : ∀ s y,
  s = x +:+ y → string_forall P s = true → string_forall P y = true.
Proof.
  induction x as [|c x IH]; intros s y -> Hs; [done|].
  rewrite append_cons in Hs. cbn [string_forall] in Hs.
  apply andb_true_iff in Hs as [_ Hs]. by eapply IH.
Qed.

Lemma greedy_none {R : Type} (ok : ascii → bool) s : ∀ k : string → string → option R,
  (∀ x y, s = x +:+ y → x ≠ EmptyString → k x y = None) →
  Re.greedy ok s k = None.
Proof.
  induction s as [|c s IH]; intros k Hk; [done|].
  rewrite greedy_cons. destruct (ok c); [|done].
  rewrite IH.
  - by apply (Hk (String c EmptyString) s).
  - intros x y -> Hx. by apply (Hk (String c x) y).
Qed.

Lemma greedy_longest {R : Type} (ok : ascii → bool) a tail : ∀ (k : string → string → option R) r,
  a ≠ EmptyString → string_forall ok a = true →
  (∀ x y, tail = x +:+ y → x ≠ EmptyString → k (a +:+ x) y = None) →
  k a tail = Some r → Re.greedy ok (a +:+ tail) k = Some r.
Proof.
  induction a as [|c a IH]; intros k r Hne Hall Hlonger Hk; [done|].
  cbn [string_forall] in Hall. apply andb_true_iff in Hall as [Hc Hall].
  rewrite append_cons, greedy_cons, Hc. destruct a as [|c' a].
  - change (EmptyString +:+ tail) with tail. rewrite greedy_none; [done|].
    intros x y Hxy Hx. by apply (Hlonger x y).
  - rewrite (IH (λ taken rest, k (String c taken) rest) r); [done | done | done | | done].
    intros x y Hxy Hx. by apply (Hlonger x y).
Qed.

Lemma path_tail_word b gs :
  b ≠ EmptyString → string_forall word_char b = true →
  Re.run path_tail (" to " +:+ b) gs = Some (gs ++ [b]).
Proof.
  intros Hne Hb. unfold path_tail. cbn [Re.run].
  change (" to " +:+ b) with (String " " (String "t" (String "o" (String " " b)))).
  rewrite greedy_cons. change (Py.isspace " ") with true. cbv iota.
  rewrite greedy_head_fails by done. cbn [Re.lit].
  rewrite !decide_True by done.
  rewrite greedy_cons. change (Py.isspace " ") with true. cbv iota.
  rewrite greedy_word_fails by done.
  apply greedy_all; [done | by apply word_chars_dot | reflexivity].
Qed.

Lemma path_tail_later b gs x y :
  string_forall word_char b = true →
  " to " +:+ b = x +:+ y → x ≠ EmptyString → Re.run path_tail y gs = None.
Proof.
  intros Hb Hxy Hx. unfold path_tail. cbn [Re.run].
  change (" to " +:+ b) with (String " " (String "t" (String "o" (String " " b)))) in Hxy.
  destruct x as [|c1 x]; [done|]. rewrite append_cons in Hxy. injection Hxy as <- Hxy.
  destruct x as [|c2 x].
  { change (EmptyString +:+ y) with y in Hxy. subst y. by apply greedy_head_fails. }
  rewrite append_cons in Hxy. injection Hxy as <- Hxy.
  destruct x as [|c3 x].
  { change (EmptyString +:+ y) with y in Hxy. subst y. by apply greedy_head_fails. }
  rewrite append_cons in Hxy. injection Hxy as <- Hxy.
  destruct x as [|c4 x].
  { change (EmptyString +:+ y) with y in Hxy. subst y.
    rewrite greedy_cons. change (Py.isspace " ") with true. cbv iota.
    rewrite greedy_word_fails by done.
    destruct (Re.lit "to" b) as [rest|] eqn:Hlit; [|done].
    apply greedy_word_fails. by eapply lit_rest. }
  rewrite append_cons in Hxy. injection Hxy as <- Hxy.
  apply greedy_word_fails. by eapply suffix_forall.
Qed.

Lemma first_match_path a b :
  plain_name a → b ≠ EmptyString →
  string_forall word_char b = true →
  first_match command_patterns ("path from " +:+ a +:+ " to " +:+ b)
  = Some (cmd_path, [a; b]).
Proof.
  intros Ha Hne Hb. unfold command_patterns. cbn [first_match].
  assert (H1 : Re.re_match [Re.Lit "find"; Re.Spaces; Re.Group]
                 ("path from " +:+ a +:+ " to " +:+ b) = None) by reflexivity.
  rewrite H1. clear H1.
  destruct (plain_name_head a Ha) as (c & a' & Heq & Hc).
  destruct Ha as (Hane & _ & Hdot).
  unfold Re.re_match.
  change ("path from " +:+ a +:+ " to " +:+ b)
    with ("path" +:+ String " " ("from" +:+ String " " (a +:+ " to " +:+ b))).
  cbn [Re.run]. rewrite lit_any_case by done.
  rewrite greedy_cons. change (Py.isspace " ") with true. cbv iota.
  rewrite (append_cons "f" "rom"), greedy_head_fails by done.
  rewrite <-(append_cons "f" "rom"), lit_any_case by done.
  rewrite greedy_cons. change (Py.isspace " ") with true. cbv iota.
  assert (Hfail : ∀ K : string → string → option (list string),
            Re.greedy Py.isspace (a +:+ " to " +:+ b) K = None).
  { intros K. rewrite Heq, append_cons. by apply greedy_head_fails. }
  rewrite Hfail.
  rewrite (greedy_longest Re.dot a (" to " +:+ b) _ [a; b]); [done | done | done | |].
  - intros x y Hxy Hx. by apply (path_tail_later b _ x y).
  - by apply (path_tail_word b [a]).
Qed.

End PathPattern.

(** In [path from <a> to <b>] with a one-word target the source name is
    everything up to the last [ to ]: the first group of the pattern is
    greedy, so a source name may itself contain [ to ], and the two names
    reach the path handler as they were typed. *)
Theorem path_query_names (save_error : string → option string)
    (h : heap) (kg : KnowledgeGraph) (a b : string) :
  plain_name a → b ≠ EmptyString → string_forall word_char b = true →
  execute_query save_error h kg ("path from " +:+ a +:+ " to " +:+ b)
  = _handle_path h kg a b.
Proof.
  intros Ha Hne Hb. unfold execute_query.
  assert (Hstrip : Py.strip ("path from " +:+ a +:+ " to " +:+ b)
                   = "path from " +:+ a +:+ " to " +:+ b).
  { change ("path from " +:+ a +:+ " to " +:+ b)
      with ("path" +:+ " from " +:+ (a +:+ " to " +:+ b)).
    apply (strip_words "path" " from " _ "p" "ath"); [done | done |].
    pose proof (word_plain b Hne Hb) as (_ & Hsb & Hdb).
    destruct (strip_fixed b Hsb) as [_ Hrb].
    destruct Ha as (Hane & Hsa & Hda). destruct (strip_fixed a Hsa) as [Hla _].
    split_and!.
    - destruct a; [done | by rewrite append_cons].
    - unfold Py.strip.
      assert (Hl : Py.lstrip (a +:+ " to " +:+ b) = a +:+ " to " +:+ b).
      { destruct a as [|c a']; [done|]. rewrite append_cons.
        cbn [Py.lstrip] in *. destruct (Py.isspace c); [|done].
        pose proof (lstrip_length a') as Hlen. rewrite Hla in Hlen. simpl in Hlen. lia. }
      rewrite Hl, <-append_assoc, rstrip_app by (by rewrite Hrb). by rewrite Hrb.
    - clear -Hda Hdb. induction a as [|c a IH].
      + by change (EmptyString +:+ " to " +:+ b) with (" to " +:+ b).
      + rewrite append_cons. cbn [string_forall] in *.
        apply andb_true_iff in Hda as [-> Hda]. by apply IH. }
  by rewrite Hstrip, first_match_path.
Qed.

Lemma path_query_names_witness :
  execute_query (λ _, None) chain_heap chain_kg "path from A to B to C"
  = Ok (mkResponse false "Source entity 'A to B' not found." None).
Proof.
  assert (Ha : plain_name "A to B") by (split_and!; [discriminate | reflexivity..]).
  change "path from A to B to C" with ("path from " +:+ "A to B" +:+ " to " +:+ "C").
  rewrite (path_query_names (λ _, None) chain_heap chain_kg "A to B" "C" Ha);
    [reflexivity | discriminate | reflexivity].
Defined.

(** When both names are stored entities, they differ and the graph has a
    route from the first to the second, the path handler answers with
    success: its data is a shortest such route, one step per edge with the
    stored relation type and sentence, and the length it reports is the
    number of steps, at least one. *)
Theorem _handle_path_found (h : heap) (kg : KnowledgeGraph) (a b : string)
    (l : list string) :
  reachable h kg →
  is_Some (get_entity kg a) → is_Some (get_entity kg b) → a ≠ b →
  route (graph kg) a l b →
  ∃ steps,
    _handle_path h kg a b
    = Ok (mkResponse true ("Found path from '" +:+ a +:+ "' to '" +:+ b +:+ "'")
            (Some (PathData steps (length steps))))
    ∧ get_path kg a b = Ok steps
    ∧ 1 ≤ length steps
    ∧ steps_from (graph kg) a steps b
    ∧ ∀ l', route (graph kg) a l' b → length steps ≤ length l'.
Proof.
  intros Hr [ra Ha] [rb Hb] Hne Hroute.
  pose proof (reachable_inv _ _ Hr) as Hinv.
  destruct (si_text _ _ Hinv a ra (dict_get_Some_elem _ _ _ Ha)) as [_ Hta].
  destruct (si_text _ _ Hinv b rb (dict_get_Some_elem _ _ _ Hb)) as [_ Htb].
  destruct (get_path_route h kg a b l Hr Hroute) as (steps & Hpath & Hfrom & Hmin).
  exists steps. unfold _handle_path. rewrite Ha, Hb, Hta, Htb, Hpath. simpl.
  destruct steps as [|st steps]; [by simpl in Hfrom|].
  split_and!; [done | done | simpl; lia | done | done].
Qed.

Lemma _handle_path_found_witness :
  _handle_path chain_heap chain_kg "B" "D"
  = Ok (mkResponse true "Found path from 'B' to 'D'"
          (Some (PathData [ mkPathStep "B" "C" "funds" "B funds C.";
                            mkPathStep "C" "D" "hires" "C hires D." ] 2))).
Proof.
  destruct (_handle_path_found chain_heap chain_kg "B" "D" ["C"; "D"] chain_reachable)
    as (steps & Hresp & Hpath & _).
  - by eexists.
  - by eexists.
  - discriminate.
  - simpl. split_and!; [by eexists | by eexists | done].
  - vm_compute in Hpath. injection Hpath as <-. exact Hresp.
Defined.

Section Words.

Lemma split_from_some s : ∀ w, split_from (Some w) s ≠ [].
Proof.
  induction s as [|c s IH]; intros w; simpl; [done|].
  destruct (Py.isspace c); [done | apply IH].
Qed.

Lemma append_nonempty a b : a ≠ EmptyString → a +:+ b ≠ EmptyString.
Proof. destruct a; [done|]. by rewrite append_cons. Qed.

Lemma append_nonempty_r a b : b ≠ EmptyString → a +:+ b ≠ EmptyString.
Proof. destruct a; [done|]. by rewrite append_cons. Qed.

Lemma split_from_words s : ∀ cur,
  (∀ w, cur = Some w → w ≠ EmptyString) →
  Forall (λ w, w ≠ EmptyString) (split_from cur s).
Proof.
  induction s as [|c s IH]; intros cur Hcur; simpl.
  - destruct cur as [w|]; [|constructor]. constructor; [by apply Hcur | constructor].
  - destruct (Py.isspace c).
    + destruct cur as [w|].
      * constructor; [by apply Hcur|]. by apply IH.
      * by apply IH.
    + apply IH. intros w [= <-]. by apply append_nonempty_r.
Qed.

Lemma split_from_word s : ∀ cur,
  string_forall word_char s = true → s ≠ EmptyString →
  split_from cur s = [default EmptyString cur +:+ s].
Proof.
  induction s as [|c s IH]; intros cur Hs Hne; [done|].
  cbn [string_forall] in Hs. apply andb_true_iff in Hs as [Hc Hs].
  apply negb_true_iff in Hc. cbn [split_from]. rewrite Hc.
  destruct s as [|c' s].
  - done.
  - rewrite IH by done. simpl. by rewrite append_assoc.
Qed.

Lemma join_nonempty sep w ws : w ≠ EmptyString → join sep (w :: ws) ≠ EmptyString.
Proof.
  intros Hw. cbn [join]. destruct ws; [done|]. by apply append_nonempty.
Qed.

Lemma strip_after_word (W s : string) c w :
  W = String c w → Py.isspace c = false → s ≠ EmptyString → Py.strip s = s →
  Py.strip (W +:+ s) = W +:+ s.
Proof.
  intros -> Hc Hne Hs. destruct (strip_fixed s Hs) as [_ Hr]. unfold Py.strip.
  rewrite append_cons. cbn [Py.lstrip]. rewrite Hc, <-append_cons.
  rewrite rstrip_app by (by rewrite Hr). by rewrite Hr.
Qed.

End Words.

(** A query that starts with the word [show] matches no command pattern and
    is answered by the find handler: the name looked up is made of the words
    after [show], joined by single blanks, which for a one-word name is the
    name itself. *)
Theorem show_is_find (save_error : string → option string)
    (h : heap) (kg : KnowledgeGraph) (s : string) :
  s ≠ EmptyString → Py.strip s = s →
  execute_query save_error h kg ("show " +:+ s)
  = _handle_find h kg (join " " (split s))
  ∧ (string_forall word_char s = true → join " " (split s) = s).
Proof.
  intros Hne Hs. split.
  - unfold execute_query.
    rewrite (strip_after_word "show " s "s" "how ") by done.
    assert (Hnone : first_match command_patterns ("show " +:+ s) = None) by reflexivity.
    rewrite Hnone.
    assert (Hc : Py.contains "find" (Py.lower ("show " +:+ s))
                 || Py.contains "show" (Py.lower ("show " +:+ s)) = true).
    { apply orb_true_iff. right. reflexivity. }
    rewrite Hc.
    assert (Hsplit : split ("show " +:+ s) = "show" :: split s) by reflexivity.
    rewrite Hsplit.
    destruct (strip_fixed s Hs) as [Hl _]. destruct s as [|c s']; [done|].
    pose proof (lstrip_head c s' Hl) as Hsp.
    pose proof (split_from_words (String c s') None ltac:(done)) as Hwords.
    fold (split (String c s')) in Hwords.
    destruct (split (String c s')) as [|w ws] eqn:Hsw.
    { unfold split in Hsw. cbn [split_from] in Hsw. rewrite Hsp in Hsw.
      by apply split_from_some in Hsw. }
    apply Forall_cons in Hwords as [Hw _].
    rewrite decide_False by (by apply join_nonempty). done.
  - intros Hword. unfold split. rewrite split_from_word by done. done.
Qed.

Lemma show_is_find_witness :
  execute_query (λ _, None) chain_heap chain_kg "show B"
  = _handle_find chain_heap chain_kg "B".
Proof.
  destruct (show_is_find (λ _, None) chain_heap chain_kg "B") as [H1 H2];
    [discriminate | reflexivity |].
  change "show B" with ("show " +:+ "B"). rewrite H1, H2; reflexivity.
Defined.

(** [count entities] and [count relations], in any letter case, answer with
    the per-type counts and a total that is the number of stored entities
    (of relations); any other argument is taken as an entity type and the
    single count, under the argument as typed, is the number of entities
    whose type equals it up to letter case. *)
Theorem _handle_count_totals (h : heap) (kg : KnowledgeGraph) (name : string) :
  (Py.lower name = "entities" →
   _handle_count h kg name
   = Ok (mkResponse true ("Count for " +:+ name)
           (Some (CountData (_count_entity_types h kg)
                            (Z.of_nat (length (entities kg)))))))
  ∧ (Py.lower name = "relations" →
     _handle_count h kg name
     = Ok (mkResponse true ("Count for " +:+ name)
             (Some (CountData (_count_relation_types kg)
                              (Z.of_nat (length (relations kg)))))))
  ∧ (Py.lower name ≠ "entities" → Py.lower name ≠ "relations" →
     let n := Z.of_nat (length (filter
                (λ r, Py.lower (heap_entity_type h r) = Py.lower name)
                (dict_values (entities kg)))) in
     _handle_count h kg name
     = Ok (mkResponse true ("Count for " +:+ name)
             (Some (CountData [(name, n)] n)))).
Proof.
  unfold _handle_count. split_and!.
  - intros Hn. rewrite decide_True by done. do 4 f_equal.
    change (_count_entity_types h kg)
      with (count_by (heap_entity_type h) (dict_values (entities kg))).
    destruct (count_by_spec (heap_entity_type h) (dict_values (entities kg)))
      as (_ & _ & _ & ->).
    unfold dict_values. by rewrite length_fmap.
  - intros Hn. rewrite decide_False by (rewrite Hn; discriminate).
    rewrite decide_True by done. do 4 f_equal.
    change (_count_relation_types kg) with (count_by relation_type (relations kg)).
    by destruct (count_by_spec relation_type (relations kg)) as (_ & _ & _ & ->).
  - intros H1 H2. rewrite !decide_False by done. do 4 f_equal.
    unfold sum_values. simpl. lia.
Qed.

(** * Looking up entities for relations *)

Section FindEntity.

Lemma prefix_refl s : String.prefix s s = true.
Proof.
  induction s as [|c s IH]; [done|]. simpl.
  destruct (Ascii.ascii_dec c c); [exact IH | congruence].
Qed.

Lemma contains_refl s : Py.contains s s = true.
Proof. destruct s as [|c s]; [done|]. cbn [Py.contains]. by rewrite prefix_refl. Qed.

Lemma contains_empty s : Py.contains EmptyString s = true.
Proof. by destruct s. Qed.

Lemma find_fuzzy_Some text_lower items e :
  RelationExtractor.find_fuzzy text_lower items = Some e →
  ∃ key, (key, e) ∈ items
         ∧ (Py.contains text_lower key = true ∨ Py.contains key text_lower = true).
Proof.
  induction items as [|[key r] items IH]; [done|]. simpl.
  destruct (Py.contains text_lower key || Py.contains key text_lower) eqn:Hc.
  - intros [= ->]. exists key. split; [by left|]. by apply orb_true_iff.
  - intros (k & Hin & Hk)%IH. exists k. split; [by right | done].
Qed.

Lemma find_fuzzy_None text_lower items :
  RelationExtractor.find_fuzzy text_lower items = None
  ↔ ∀ key, key ∈ dict_keys items →
           Py.contains text_lower key = false ∧ Py.contains key text_lower = false.
Proof.
  unfold dict_keys. induction items as [|[key r] items IH]; simpl.
  - split; [|done]. intros _ key Hk. by apply elem_of_nil in Hk.
  - destruct (Py.contains text_lower key || Py.contains key text_lower) eqn:Hc.
    + split; [done|]. intros Hall.
      destruct (Hall key) as [H1 H2]; [by left|]. by rewrite H1, H2 in Hc.
    + rewrite IH. apply orb_false_iff in Hc. split.
      * intros Hall k [->|Hk]%elem_of_cons; [done | by apply Hall].
      * intros Hall k Hk. apply Hall. by right.
Qed.

Lemma find_entity_elem text entity_lookup e :
  RelationExtractor._find_entity text entity_lookup = Some e →
  ∃ key, (key, e) ∈ entity_lookup
         ∧ (Py.contains (Py.lower text) key = true
            ∨ Py.contains key (Py.lower text) = true).
Proof.
  unfold RelationExtractor._find_entity.
  destruct (dict_get (Py.lower text) entity_lookup) as [r|] eqn:Hget.
  - intros [= ->]. exists (Py.lower text). split.
    + by apply dict_get_Some_elem.
    + left. apply contains_refl.
  - apply find_fuzzy_Some.
Qed.

End FindEntity.

(** [_find_entity] looks the text up in lower case.  An exact key wins;
    otherwise the answer is the entity of the first key, in the order of the
    lookup, that contains the text or is contained in it; the answer is
    [None] exactly when no key is related to the text in that way.  Hence the
    empty text finds an entity in every lookup that is not empty. *)
Theorem _find_entity_spec (text : string) (entity_lookup : list (string * ref)) :
  (∀ e, dict_get (Py.lower text) entity_lookup = Some e →
        RelationExtractor._find_entity text entity_lookup = Some e)
  ∧ (∀ e, RelationExtractor._find_entity text entity_lookup = Some e →
          ∃ key, (key, e) ∈ entity_lookup
                 ∧ (Py.contains (Py.lower text) key = true
                    ∨ Py.contains key (Py.lower text) = true))
  ∧ (RelationExtractor._find_entity text entity_lookup = None
     ↔ ∀ key, key ∈ dict_keys entity_lookup →
              Py.contains (Py.lower text) key = false
              ∧ Py.contains key (Py.lower text) = false)
  ∧ (∀ key e rest, entity_lookup = (key, e) :: rest →
       RelationExtractor._find_entity EmptyString entity_lookup
       = Some (default e (dict_get EmptyString entity_lookup))).
Proof.
  unfold RelationExtractor._find_entity. split_and!.
  - by intros e ->.
  - intros e. apply find_entity_elem.
  - destruct (dict_get (Py.lower text) entity_lookup) as [r|] eqn:Hget.
    + split; [done|]. intros Hall.
      destruct (Hall (Py.lower text)) as [Hc _].
      { apply dict_get_is_Some. by eexists. }
      by rewrite contains_refl in Hc.
    + apply find_fuzzy_None.
  - intros key e rest ->. simpl. case_decide; [done|]. simpl.
    rewrite contains_empty. simpl.
    by destruct (dict_get EmptyString rest).
Qed.

Section Lookup.
Variable h : heap.

Lemma entity_lookup_loop (entities : list ref) : ∀ acc key,
  dict_get key
    (foldl (λ entity_lookup entity,
              dict_set (Py.lower (heap_text h entity) +:+ "_" +:+ heap_entity_type h entity)
                       entity
                       (dict_set (Py.lower (heap_text h entity)) entity entity_lookup))
           acc entities)
  = match last (filter (λ e, key ∈ lookup_keys h e) entities) with
    | Some e => Some e
    | None => dict_get key acc
    end.
Proof.
  induction entities as [|e entities IH]; intros acc key; [done|].
  cbn [foldl]. rewrite IH, filter_cons.
  destruct (decide (key ∈ lookup_keys h e)) as [Hin|Hout].
  - destruct (filter _ entities) as [|x l] eqn:Hf using rev_ind.
    + simpl. unfold lookup_keys in Hin.
      apply elem_of_cons in Hin as [->|Hin].
      * destruct (decide (Py.lower (heap_text h e) +:+ "_" +:+ heap_entity_type h e
                          = Py.lower (heap_text h e))) as [Heq|Hne].
        -- rewrite Heq at 1. by rewrite dict_get_set_eq.
        -- rewrite dict_get_set_ne by done. by rewrite dict_get_set_eq.
      * apply list_elem_of_singleton in Hin as ->. by rewrite dict_get_set_eq.
    + rewrite app_comm_cons, !last_snoc. done.
  - destruct (last (filter _ entities)); [done|].
    unfold lookup_keys in Hout. rewrite !not_elem_of_cons in Hout.
    destruct Hout as (H1 & H2 & _).
    rewrite !dict_get_set_ne by done. done.
Qed.

Lemma entity_lookup_get (entities : list ref) key :
  dict_get key (RelationExtractor.entity_lookup_of h entities)
  = last (filter (λ e, key ∈ lookup_keys h e) entities).
Proof.
  unfold RelationExtractor.entity_lookup_of. rewrite entity_lookup_loop.
  by destruct (last _).
Qed.

Lemma entity_lookup_values (entities : list ref) key e :
  (key, e) ∈ RelationExtractor.entity_lookup_of h entities → e ∈ entities.
Proof.
  unfold RelationExtractor.entity_lookup_of.
  assert (Hloop : ∀ l acc,
            (key, e) ∈ foldl (λ entity_lookup entity,
               dict_set (Py.lower (heap_text h entity) +:+ "_" +:+ heap_entity_type h entity)
                        entity
                        (dict_set (Py.lower (heap_text h entity)) entity entity_lookup))
              acc l →
            e ∈ l ∨ (key, e) ∈ acc).
  { induction l as [|x l IH]; intros acc Hin; [by right|].
    cbn [foldl] in Hin. apply IH in Hin as [Hin|Hin]; [left; by right|].
    apply dict_set_elem in Hin as [[_ ->]|Hin]; [left; by left|].
    apply dict_set_elem in Hin as [[_ ->]|Hin]; [left; by left|]. by right. }
  intros Hin. apply Hloop in Hin as [?|Hin]; [done|]. by apply elem_of_nil in Hin.
Qed.

End Lookup.

(** The lookup that [extract] builds maps a key to the last entity of the
    list entered under it, by its lower-cased text or by that text followed by
    [_] and its type.  So every entity of the list is found by its own text in
    any letter case, and whatever [_find_entity] answers in this lookup is an
    entity of the list. *)
Theorem entity_lookup_finds (h : heap) (entities : list ref) :
  let entity_lookup := RelationExtractor.entity_lookup_of h entities in
  (∀ key, dict_get key entity_lookup
          = last (filter (λ e, key ∈ lookup_keys h e) entities))
  ∧ (∀ e text, e ∈ entities → Py.lower text = Py.lower (heap_text h e) →
       ∃ r, RelationExtractor._find_entity text entity_lookup = Some r
            ∧ r ∈ entities ∧ Py.lower text ∈ lookup_keys h r)
  ∧ (∀ text r, RelationExtractor._find_entity text entity_lookup = Some r →
       r ∈ entities).
Proof.
  intros entity_lookup. subst entity_lookup. split_and!.
  - apply entity_lookup_get.
  - intros e text He Htext. unfold RelationExtractor._find_entity.
    rewrite entity_lookup_get.
    assert (Hin : e ∈ filter (λ e0, Py.lower text ∈ lookup_keys h e0) entities).
    { apply list_elem_of_filter. split; [|done]. rewrite Htext. by left. }
    destruct (filter _ entities) as [|x l] eqn:Hf using rev_ind.
    + by apply elem_of_nil in Hin.
    + rewrite last_snoc. exists x. split; [done|].
      assert (Hx : x ∈ filter (λ e0, Py.lower text ∈ lookup_keys h e0) entities).
      { rewrite Hf. apply elem_of_app. right. by left. }
      apply list_elem_of_filter in Hx as [? ?]. done.
  - intros text r Hfind.
    destruct (find_entity_elem _ _ _ Hfind) as (key & Hin & _).
    by eapply entity_lookup_values.
Qed.

Section RelationEnds.

Variable hash : string → Z.
Variable hash_pairs : list (string * string) → Z.
Variable relation_patterns : list (string * string).
Variable use_mlx : bool.
Variable sents : string → list string.
Variable doc : string → list Token.
Variable finditer : string → string → list (list (option string)).
Variable h : heap.

Lemma find_group_elem g entity_lookup r :
  RelationExtractor.find_group g entity_lookup = Some (Some r) →
  ∃ key, (key, r) ∈ entity_lookup.
Proof.
  unfold RelationExtractor.find_group. destruct g as [text|]; [|done]. simpl.
  intros [= Hfind]. apply find_entity_elem in Hfind as (key & Hin & _). by exists key.
Qed.

Lemma relation_if_ends entity_lookup s t ty sent rel :
  (∀ r, s = Some r → ∃ key, (key, r) ∈ entity_lookup) →
  (∀ r, t = Some r → ∃ key, (key, r) ∈ entity_lookup) →
  rel ∈ RelationExtractor.relation_if s t ty sent →
  ends_in entity_lookup rel ∧ sentence rel = sent.
Proof.
  intros Hs Ht. unfold RelationExtractor.relation_if.
  destruct s as [s|], t as [t|]; try (by intros ?%elem_of_nil).
  intros ->%list_elem_of_singleton. split; [|done]. split; simpl; eauto.
Qed.

Lemma relations_of_match_ends ty sent entity_lookup m rs rel :
  RelationExtractor.relations_of_match ty sent entity_lookup m = Some rs →
  rel ∈ rs → ends_in entity_lookup rel ∧ sentence rel = sent.
Proof.
  unfold RelationExtractor.relations_of_match.
  destruct (bool_decide _).
  - destruct (RelationExtractor.group m 1) as [person|]; [|done].
    destruct (RelationExtractor.group m 3) as [org|]; [|done]. simpl.
    destruct (RelationExtractor.find_group person entity_lookup) as [s|] eqn:Hs; [|done].
    destruct (RelationExtractor.find_group org entity_lookup) as [t|] eqn:Ht; [|done].
    simpl. intros [= <-]. apply relation_if_ends.
    + intros r ->. by eapply find_group_elem.
    + intros r ->. by eapply find_group_elem.
  - destruct (bool_decide _); [|by intros [= <-] ?%elem_of_nil].
    destruct (RelationExtractor.group m 1) as [person1|]; [|done].
    destruct (RelationExtractor.group m 3) as [person2|]; [|done].
    destruct (RelationExtractor.group m 4) as [role|]; [|done]. simpl.
    destruct (RelationExtractor.find_group person1 entity_lookup) as [s|] eqn:Hs; [|done].
    destruct (RelationExtractor.find_group person2 entity_lookup) as [t|] eqn:Ht; [|done].
    simpl. intros [= <-]. apply relation_if_ends.
    + intros r ->. by eapply find_group_elem.
    + intros r ->. by eapply find_group_elem.
Qed.

Lemma elem_of_concat {B} (k : list (list B)) y :
  y ∈ concat k → ∃ ys, y ∈ ys ∧ ys ∈ k.
Proof.
  induction k as [|ys k IH]; simpl; [by intros ?%elem_of_nil|].
  intros [Hy|Hy]%elem_of_app.
  - exists ys. split; [done | by left].
  - destruct (IH Hy) as (zs & Hz & Hzs). exists zs. split; [done | by right].
Qed.

Lemma mapM_concat_elem {A B} (f : A → option (list B)) (l : list A) (k : list (list B)) y :
  mapM f l = Some k → y ∈ concat k → ∃ x ys, x ∈ l ∧ f x = Some ys ∧ y ∈ ys.
Proof.
  intros Hm Hy. apply mapM_Some in Hm.
  apply elem_of_concat in Hy as (ys & Hy & Hys).
  apply list_elem_of_lookup in Hys as [i Hi].
  destruct (Forall2_lookup_r _ _ _ _ _ Hm Hi) as (x & Hx & Hfx).
  exists x, ys. split_and!; [by eapply list_elem_of_lookup_2 | done | done].
Qed.

Lemma _extract_with_patterns_ends sent entity_lookup rs rel :
  RelationExtractor._extract_with_patterns relation_patterns finditer
    sent entity_lookup = Some rs →
  rel ∈ rs → ends_in entity_lookup rel ∧ sentence rel = sent.
Proof.
  unfold RelationExtractor._extract_with_patterns.
  destruct (mapM _ relation_patterns) as [per_pattern|] eqn:Hpp; [|done]. simpl.
  intros [= <-] Hrel.
  destruct (mapM_concat_elem _ _ _ _ Hpp Hrel) as (p & ys & _ & Hp & Hys).
  destruct (mapM _ (finditer p.2 sent)) as [per_match|] eqn:Hpm; [|done].
  simpl in Hp. injection Hp as <-.
  destruct (mapM_concat_elem _ _ _ _ Hpm Hys) as (m & zs & _ & Hm & Hzs).
  by eapply relations_of_match_ends.
Qed.

Lemma sentence_entities_elem entity_lookup d i r :
  (i, r) ∈ RelationExtractor.sentence_entities entity_lookup d →
  ∃ key, (key, r) ∈ entity_lookup.
Proof.
  unfold RelationExtractor.sentence_entities.
  intros (o & Ho & Hid)%list_elem_of_omap. simpl in Hid. subst o.
  apply list_elem_of_lookup in Ho as [j Hj]. rewrite list_lookup_imap in Hj.
  destruct (d !! j) as [token|]; [|done]. simpl in Hj.
  destruct (dict_get _ entity_lookup) as [e|] eqn:Hget; [|done].
  simpl in Hj. injection Hj as <- <-. eexists. by eapply dict_get_Some_elem.
Qed.

Lemma first_child_elem d se deps children r :
  RelationExtractor.first_child d se deps children = Some r → ∃ i, (i, r) ∈ se.
Proof.
  induction children as [|i children IH]; [done|]. simpl.
  destruct (d !! i) as [child|]; [|done].
  destruct (dict_get i se) as [entity|] eqn:Hget; [|done].
  destruct (bool_decide _); [|done].
  intros [= <-]. exists i. by apply dict_get_Some_elem.
Qed.

Lemma _extract_with_syntax_ends sent entity_lookup rel :
  rel ∈ RelationExtractor._extract_with_syntax doc sent entity_lookup →
  ends_in entity_lookup rel ∧ sentence rel = sent.
Proof.
  unfold RelationExtractor._extract_with_syntax.
  intros (token & _ & Hrel)%list_elem_of_omap.
  destruct (bool_decide _); [|done].
  destruct (RelationExtractor.first_child _ _ _ _) as [subject|] eqn:Hs; [|done].
  destruct (RelationExtractor.first_child _ _ ["dobj"; "pobj"] _) as [object|] eqn:Ho;
    [|done].
  injection Hrel as <-. split; [|done].
  apply first_child_elem in Hs as [i Hi]. apply first_child_elem in Ho as [j Hj].
  split; simpl; by eapply sentence_entities_elem.
Qed.

Lemma _process_sentence_ends sent entity_lookup rs rel :
  RelationExtractor._process_sentence relation_patterns use_mlx doc finditer
    sent entity_lookup = Some rs →
  rel ∈ rs → ends_in entity_lookup rel ∧ sentence rel = sent.
Proof.
  unfold RelationExtractor._process_sentence.
  destruct (RelationExtractor._extract_with_patterns _ _ _ _) as [bp|] eqn:Hbp; [|done].
  simpl. intros [= <-]. rewrite !elem_of_app. intros [Hin|[Hin|Hin]].
  - by eapply _extract_with_patterns_ends.
  - by apply _extract_with_syntax_ends.
  - destruct use_mlx; by apply elem_of_nil in Hin.
Qed.

Lemma extend_all_elem (results : list (option (list Relation))) rels rel :
  RelationExtractor.extend_all results = Ok rels → rel ∈ rels →
  ∃ rs, Some rs ∈ results ∧ rel ∈ rs.
Proof.
  revert rels. induction results as [|[rs|] results IH]; intros rels; simpl.
  - intros [= <-] ?%elem_of_nil. done.
  - destruct (RelationExtractor.extend_all results) as [rest|e]; [|done]. simpl.
    intros [= <-] [Hin|Hin]%elem_of_app.
    + exists rs. split; [by left | done].
    + destruct (IH rest eq_refl Hin) as (rs' & Hrs & Hrel).
      exists rs'. split; [by right | done].
  - done.
Qed.

Lemma entity_dict_values (entities : list ref) key e :
  (key, e) ∈ RelationExtractor.entity_dict_of h entities → e ∈ entities.
Proof.
  unfold RelationExtractor.entity_dict_of.
  assert (Hloop : ∀ l acc,
            (key, e) ∈ foldl (λ entity_dict e0, dict_set (heap_text h e0) e0 entity_dict)
                             acc l →
            e ∈ l ∨ (key, e) ∈ acc).
  { induction l as [|x l IH]; intros acc Hin; [by right|].
    cbn [foldl] in Hin. apply IH in Hin as [Hin|Hin]; [left; by right|].
    apply dict_set_elem in Hin as [[_ ->]|Hin]; [left; by left | by right]. }
  intros Hin. apply Hloop in Hin as [?|Hin]; [done|]. by apply elem_of_nil in Hin.
Qed.

Lemma relations_of_cached_ends entities cached rel :
  rel ∈ RelationExtractor.relations_of_cached h entities cached →
  source rel ∈ entities ∧ target rel ∈ entities.
Proof.
  unfold RelationExtractor.relations_of_cached.
  intros (r & _ & Hrel)%list_elem_of_omap.
  destruct (dict_get (rd_source r) _) as [s|] eqn:Hs; [|done].
  destruct (dict_get (rd_target r) _) as [t|] eqn:Ht; [|done].
  injection Hrel as <-. simpl.
  apply dict_get_Some_elem in Hs, Ht. split; by eapply entity_dict_values.
Qed.

End RelationEnds.

Section CacheSteps.
Context {V : Type}.
Variable hash : string → Z.

Lemma get_max_size (c : Cache V) key : max_size (get hash c key).2 = max_size c.
Proof.
  unfold get. destruct (dict_get key (cache c)); [done|].
  destruct (file_exists _ _); [|done].
  destruct (read_file _ _) as [value|]; [|done].
  unfold _prune_cache. cbn [cache max_size cache_dir].
  destruct (prune _ _ _ _) as [[m dir] [e|]]; done.
Qed.

Lemma get_nothing (c : Cache V) key :
  (0 ≤ max_size c)%Z → (get hash c key).1 = None → get hash c key = (None, c).
Proof.
  intros Hcap Hnone. destruct (dict_get key (cache c)) as [value|] eqn:Hget.
  - unfold get in Hnone. by rewrite Hget in Hnone.
  - rewrite get_miss_unfold in Hnone |- * by done.
    destruct (read_file _ _) as [value|]; [|done]. cbn zeta in *.
    by destruct (file_exists _ _).
Qed.

Lemma get_keys_NoDup (c : Cache V) key :
  (0 ≤ max_size c)%Z → NoDup (dict_keys (cache c)) →
  NoDup (dict_keys (cache (get hash c key).2)).
Proof.
  intros Hcap Hnd. destruct (dict_get key (cache c)) as [value|] eqn:Hget.
  - rewrite (get_hit hash c key value Hnd Hget). cbn [snd cache].
    unfold dict_keys. rewrite fmap_app. fold (dict_keys (dict_remove key (cache c))).
    rewrite dict_remove_keys by done. simpl.
    apply NoDup_app. split_and!.
    + by apply NoDup_filter.
    + intros x [Hne _]%list_elem_of_filter Hx%list_elem_of_singleton. done.
    + apply NoDup_singleton.
  - rewrite get_miss_unfold by done.
    destruct (read_file _ _) as [value|]; [|done]. cbn zeta.
    destruct (file_exists _ _); [|done]. cbn [snd cache].
    apply drop_keys_NoDup. by apply dict_set_NoDup.
Qed.

End CacheSteps.

Section RelationExtract.

Variable hash : string → Z.
Variable hash_pairs : list (string * string) → Z.
Variable relation_patterns : list (string * string).
Variable use_mlx : bool.
Variable sents : string → list string.
Variable doc : string → list Token.
Variable finditer : string → string → list (list (option string)).
Variable h : heap.

Let extract := RelationExtractor.extract hash hash_pairs relation_patterns use_mlx
                 sents doc finditer h.
Let computed (text : string) (entities : list ref) :=
  RelationExtractor.extend_all
    (parallel_process (sents text)
       (λ sent, RelationExtractor._process_sentence relation_patterns use_mlx doc
                  finditer sent (RelationExtractor.entity_lookup_of h entities))).

Lemma computed_ends text entities rels rel :
  computed text entities = Ok rels → rel ∈ rels →
  source rel ∈ entities ∧ target rel ∈ entities ∧ sentence rel ∈ sents text.
Proof.
  intros Hres Hrel. destruct (extend_all_elem _ _ _ Hres Hrel) as (rs & Hrs & Hin).
  unfold parallel_process in Hrs. apply list_elem_of_fmap in Hrs as (sent & Hsent & Hs).
  symmetry in Hsent.
  destruct (_process_sentence_ends _ _ _ _ _ _ _ _ Hsent Hin) as [[[k1 H1] [k2 H2]] ->].
  split_and!; [by eapply entity_lookup_values | by eapply entity_lookup_values | done].
Qed.

Lemma extract_miss now c text entities :
  (0 ≤ max_size c)%Z →
  (get hash c (RelationExtractor.cache_key_of hash hash_pairs h text entities)).1 = None →
  extract now c text entities
  = (relations ← computed text entities;
     c' ← set hash now c (RelationExtractor.cache_key_of hash hash_pairs h text entities)
                (RelationList (Relation_to_dict h <$> relations));
     Ok (c', relations)).
Proof.
  intros Hcap Hnone. unfold extract, RelationExtractor.extract.
  by rewrite (get_nothing hash c _ Hcap Hnone).
Qed.

Lemma entity_dict_loop (entities : list ref) : ∀ acc key,
  dict_get key (foldl (λ entity_dict e, dict_set (heap_text h e) e entity_dict)
                      acc entities)
  = match last (filter (λ e, heap_text h e = key) entities) with
    | Some e => Some e
    | None => dict_get key acc
    end.
Proof.
  induction entities as [|e entities IH]; intros acc key; [done|].
  cbn [foldl]. rewrite IH, filter_cons.
  destruct (decide (heap_text h e = key)) as [<-|Hne].
  - destruct (filter _ entities) as [|x l] using rev_ind.
    + simpl. by rewrite dict_get_set_eq.
    + by rewrite app_comm_cons, !last_snoc.
  - destruct (last (filter _ entities)); [done|]. by rewrite dict_get_set_ne.
Qed.

Lemma entity_dict_get (entities : list ref) e :
  NoDup (heap_text h <$> entities) → e ∈ entities →
  dict_get (heap_text h e) (RelationExtractor.entity_dict_of h entities) = Some e.
Proof.
  intros Hnd He. unfold RelationExtractor.entity_dict_of. rewrite entity_dict_loop.
  assert (Hf : filter (λ e0, heap_text h e0 = heap_text h e) entities = [e]).
  { clear -Hnd He. induction entities as [|x l IH]; [by apply elem_of_nil in He|].
    rewrite fmap_cons in Hnd. apply NoDup_cons in Hnd as [Hx Hnd].
    rewrite filter_cons. apply elem_of_cons in He as [->|He].
    - rewrite decide_True by done. f_equal. apply filter_none.
      intros y Hy Heq. apply Hx. rewrite <-Heq. by apply list_elem_of_fmap_2.
    - rewrite decide_False; [by apply IH|].
      intros Heq. apply Hx. rewrite Heq. by apply list_elem_of_fmap_2. }
  by rewrite Hf.
Qed.

Lemma relations_of_cached_round entities rels :
  NoDup (heap_text h <$> entities) →
  (∀ rel, rel ∈ rels → source rel ∈ entities ∧ target rel ∈ entities) →
  RelationExtractor.relations_of_cached h entities (Relation_to_dict h <$> rels) = rels.
Proof.
  intros Hnd Hends. unfold RelationExtractor.relations_of_cached. cbn zeta.
  set (f := λ r : RelationDict, _).
  assert (Hf : ∀ rel, source rel ∈ entities → target rel ∈ entities →
                      f (Relation_to_dict h rel) = Some rel).
  { intros rel Hs Ht. subst f. cbn beta. unfold Relation_to_dict.
    cbn [rd_source rd_target rd_relation_type rd_sentence].
    rewrite !entity_dict_get by done. by destruct rel. }
  induction rels as [|rel rels IH]; [done|]. rewrite fmap_cons.
  change (omap f (Relation_to_dict h rel :: (Relation_to_dict h <$> rels)))
    with (match f (Relation_to_dict h rel) with
          | Some y => y :: omap f (Relation_to_dict h <$> rels)
          | None => omap f (Relation_to_dict h <$> rels)
          end).
  destruct (Hends rel) as [Hs Ht]; [by left|].
  rewrite Hf by done. rewrite IH; [done|].
  intros r Hr. apply Hends. by right.
Qed.

End RelationExtract.

Lemma extract_relations_ends (hash : string → Z)
    (hash_pairs : list (string * string) → Z)
    (relation_patterns : list (string * string)) (use_mlx : bool)
    (sents : string → list string) (doc : string → list Token)
    (finditer : string → string → list (list (option string)))
    (h : heap) (now : Z) (c c' : Cache CacheValue) (text : string)
    (entities : list ref) (rels : list Relation) :
  RelationExtractor.extract hash hash_pairs relation_patterns use_mlx sents doc
    finditer h now c text entities = Ok (c', rels) →
  ∀ rel, rel ∈ rels → source rel ∈ entities ∧ target rel ∈ entities.
Proof.
  unfold RelationExtractor.extract. cbn zeta.
  destruct (get hash c _) as [cached c1].
  assert (Hcomputed :
    (relations ← RelationExtractor.extend_all
                   (parallel_process (sents text)
                      (λ sent, RelationExtractor._process_sentence relation_patterns
                                 use_mlx doc finditer sent
                                 (RelationExtractor.entity_lookup_of h entities)));
     c2 ← set hash now c1
            (RelationExtractor.cache_key_of hash hash_pairs h text entities)
            (RelationList (Relation_to_dict h <$> relations));
     Ok (c2, relations)) = Ok (c', rels) →
    ∀ rel, rel ∈ rels → source rel ∈ entities ∧ target rel ∈ entities).
  { destruct (RelationExtractor.extend_all _) as [relations|e] eqn:Hres; [|done]. simpl.
    destruct (set hash now c1 _ _) as [c2|e]; [|done]. simpl.
    intros [= _ <-] rel Hrel.
    destruct (computed_ends _ _ _ _ _ _ _ _ _ _ Hres Hrel) as (? & ? & _). done. }
  destruct cached as [[[|e l]|[|r l]]|];
    [exact Hcomputed | intros [=] | exact Hcomputed | | exact Hcomputed].
  clear Hcomputed. intros Heq rel Hrel. injection Heq as _ <-.
  exact (relations_of_cached_ends h entities (r :: l) rel Hrel).
Qed.

(** Whatever the matcher and the parser answer, and whether the answer
    comes from the cache or is computed, every relation that
    [RelationExtractor.extract] returns joins two entities of the list it
    was given; when it is computed, its sentence is one of the sentences of
    the text. *)
Theorem extract_joins_entities (hash : string → Z)
    (hash_pairs : list (string * string) → Z)
    (relation_patterns : list (string * string)) (use_mlx : bool)
    (sents : string → list string) (doc : string → list Token)
    (finditer : string → string → list (list (option string)))
    (h : heap) (now : Z) (c c' : Cache CacheValue) (text : string)
    (entities : list ref) (rels : list Relation) :
  RelationExtractor.extract hash hash_pairs relation_patterns use_mlx sents doc
    finditer h now c text entities = Ok (c', rels) →
  (∀ rel, rel ∈ rels → source rel ∈ entities ∧ target rel ∈ entities)
  ∧ ((0 ≤ max_size c)%Z →
     (get hash c (RelationExtractor.cache_key_of hash hash_pairs h text entities)).1
     = None →
     ∀ rel, rel ∈ rels → sentence rel ∈ sents text).
Proof.
  intros Hex. split; [by eapply extract_relations_ends|].
  intros Hcap Hnone rel Hrel. rewrite extract_miss in Hex by done.
  destruct (RelationExtractor.extend_all _) as [relations|e] eqn:Hres; [|done].
  simpl in Hex. destruct (set hash now c _ _) as [c2|e]; [|done].
  simpl in Hex. injection Hex as _ <-.
  by destruct (computed_ends _ _ _ _ _ _ _ _ _ _ Hres Hrel) as (_ & _ & ?).
Qed.

Lemma extract_joins_entities_witness :
  ∃ c', RelationExtractor.extract sample_hash sample_hash_pairs default_relation_patterns
          false sample_sents sample_doc sample_finditer chain_heap 1 (Cache_init [] 5)
          "A founded B. C hires D." [0; 1; 2; 3]
        = Ok (c', [ mkRelation 0 1 "founded" "A founded B. C hires D.";
                    mkRelation 2 3 "hire" "A founded B. C hires D." ])
        ∧ source (mkRelation 2 3 "hire" "A founded B. C hires D.") ∈ [0; 1; 2; 3]
        ∧ target (mkRelation 2 3 "hire" "A founded B. C hires D.") ∈ [0; 1; 2; 3].
Proof.
  eexists. split; [vm_compute; reflexivity|].
  eapply (extract_joins_entities sample_hash sample_hash_pairs default_relation_patterns
            false sample_sents sample_doc sample_finditer chain_heap 1 (Cache_init [] 5) _
            "A founded B. C hires D." [0; 1; 2; 3] _).
  - vm_compute. reflexivity.
  - right. left.
Defined.

(** [_extract_with_patterns] has a branch for the relation types
    [works_for], [founded], [created] and [has_role] only: a pattern
    configured under any other name is matched but never yields a relation
    and never makes the sentence fail, so of the six default patterns
    [located_in] and [born_in] contribute nothing. *)
Theorem unhandled_patterns_yield_nothing (relation_patterns : list (string * string))
    (finditer : string → string → list (list (option string)))
    (sent : string) (entity_lookup : list (string * ref)) :
  RelationExtractor._extract_with_patterns relation_patterns finditer sent entity_lookup
  = RelationExtractor._extract_with_patterns
      (filter (λ p, handled_pattern p.1) relation_patterns) finditer sent entity_lookup
  ∧ (filter (λ p, handled_pattern p.1) default_relation_patterns).*1
    = ["works_for"; "founded"; "created"; "has_role"].
Proof.
  split; [|reflexivity].
  unfold RelationExtractor._extract_with_patterns.
  set (f := λ p : string * string, _).
  assert (Hskip : ∀ p, ¬ handled_pattern p.1 → f p = Some []).
  { intros p Hp. subst f. cbn beta.
    assert (Hm : ∀ ms, mapM (RelationExtractor.relations_of_match p.1 sent entity_lookup) ms
                       = Some (replicate (length ms) [])).
    { intros ms. induction ms as [|m ms IH]; [done|]. cbn [mapM]. rewrite IH.
      unfold RelationExtractor.relations_of_match.
      rewrite bool_decide_eq_false_2.
      - rewrite bool_decide_eq_false_2; [done|].
        intros Heq. apply Hp. unfold handled_pattern. rewrite Heq. set_solver.
      - intros Hin. apply Hp. unfold handled_pattern. set_solver. }
    rewrite Hm. simpl. f_equal.
    induction (length (finditer p.2 sent)) as [|n IH]; [done|]. done. }
  assert (Hgo : ∀ ps, (mapM f ps ≫= λ per_pattern, Some (concat per_pattern))
                      = (mapM f (filter (λ p, handled_pattern p.1) ps)
                         ≫= λ per_pattern, Some (concat per_pattern))).
  { induction ps as [|p ps IH]; [done|]. rewrite filter_cons.
    destruct (decide (handled_pattern p.1)) as [Hp|Hp].
    - cbn [mapM]. destruct (f p) as [ys|]; [|done]. simpl.
      destruct (mapM f ps) as [k|], (mapM f (filter _ ps)) as [k'|];
        simpl in *; try done. by injection IH as ->.
    - rewrite <-IH. cbn [mapM]. rewrite (Hskip p Hp). simpl.
      by destruct (mapM f ps). }
  apply Hgo.
Qed.

(** The relations computed for a text come back from the cache.  When the
    cache has nothing under the key of a text and a list of entities with
    distinct texts, the relations [extract] computes and stores are exactly
    what a second [extract] of the same text and entities returns, in the
    same order and between the same objects (the capacity of the cache not
    being negative). *)
Theorem extract_relations_again (hash : string → Z)
    (hash_pairs : list (string * string) → Z)
    (relation_patterns : list (string * string)) (use_mlx : bool)
    (sents : string → list string) (doc : string → list Token)
    (finditer : string → string → list (list (option string)))
    (h : heap) (now now' : Z) (c c1 : Cache CacheValue) (text : string)
    (entities : list ref) (rels : list Relation) :
  (0 ≤ max_size c)%Z → NoDup (dict_keys (cache c)) →
  NoDup (heap_text h <$> entities) →
  (get hash c (RelationExtractor.cache_key_of hash hash_pairs h text entities)).1 = None →
  RelationExtractor.extract hash hash_pairs relation_patterns use_mlx sents doc
    finditer h now c text entities = Ok (c1, rels) →
  ∃ c2, RelationExtractor.extract hash hash_pairs relation_patterns use_mlx sents doc
          finditer h now' c1 text entities = Ok (c2, rels).
Proof.
  intros Hcap Hnd Htexts Hnone Hfirst.
  rewrite extract_miss in Hfirst by done.
  set (key := RelationExtractor.cache_key_of hash hash_pairs h text entities) in *.
  destruct (RelationExtractor.extend_all _) as [relations|e] eqn:Hres; [|done].
  simpl in Hfirst.
  destruct (get_after_set hash now c key (RelationList (Relation_to_dict h <$> relations))
              Hcap Hnd) as (c' & Hset & Hget & Hmax).
  rewrite Hset in Hfirst. simpl in Hfirst. injection Hfirst as <- <-.
  unfold RelationExtractor.extract. cbn zeta. fold key.
  pose proof (get_max_size hash c' key) as Hmax'.
  destruct (get hash c' key) as [cached c2]. simpl in Hget, Hmax'. subst cached.
  destruct relations as [|rel relations].
  - (* nothing was found: an empty list counts as no cached result *)
    cbn [fmap list_fmap]. rewrite Hres. simpl.
    assert (Hcap2 : (0 ≤ max_size c2)%Z) by (rewrite Hmax', Hmax; done).
    rewrite set_unfold by done. cbn zeta. by eexists.
  - rewrite fmap_cons. rewrite <-fmap_cons.
    exists c2. f_equal. f_equal.
    apply relations_of_cached_round; [done|].
    intros r Hr.
    destruct (computed_ends _ _ _ _ _ _ _ _ _ _ Hres Hr) as (? & ? & _). done.
Qed.

Lemma extract_relations_again_witness :
  ∃ c1 c2,
    RelationExtractor.extract sample_hash sample_hash_pairs default_relation_patterns
      false sample_sents sample_doc sample_finditer chain_heap 1 (Cache_init [] 5)
      "A founded B. C hires D." [0; 1; 2; 3]
    = Ok (c1, [ mkRelation 0 1 "founded" "A founded B. C hires D.";
                mkRelation 2 3 "hire" "A founded B. C hires D." ])
    ∧ RelationExtractor.extract sample_hash sample_hash_pairs default_relation_patterns
        false sample_sents sample_doc sample_finditer chain_heap 2 c1
        "A founded B. C hires D." [0; 1; 2; 3]
      = Ok (c2, [ mkRelation 0 1 "founded" "A founded B. C hires D.";
                  mkRelation 2 3 "hire" "A founded B. C hires D." ]).
Proof.
  assert (Hfirst : ∃ c1,
    RelationExtractor.extract sample_hash sample_hash_pairs default_relation_patterns
      false sample_sents sample_doc sample_finditer chain_heap 1 (Cache_init [] 5)
      "A founded B. C hires D." [0; 1; 2; 3]
    = Ok (c1, [ mkRelation 0 1 "founded" "A founded B. C hires D.";
                mkRelation 2 3 "hire" "A founded B. C hires D." ])).
  { eexists. vm_compute. reflexivity. }
  destruct Hfirst as [c1 Hfirst].
  destruct (extract_relations_again sample_hash sample_hash_pairs
              default_relation_patterns false sample_sents sample_doc sample_finditer
              chain_heap 1 2 (Cache_init [] 5) c1 "A founded B. C hires D." [0; 1; 2; 3]
              [ mkRelation 0 1 "founded" "A founded B. C hires D.";
                mkRelation 2 3 "hire" "A founded B. C hires D." ]) as [c2 Hc2].
  - simpl. lia.
  - simpl. constructor.
  - vm_compute. repeat constructor; set_solver.
  - reflexivity.
  - exact Hfirst.
  - exists c1, c2. split; [exact Hfirst | exact Hc2].
Defined.

(** * Merging extracted entities *)

Section Merge.

Lemma foldr_add_app (l1 l2 : list Z) :
  foldr Z.add 0%Z (l1 ++ l2) = (foldr Z.add 0 l1 + foldr Z.add 0 l2)%Z.
Proof. induction l1 as [|x l1 IH]; simpl; [done|]. rewrite IH. lia. Qed.

Lemma merged_from_other raw key x e :
  merge_key x ≠ key → merged_from raw key e → merged_from (raw ++ [x]) key e.
Proof.
  intros Hne. unfold merged_from. cbn zeta.
  rewrite filter_app, filter_cons, filter_nil, decide_False, app_nil_r by done. done.
Qed.

Lemma merged_from_first raw x :
  merge_key x ∉ merge_key <$> raw → merged_from (raw ++ [x]) (merge_key x) x.
Proof.
  intros Hnew. unfold merged_from. cbn zeta.
  rewrite filter_app, filter_cons, filter_nil, decide_True by done.
  rewrite (filter_none _ raw).
  - simpl. split_and!; [done | by exists x | lia |].
    apply leibniz_equiv. set_solver.
  - intros y Hy Heq. apply Hnew. rewrite <-Heq. by apply list_elem_of_fmap_2.
Qed.

Lemma merged_from_more raw x s :
  merged_from raw (merge_key x) s →
  merged_from (raw ++ [x]) (merge_key x)
    (mkEntity (text s) (normalized_text s) (entity_type s) (start s) (end_ s)
       (occurrences s + occurrences x) (mentions s ∪ mentions x)).
Proof.
  unfold merged_from. cbn zeta. intros (Hkey & (first & Hhead & Hfirst) & Hocc & Hmen).
  rewrite filter_app, filter_cons, filter_nil, decide_True by done.
  split_and!.
  - done.
  - exists first. split; [|done].
    destruct (filter _ raw); [done|]. done.
  - cbn [occurrences]. rewrite fmap_app, foldr_add_app, <-Hocc. simpl. lia.
  - cbn [mentions]. rewrite fmap_app, union_list_app_L, <-Hmen. simpl.
    apply leibniz_equiv. set_solver.
Qed.

Lemma merge_step h0 h d raw x :
  merge_inv h0 h d raw →
  match dict_get (merge_key x) d with
  | Some r => merge_inv h0 (Entity_update (h ++ [x]) r (length h)) d (raw ++ [x])
  | None => merge_inv h0 (h ++ [x]) (dict_set (merge_key x) (length h) d) (raw ++ [x])
  end.
Proof.
  intros [Hkeys Hdom Hval Hold Hlen].
  destruct (dict_get (merge_key x) d) as [r|] eqn:Hget.
  - (* the key is known: the stored object absorbs the new one *)
    apply dict_get_Some_elem in Hget as Hin.
    destruct (Hval _ _ Hin) as (Hr0 & s & Hs & Hm).
    assert (Hlt : r < length h) by (by eapply lookup_lt_Some).
    assert (Hs' : (h ++ [x]) !! r = Some s) by (by rewrite lookup_app_l).
    assert (Hx' : (h ++ [x]) !! length h = Some x).
    { rewrite lookup_app_r by lia. by rewrite Nat.sub_diag. }
    pose proof (Entity_update_self_full (h ++ [x]) r (length h) s x Hs' Hx') as Hnew.
    rewrite decide_False in Hnew by lia.
    split.
    + done.
    + intros key. rewrite Hdom, fmap_app, elem_of_app. simpl.
      rewrite list_elem_of_singleton. split; [by left|].
      intros [?| ->]; [done|]. apply Hdom. apply dict_get_is_Some. by eexists.
    + intros key r' Hin'. destruct (Hval _ _ Hin') as (Hr0' & s' & Hs'' & Hm').
      split; [done|].
      destruct (decide (key = merge_key x)) as [->|Hne].
      * assert (r' = r) as ->.
        { pose proof (dict_get_elem_NoDup _ _ _ Hkeys Hin') as Hg. congruence. }
        eexists. split; [exact Hnew|]. by apply merged_from_more.
      * assert (r' ≠ r).
        { intros ->. rewrite Hs in Hs''. injection Hs'' as <-.
          destruct Hm as [Hk _], Hm' as [Hk' _]. congruence. }
        exists s'. split.
        -- rewrite Entity_update_other by done. rewrite lookup_app_l; [done|].
           by eapply lookup_lt_Some.
        -- apply merged_from_other; [congruence | done].
    + intros i Hi. rewrite Entity_update_other by lia.
      rewrite lookup_app_l by lia. by apply Hold.
    + rewrite Entity_update_length, !length_app. simpl. lia.
  - apply dict_get_None in Hget as Hnew.
    split.
    + by apply dict_set_NoDup.
    + intros key. rewrite dict_keys_set_elem, Hdom, fmap_app, elem_of_app. simpl.
      rewrite list_elem_of_singleton. tauto.
    + intros key r' Hin'. apply dict_set_elem in Hin' as [[-> ->]|Hin'].
      * split; [lia|]. exists x. split.
        -- rewrite lookup_app_r by lia. by rewrite Nat.sub_diag.
        -- apply merged_from_first. by rewrite <-Hdom.
      * destruct (Hval _ _ Hin') as (Hr0' & s' & Hs'' & Hm'). split; [done|].
        exists s'. split.
        -- rewrite lookup_app_l; [done|]. by eapply lookup_lt_Some.
        -- apply merged_from_other; [|done]. intros Heq. apply Hnew.
           rewrite Heq. unfold dict_keys. by apply (list_elem_of_fmap_2 fst _ (key, r')).
    + intros i Hi. rewrite lookup_app_l by lia. by apply Hold.
    + rewrite !length_app. simpl. lia.
Qed.

Lemma merge_sentence_cons h d x rest :
  EntityExtractor.merge_sentence h d (x :: rest)
  = match dict_get (merge_key x) d with
    | Some r => EntityExtractor.merge_sentence (Entity_update (h ++ [x]) r (length h)) d rest
    | None => EntityExtractor.merge_sentence (h ++ [x])
                (dict_set (merge_key x) (length h) d) rest
    end.
Proof.
  cbn [EntityExtractor.merge_sentence alloc].
  unfold heap_normalized_text, heap_entity_type.
  rewrite lookup_app_r by lia. rewrite Nat.sub_diag. done.
Qed.

Lemma merge_sentence_inv h0 es : ∀ h d raw,
  merge_inv h0 h d raw →
  merge_inv h0 (EntityExtractor.merge_sentence h d es).1
               (EntityExtractor.merge_sentence h d es).2 (raw ++ es).
Proof.
  induction es as [|x es IH]; intros h d raw Hinv.
  - by rewrite app_nil_r.
  - rewrite merge_sentence_cons. pose proof (merge_step h0 h d raw x Hinv) as Hstep.
    replace (raw ++ x :: es) with ((raw ++ [x]) ++ es) by (by rewrite <-app_assoc).
    destruct (dict_get (merge_key x) d); by apply IH.
Qed.

Lemma merge_results_inv h0 results : ∀ h d raw,
  merge_inv h0 h d raw →
  match EntityExtractor.merge_results h d results with
  | Ok (h', d') => merge_inv h0 h' d' (raw ++ all_found results) ∧ None ∉ results
  | Raise e => e = TypeError ∧ None ∈ results
  end.
Proof.
  induction results as [|[es|] results IH]; intros h d raw Hinv.
  - simpl. rewrite app_nil_r. split; [done | apply not_elem_of_nil].
  - cbn [EntityExtractor.merge_results].
    pose proof (merge_sentence_inv h0 es h d raw Hinv) as Hs.
    destruct (EntityExtractor.merge_sentence h d es) as [h1 d1]. simpl in Hs.
    specialize (IH h1 d1 _ Hs).
    destruct (EntityExtractor.merge_results h1 d1 results) as [[h' d']|e].
    + unfold all_found in *. rewrite fmap_cons. simpl. rewrite app_assoc.
      destruct IH as [IH Hno]. split; [done|].
      intros [?|?]%elem_of_cons; done.
    + destruct IH as [-> Hin]. split; [done | by right].
  - simpl. split; [done | by left].
Qed.

Lemma merge_inv_init h0 : merge_inv h0 h0 [] [].
Proof.
  split.
  - constructor.
  - intros key. simpl. by rewrite !elem_of_nil.
  - intros key r Hin. by apply elem_of_nil in Hin.
  - done.
  - simpl. lia.
Qed.

End Merge.

Section EntityExtract.

Variable hash : string → Z.
Variable entity_types : list string.
Variable use_mlx : bool.
Variable sents : string → list string.
Variable ents : string → list Span.

Lemma all_found_kept text :
  all_found (parallel_process (sents text)
               (EntityExtractor._process_sentence entity_types use_mlx ents))
  = entity_of_span <$> kept_spans entity_types sents ents text.
Proof.
  unfold all_found, parallel_process, kept_spans.
  induction (sents text) as [|s l IH]; [done|].
  rewrite !fmap_cons. cbn [concat]. rewrite fmap_app, <-IH. f_equal.
  unfold EntityExtractor._process_sentence. cbn [default].
  destruct use_mlx; by rewrite app_nil_r.
Qed.

Lemma no_sentence_fails text :
  None ∉ parallel_process (sents text)
           (EntityExtractor._process_sentence entity_types use_mlx ents).
Proof.
  unfold parallel_process. intros (s & Hs & _)%list_elem_of_fmap. done.
Qed.

Lemma extract_entities_miss now h c text :
  (0 ≤ max_size c)%Z →
  (get hash c ("entities_" +:+ pretty (hash text))).1 = None →
  ∃ h' d,
    EntityExtractor.merge_results h []
      (parallel_process (sents text)
         (EntityExtractor._process_sentence entity_types use_mlx ents)) = Ok (h', d)
    ∧ merge_inv h h' d (entity_of_span <$> kept_spans entity_types sents ents text)
    ∧ EntityExtractor.extract hash entity_types use_mlx sents ents now h c text
      = (c' ← set hash now c ("entities_" +:+ pretty (hash text))
                (EntityList (EntityExtractor.cached_of h' <$> dict_values d));
         Ok (h', c', dict_values d)).
Proof.
  intros Hcap Hnone.
  pose proof (merge_results_inv h
                (parallel_process (sents text)
                   (EntityExtractor._process_sentence entity_types use_mlx ents))
                h [] [] (merge_inv_init h)) as Hinv.
  destruct (EntityExtractor.merge_results h [] _) as [[h' d]|e] eqn:Hres.
  - destruct Hinv as [Hinv _]. simpl in Hinv. rewrite all_found_kept in Hinv.
    exists h', d. split; [done|]. split; [done|].
    unfold EntityExtractor.extract. cbn zeta.
    rewrite (get_nothing hash c _ Hcap Hnone). by rewrite Hres.
  - destruct Hinv as [_ Hin]. by apply no_sentence_fails in Hin.
Qed.

End EntityExtract.

Lemma sum_of_ones (l : list Entity) :
  Forall (λ e, occurrences e = 1%Z) l →
  foldr Z.add 0%Z (occurrences <$> l) = Z.of_nat (length l).
Proof.
  induction 1 as [|e l He Hl IH]; [done|]. rewrite fmap_cons. simpl.
  rewrite IH, He. lia.
Qed.

(** [EntityExtractor.extract] on a text the cache knows nothing about does
    not raise (the capacity of the cache not being negative) and merges the
    spans it keeps, those with a configured label, by normalized text and
    type: the entities returned have pairwise different keys, every kept span
    is represented, and the entity of a key is the object made for the first
    span of that key, with as many occurrences as there are spans of the key
    and their texts as mentions.  The objects are new: no object that existed
    before is changed. *)
Theorem extract_merges_entities (hash : string → Z) (entity_types : list string)
    (use_mlx : bool) (sents : string → list string) (ents : string → list Span)
    (now : Z) (h : heap) (c : Cache CacheValue) (text : string) :
  (0 ≤ max_size c)%Z →
  (get hash c ("entities_" +:+ pretty (hash text))).1 = None →
  let raw := entity_of_span <$> kept_spans entity_types sents ents text in
  ∃ h' c' entities,
    EntityExtractor.extract hash entity_types use_mlx sents ents now h c text
    = Ok (h', c', entities)
    ∧ (∀ r, r ∈ entities →
         length h ≤ r
         ∧ ∃ e, h' !! r = Some e
                ∧ merged_from raw (merge_key e) e
                ∧ occurrences e
                  = Z.of_nat (length (filter (λ x, merge_key x = merge_key e) raw)))
    ∧ (∀ r1 r2 e1 e2,
         r1 ∈ entities → r2 ∈ entities → h' !! r1 = Some e1 → h' !! r2 = Some e2 →
         merge_key e1 = merge_key e2 → r1 = r2)
    ∧ (∀ x, x ∈ raw →
         ∃ r e, r ∈ entities ∧ h' !! r = Some e ∧ merge_key e = merge_key x)
    ∧ (∀ i, i < length h → h' !! i = h !! i).
Proof.
  intros Hcap Hnone raw.
  destruct (extract_entities_miss hash entity_types use_mlx sents ents now h c text
              Hcap Hnone) as (h' & d & _ & Hinv & Hex).
  fold raw in Hinv. rewrite Hex. rewrite set_unfold by done. cbn zeta. simpl.
  eexists h', _, (dict_values d). split; [done|].
  destruct Hinv as [Hkeys Hdom Hval Hold Hlen].
  assert (Hentity : ∀ r, r ∈ dict_values d → ∃ key, (key, r) ∈ d).
  { intros r (kr & -> & Hin)%list_elem_of_fmap. exists kr.1. by destruct kr. }
  split_and!.
  - intros r (key & Hin)%Hentity. destruct (Hval _ _ Hin) as (Hr & e & He & Hm).
    split; [done|]. exists e. split; [done|].
    pose proof Hm as (Hk & _ & Hocc & _). rewrite Hk. split; [done|].
    rewrite Hocc. apply sum_of_ones. apply Forall_forall.
    intros x [_ Hx]%list_elem_of_filter. subst raw.
    apply list_elem_of_fmap in Hx as (sp & -> & _). done.
  - intros r1 r2 e1 e2 (k1 & H1)%Hentity (k2 & H2)%Hentity He1 He2 Heq.
    destruct (Hval _ _ H1) as (_ & e1' & He1' & Hk1 & _).
    destruct (Hval _ _ H2) as (_ & e2' & He2' & Hk2 & _).
    assert (k1 = k2) as -> by congruence.
    pose proof (dict_get_elem_NoDup _ _ _ Hkeys H1).
    pose proof (dict_get_elem_NoDup _ _ _ Hkeys H2). congruence.
  - intros x Hx.
    assert (Hk : merge_key x ∈ dict_keys d).
    { apply Hdom. by apply list_elem_of_fmap_2. }
    apply dict_get_is_Some in Hk as [r Hr]. apply dict_get_Some_elem in Hr.
    destruct (Hval _ _ Hr) as (_ & e & He & Hk & _).
    exists r, e. split_and!; [|done..].
    unfold dict_values. by apply (list_elem_of_fmap_2 snd _ (merge_key x, r)).
  - done.
Qed.

Lemma extract_merges_entities_witness :
  ∃ c',
    EntityExtractor.extract sample_hash sample_entity_types false sample_sents
      sample_ents 1 [] (Cache_init [] 5) "Ada joined IBM; ada stays today."
    = Ok ([ mkEntity "Ada" "ada" "PERSON" 0 3 2 {[ "Ada"; "ada " ]};
            Entity_init "ada " "PERSON" 10 14; Entity_init "IBM" "ORG" 20 23 ],
          c', [0; 2]).
Proof.
  destruct (extract_merges_entities sample_hash sample_entity_types false sample_sents
              sample_ents 1 [] (Cache_init [] 5) "Ada joined IBM; ada stays today.")
    as (h' & c' & entities & Hex & _).
  - simpl. lia.
  - reflexivity.
  - exists c'. rewrite Hex. vm_compute in Hex. injection Hex as <- <- <-.
    vm_compute. reflexivity.
Defined.

(** A second [extract] of the same text answers from the cache, and what
    was cached is the text, type and position of each entity only: the
    entities returned are new objects, one per entity of the first answer in
    the same order, each with occurrence count 1 and its own text as only
    mention, whatever was merged the first time. *)
Theorem extract_entities_again (hash : string → Z) (entity_types : list string)
    (use_mlx : bool) (sents : string → list string) (ents : string → list Span)
    (now now' : Z) (h h1 : heap) (c c1 : Cache CacheValue) (text : string)
    (entities : list ref) :
  (0 ≤ max_size c)%Z → NoDup (dict_keys (cache c)) →
  (get hash c ("entities_" +:+ pretty (hash text))).1 = None →
  EntityExtractor.extract hash entity_types use_mlx sents ents now h c text
  = Ok (h1, c1, entities) →
  ∃ c2,
    EntityExtractor.extract hash entity_types use_mlx sents ents now' h1 c1 text
    = Ok (h1 ++ ((λ r, EntityExtractor.entity_of_cached
                          (EntityExtractor.cached_of h1 r)) <$> entities),
          c2, seq (length h1) (length entities)).
Proof.
  intros Hcap Hnd Hnone Hfirst.
  set (key := "entities_" +:+ pretty (hash text)) in *.
  destruct (extract_entities_miss hash entity_types use_mlx sents ents now h c text
              Hcap Hnone) as (h' & d & Hres & Hinv & Hex).
  fold key in Hex. rewrite Hex in Hfirst.
  destruct (get_after_set hash now c key
              (EntityList (EntityExtractor.cached_of h' <$> dict_values d)) Hcap Hnd)
    as (c' & Hset & Hget & Hmax).
  rewrite Hset in Hfirst. simpl in Hfirst. injection Hfirst as <- <- <-.
  unfold EntityExtractor.extract at 1. cbn zeta. fold key.
  pose proof (get_max_size hash c' key) as Hmax'.
  destruct (get hash c' key) as [cached c2] eqn:Hg. simpl in Hget, Hmax'. subst cached.
  destruct (dict_values d) as [|r rs] eqn:Hd.
  - (* nothing was found: the empty list counts as no cached result *)
    cbn [fmap list_fmap].
    assert (Hraw : entity_of_span <$> kept_spans entity_types sents ents text = []).
    { destruct Hinv as [_ Hdom _ _ _].
      destruct (entity_of_span <$> kept_spans entity_types sents ents text)
        as [|x raw]; [done|].
      assert (Hk : merge_key x ∈ dict_keys d) by (apply Hdom; by left).
      unfold dict_values in Hd. apply fmap_nil_inv in Hd. subst d.
      by apply elem_of_nil in Hk. }
    assert (Hh : h' = h).
    { destruct Hinv as [_ _ _ Hold Hlen]. rewrite Hraw in Hlen. simpl in Hlen.
      apply list_eq. intros i. destruct (decide (i < length h)) as [Hi|Hi].
      - by apply Hold.
      - rewrite !lookup_ge_None_2 by lia. done. }
    subst h'. rewrite Hres. simpl. rewrite Hd.
    assert (Hcap2 : (0 ≤ max_size c2)%Z) by (rewrite Hmax', Hmax; done).
    rewrite set_unfold by done. cbn zeta. simpl. rewrite app_nil_r. by eexists.
  - rewrite fmap_cons. exists c2. rewrite <-!fmap_cons.
    rewrite <-list_fmap_compose, !length_fmap. done.
Qed.

Lemma extract_entities_again_witness :
  ∃ h1 c1 c2,
    EntityExtractor.extract sample_hash sample_entity_types false sample_sents
      sample_ents 1 [] (Cache_init [] 5) "Ada joined IBM; ada stays today."
    = Ok (h1, c1, [0; 2])
    ∧ occurrences <$> h1 !! 0 = Some 2%Z
    ∧ EntityExtractor.extract sample_hash sample_entity_types false sample_sents
        sample_ents 2 h1 c1 "Ada joined IBM; ada stays today."
      = Ok (h1 ++ [Entity_init "Ada" "PERSON" 0 3; Entity_init "IBM" "ORG" 20 23],
            c2, [3; 4]).
Proof.
  assert (Hfirst : ∃ c1,
    EntityExtractor.extract sample_hash sample_entity_types false sample_sents
      sample_ents 1 [] (Cache_init [] 5) "Ada joined IBM; ada stays today."
    = Ok ([ mkEntity "Ada" "ada" "PERSON" 0 3 2 {[ "Ada"; "ada " ]};
            Entity_init "ada " "PERSON" 10 14; Entity_init "IBM" "ORG" 20 23 ],
          c1, [0; 2])).
  { eexists. vm_compute. reflexivity. }
  destruct Hfirst as [c1 Hfirst].
  destruct (extract_entities_again sample_hash sample_entity_types false sample_sents
              sample_ents 1 2 [] _ (Cache_init [] 5) c1
              "Ada joined IBM; ada stays today." [0; 2]
              ltac:(simpl; lia) ltac:(constructor) eq_refl Hfirst) as [c2 Hsecond].
  eexists _, c1, c2. split; [exact Hfirst|]. split; [reflexivity|]. exact Hsecond.
Defined.

(** * From a text to a graph *)

Section Building.

Lemma add_entity_length (h : heap) (kg : KnowledgeGraph) (r : ref) :
  length (add_entity h kg r).1 = length h.
Proof.
  unfold add_entity. destruct (h !! r) as [e|]; [|done].
  destruct (dict_get (text e) (entities kg)); [|done].
  simpl. apply Entity_update_length.
Qed.

Lemma add_entity_keys (h : heap) (kg : KnowledgeGraph) (r : ref) k :
  k ∈ dict_keys (entities (add_entity h kg r).2)
  ↔ k ∈ dict_keys (entities kg) ∨ (r < length h ∧ k = heap_text h r).
Proof.
  unfold add_entity, heap_text. destruct (h !! r) as [e|] eqn:He.
  - apply lookup_lt_Some in He as Hlt.
    destruct (dict_get (text e) (entities kg)) as [r0|] eqn:Hget; simpl.
    + split; [by left|]. intros [?|[_ ->]]; [done|].
      apply dict_get_is_Some. by eexists.
    + rewrite dict_keys_set_elem. naive_solver.
  - apply lookup_ge_None in He. simpl. split; [by left|]. intros [?|[? _]]; [done | lia].
Qed.

Lemma add_entities_spec (es : list ref) : ∀ h kg,
  reachable h kg → (∀ r, r ∈ es → r < length h) →
  let st := add_entities h kg es in
  reachable st.1 st.2
  ∧ length st.1 = length h
  ∧ (∀ x, heap_text st.1 x = heap_text h x)
  ∧ relations st.2 = relations kg
  ∧ (∀ k, k ∈ dict_keys (entities st.2)
          ↔ k ∈ dict_keys (entities kg) ∨ k ∈ heap_text h <$> es).
Proof.
  unfold add_entities. induction es as [|e es IH]; intros h kg Hr Hvalid; cbn zeta.
  - simpl. split_and!; [done..|]. intros k. rewrite elem_of_nil. tauto.
  - cbn [foldl fst snd].
    assert (He : e < length h) by (apply Hvalid; by left).
    destruct (IH (add_entity h kg e).1 (add_entity h kg e).2) as (H1 & H2 & H3 & H4 & H5).
    { by apply reachable_add_entity. }
    { intros r Hin. rewrite add_entity_length. apply Hvalid. by right. }
    cbn zeta in *.
    replace (add_entity h kg e) with ((add_entity h kg e).1, (add_entity h kg e).2)
      by (by destruct (add_entity h kg e)).
    cbn [fst snd]. split_and!.
    + done.
    + by rewrite H2, add_entity_length.
    + intros x. by rewrite H3, add_entity_heap_text.
    + by rewrite H4, add_entity_relations.
    + intros k. rewrite H5, add_entity_keys, fmap_cons, elem_of_cons.
      assert (Heq : heap_text (add_entity h kg e).1 <$> es = heap_text h <$> es).
      { apply list_fmap_ext. intros _ x _. apply add_entity_heap_text. }
      rewrite Heq. naive_solver.
Qed.

Lemma add_relations_spec (rels : list Relation) : ∀ h kg,
  reachable h kg →
  (∀ rel, rel ∈ rels → source rel < length h ∧ target rel < length h) →
  reachable h (add_relations h kg rels)
  ∧ entities (add_relations h kg rels) = entities kg
  ∧ relations (add_relations h kg rels) = relations kg ++ rels.
Proof.
  unfold add_relations. induction rels as [|rel rels IH]; intros h kg Hr Hvalid.
  - simpl. by rewrite app_nil_r.
  - cbn [foldl]. destruct (Hvalid rel) as [Hs Ht]; [by left|].
    destruct (IH h (add_relation h kg rel)) as (H1 & H2 & H3).
    { by apply reachable_add_relation. }
    { intros r Hin. apply Hvalid. by right. }
    split_and!; [done | by rewrite H2 | rewrite H3; simpl; by rewrite <-app_assoc].
Qed.

End Building.

Section Valid.

Variable hash : string → Z.
Variable entity_types : list string.
Variable use_mlx : bool.
Variable sents : string → list string.
Variable ents : string → list Span.

Lemma extract_entities_valid now h c text h1 c1 es :
  EntityExtractor.extract hash entity_types use_mlx sents ents now h c text
  = Ok (h1, c1, es) →
  ∀ r, r ∈ es → r < length h1.
Proof.
  unfold EntityExtractor.extract. cbn zeta.
  destruct (get hash c _) as [cached c0].
  assert (Hcomputed :
    ('(h', d) ← EntityExtractor.merge_results h []
                  (parallel_process (sents text)
                     (EntityExtractor._process_sentence entity_types use_mlx ents));
     c' ← set hash now c0 ("entities_" +:+ pretty (hash text))
            (EntityList (EntityExtractor.cached_of h' <$> dict_values d));
     Ok (h', c', dict_values d)) = Ok (h1, c1, es) →
    ∀ r, r ∈ es → r < length h1).
  { pose proof (merge_results_inv h
                  (parallel_process (sents text)
                     (EntityExtractor._process_sentence entity_types use_mlx ents))
                  h [] [] (merge_inv_init h)) as Hinv.
    destruct (EntityExtractor.merge_results h [] _) as [[h' d]|e]; [|done]. simpl.
    destruct (set hash now c0 _ _) as [c'|e]; [|done]. simpl.
    intros [= <- _ <-] r (kr & -> & Hin)%list_elem_of_fmap.
    destruct Hinv as [[_ _ Hval _ _] _].
    destruct (Hval kr.1 kr.2) as (_ & e & He & _); [by destruct kr|].
    by eapply lookup_lt_Some. }
  destruct cached as [[[|e l]|[|r l]]|];
    [exact Hcomputed | | exact Hcomputed | intros [=] | exact Hcomputed].
  clear Hcomputed. intros Heq r Hr. injection Heq as <- _ <-.
  rewrite length_app. simpl in *.
  apply elem_of_cons in Hr as [->|Hr%elem_of_seq]; lia.
Qed.

End Valid.

(** The graph that the command line builds from a text, whatever the
    libraries answer and whatever the cache holds, is a state of the graph
    store in which every relation joins two stored entities: both ends of
    every relation are entity keys, so no relation is skipped when the graph
    is written to a snapshot and loaded again. *)
Theorem process_builds_graph (hash : string → Z)
    (hash_pairs : list (string * string) → Z) (entity_types : list string)
    (relation_patterns : list (string * string)) (use_mlx : bool)
    (sents : string → list string) (ents : string → list Span)
    (doc : string → list Token)
    (finditer : string → string → list (list (option string)))
    (now : Z) (h h' : heap) (c c' : Cache CacheValue) (input_text : string)
    (kg : KnowledgeGraph) :
  process hash hash_pairs entity_types relation_patterns use_mlx sents ents doc
    finditer now h c input_text = Ok (h', c', kg) →
  reachable h' kg
  ∧ Forall (resolved (entities kg)) (snap_relations (to_dict h' kg))
  ∧ (∀ rel, rel ∈ relations kg →
       is_Some (get_entity kg (heap_text h' (source rel)))
       ∧ is_Some (get_entity kg (heap_text h' (target rel)))).
Proof.
  unfold process.
  destruct (EntityExtractor.extract _ _ _ _ _ _ _ _ _) as [[[h1 c1] es]|e] eqn:Hes;
    [|done]. simpl.
  destruct (RelationExtractor.extract _ _ _ _ _ _ _ _ _ _ _ _) as [[c2 rels]|e] eqn:Hrs;
    [|done]. simpl.
  pose proof (extract_entities_valid _ _ _ _ _ _ _ _ _ _ _ _ Hes) as Hvalid.
  pose proof (extract_relations_ends _ _ _ _ _ _ _ _ _ _ _ _ _ _ Hrs) as Hends.
  destruct (add_entities_spec es h1 KnowledgeGraph_init (reachable_init h1) Hvalid)
    as (Hr & Hlen & Htext & Hrel0 & Hkeys).
  destruct (add_entities h1 KnowledgeGraph_init es) as [h2 kg2]. cbn [fst snd] in *.
  intros [= <- _ <-].
  assert (Hrv : ∀ rel, rel ∈ rels → source rel < length h2 ∧ target rel < length h2).
  { intros rel Hin. destruct (Hends rel Hin) as [Hs Ht]. rewrite Hlen.
    split; by apply Hvalid. }
  destruct (add_relations_spec rels h2 kg2 Hr Hrv) as (Hr' & Hents & Hrels).
  assert (Hfound : ∀ rel, rel ∈ relations (add_relations h2 kg2 rels) →
            is_Some (get_entity (add_relations h2 kg2 rels) (heap_text h2 (source rel)))
            ∧ is_Some (get_entity (add_relations h2 kg2 rels)
                         (heap_text h2 (target rel)))).
  { intros rel Hin. rewrite Hrels, Hrel0 in Hin. simpl in Hin.
    destruct (Hends rel Hin) as [Hs Ht]. unfold get_entity. rewrite Hents.
    split; apply dict_get_is_Some, Hkeys; right; rewrite Htext;
      by apply list_elem_of_fmap_2. }
  split_and!; [done | | done].
  apply Forall_forall. intros rd Hrd. unfold to_dict in Hrd. cbn [snap_relations] in Hrd.
  apply list_elem_of_fmap in Hrd as (rel & -> & Hin).
  destruct (Hfound rel Hin) as [Hs Ht]. split; simpl; done.
Qed.

Lemma process_builds_graph_witness :
  ∃ h' c' kg,
    process sample_hash sample_hash_pairs sample_entity_types default_relation_patterns
      false sample_sents sample_ents sample_doc
      (λ pattern _, if decide (pattern = "(\w+) (work|works|worked) for (\w+)")
                    then [[Some "Ada"; Some "works"; Some "ibm"]] else [])
      1 [] (Cache_init [] 5) "Ada works for IBM." = Ok (h', c', kg)
    ∧ dict_keys (entities kg) = ["Ada"; "IBM"]
    ∧ length (relations kg) = 1
    ∧ reachable h' kg.
Proof.
  assert (Hrun : ∃ h' c' kg,
    process sample_hash sample_hash_pairs sample_entity_types default_relation_patterns
      false sample_sents sample_ents sample_doc
      (λ pattern _, if decide (pattern = "(\w+) (work|works|worked) for (\w+)")
                    then [[Some "Ada"; Some "works"; Some "ibm"]] else [])
      1 [] (Cache_init [] 5) "Ada works for IBM." = Ok (h', c', kg)
    ∧ dict_keys (entities kg) = ["Ada"; "IBM"]
    ∧ length (relations kg) = 1).
  { eexists _, _, _. vm_compute. split_and!; reflexivity. }
  destruct Hrun as (h' & c' & kg & Hrun & Hkeys & Hlen).
  exists h', c', kg. split_and!; [done..|].
  by destruct (process_builds_graph _ _ _ _ _ _ _ _ _ _ _ _ _ _ _ _ Hrun) as [? _].
Defined.

(** * Normal forms of entity texts; the find and related commands *)

(** * Normalized texts *)

Section Normalizing.

Lemma char_lower_idem c : Py.char_lower (Py.char_lower c) = Py.char_lower c.
Proof. by destruct c as [[] [] [] [] [] [] [] []]. Qed.

Lemma lower_idem s : Py.lower (Py.lower s) = Py.lower s.
Proof. induction s as [|c s IH]; [done|]. simpl. by rewrite char_lower_idem, IH. Qed.

Lemma lower_lstrip s : Py.lower (Py.lstrip s) = Py.lstrip (Py.lower s).
Proof.
  induction s as [|c s IH]; [done|]. simpl. rewrite isspace_lower.
  by destruct (Py.isspace c).
Qed.

Lemma lower_rstrip s : Py.lower (Py.rstrip s) = Py.rstrip (Py.lower s).
Proof.
  induction s as [|c s IH]; [done|]. simpl. rewrite <-IH, isspace_lower.
  destruct (Py.rstrip s); [by destruct (Py.isspace c) | done].
Qed.

Lemma lower_strip s : Py.lower (Py.strip s) = Py.strip (Py.lower s).
Proof. unfold Py.strip. by rewrite lower_rstrip, lower_lstrip. Qed.

Lemma lower_app a b : Py.lower (a +:+ b) = Py.lower a +:+ Py.lower b.
Proof. induction a as [|c a IH]; [done|]. rewrite append_cons. simpl. by rewrite IH. Qed.

Lemma lower_spaces ws :
  string_forall Py.isspace ws = true → string_forall Py.isspace (Py.lower ws) = true.
Proof.
  induction ws as [|c ws IH]; [done|]. simpl. rewrite isspace_lower.
  intros [-> Hws]%andb_true_iff. by apply IH.
Qed.

End Normalizing.

(** The normalized text of an entity is a normal form: it is in lower case
    and has no white space at either end, so normalizing it again changes
    nothing; texts that differ only in letter case or in surrounding white
    space have the same normalized text, which is why [extract] merges their
    entities when the types agree. *)
Theorem normalized_text_normal (t ty : string) (s e : Z) :
  let n := normalized_text (Entity_init t ty s e) in
  Py.lower n = n ∧ Py.strip n = n
  ∧ normalized_text (Entity_init n ty s e) = n
  ∧ (∀ t' ws1 ws2,
       Py.lower t' = Py.lower t →
       string_forall Py.isspace ws1 = true → string_forall Py.isspace ws2 = true →
       merge_key (Entity_init (ws1 +:+ t' +:+ ws2) ty s e)
       = merge_key (Entity_init t ty s e)).
Proof.
  cbn [Entity_init normalized_text]. cbn zeta.
  assert (H1 : Py.lower (Py.strip (Py.lower t)) = Py.strip (Py.lower t)).
  { by rewrite lower_strip, lower_idem. }
  split_and!.
  - done.
  - apply strip_idem.
  - by rewrite H1, strip_idem.
  - intros t' ws1 ws2 Ht H2 H3. unfold merge_key. cbn [Entity_init normalized_text entity_type].
    f_equal. rewrite !lower_app, Ht. unfold Py.strip.
    rewrite lstrip_spaces by (by apply lower_spaces).
    fold (Py.strip (Py.lower t +:+ Py.lower ws2)).
    rewrite strip_app_spaces by (by apply lower_spaces). done.
Qed.

Section FindFirst.

Lemma find_ci_first name before k (r : ref) after :
  Py.lower k = Py.lower name →
  (∀ k', k' ∈ dict_keys before → Py.lower k' ≠ Py.lower name) →
  find_ci name (before ++ (k, r) :: after) = Some r.
Proof.
  intros Hk. induction before as [|[k0 r0] before IH]; intros Hbefore; simpl.
  - by rewrite decide_True.
  - rewrite decide_False by (apply Hbefore; by left).
    apply IH. intros k' Hk'. apply Hbefore. by right.
Qed.

End FindFirst.

(** [_handle_find] answers with the entity stored under the name as typed
    when there is one, even if other keys equal the name up to letter case;
    otherwise with the entity of the first key, in the order in which keys
    were added, that equals the name up to letter case.  The message names
    the key found, and the data are the entity's [to_dict] and the relations
    of that key. *)
Theorem _handle_find_finds (h : heap) (kg : KnowledgeGraph) (name : string) :
  reachable h kg →
  (∀ r e, get_entity kg name = Some r → h !! r = Some e →
     _handle_find h kg name
     = Ok (mkResponse true ("Found entity: " +:+ name)
             (Some (FindData (Entity_to_dict e) (get_relations h kg name)))))
  ∧ (∀ before k r after e,
       get_entity kg name = None →
       entities kg = before ++ (k, r) :: after →
       Py.lower k = Py.lower name →
       (∀ k', k' ∈ dict_keys before → Py.lower k' ≠ Py.lower name) →
       h !! r = Some e →
       _handle_find h kg name
       = Ok (mkResponse true ("Found entity: " +:+ k)
               (Some (FindData (Entity_to_dict e) (get_relations h kg k))))).
Proof.
  intros Hr. pose proof (reachable_inv _ _ Hr) as Hinv. split.
  - intros r e Hget He. unfold _handle_find. rewrite Hget.
    destruct (si_text _ _ Hinv name r (dict_get_Some_elem _ _ _ Hget)) as [_ Ht].
    by rewrite Ht, He.
  - intros before k r after e Hnone Hents Hk Hbefore He.
    unfold _handle_find. rewrite Hnone, Hents.
    rewrite (find_ci_first name before k r after Hk Hbefore).
    assert (Hin : (k, r) ∈ entities kg).
    { rewrite Hents. apply elem_of_app. right. by left. }
    destruct (si_text _ _ Hinv k r Hin) as [_ Ht]. by rewrite Ht, He.
Qed.

Lemma _handle_find_finds_witness :
  _handle_find case_heap case_kg "Google"
  = Ok (mkResponse true "Found entity: Google"
          (Some (FindData (mkEntityDict "Google" "ORG" 1 ["Google"]) [])))
  ∧ _handle_find case_heap case_kg "GOOGLE"
    = Ok (mkResponse true "Found entity: google"
            (Some (FindData (mkEntityDict "google" "ORG" 1 ["google"]) []))).
Proof.
  destruct (_handle_find_finds case_heap case_kg "Google" case_reachable) as [Hexact _].
  destruct (_handle_find_finds case_heap case_kg "GOOGLE" case_reachable) as [_ Hfirst].
  split.
  - rewrite (Hexact 1 (Entity_init "Google" "ORG" 0 6)); reflexivity.
  - rewrite (Hfirst [] "google" 0 [("Google", 1); ("Apple", 2)]
               (Entity_init "google" "ORG" 0 6)); try reflexivity.
    intros k' Hk'. by apply elem_of_nil in Hk'.
Defined.

(** For a stored entity, [_handle_related] answers with its relations and
    at most five similar entities.  A similar entity is never the entity
    asked for; it is listed among the relations of a neighbour [via] of the
    entity, with the same relation type under which [via] is listed among
    the relations of the entity. *)
Theorem _handle_related_spec (h : heap) (kg : KnowledgeGraph) (name : string) :
  reachable h kg → is_Some (get_entity kg name) →
  ∃ similar,
    _handle_related h kg name
    = Ok (mkResponse true ("Found related entities for '" +:+ name +:+ "'")
            (Some (RelatedData (get_relations h kg name) similar)))
    ∧ length similar ≤ 5
    ∧ ∀ se, se ∈ similar →
        se_entity se ≠ name
        ∧ ∃ d1 d2 s1 s2,
            mkRelationEntry d1 (se_shared_relation_type se) (se_via se) s1
              ∈ get_relations h kg name
            ∧ mkRelationEntry d2 (se_shared_relation_type se) (se_entity se) s2
                ∈ get_relations h kg (se_via se).
Proof.
  intros Hr [r Hget]. pose proof (reachable_inv _ _ Hr) as Hinv.
  destruct (si_text _ _ Hinv name r (dict_get_Some_elem _ _ _ Hget)) as [_ Ht].
  unfold _handle_related. rewrite Hget, Ht.
  eexists. split; [done|]. split.
  - rewrite length_take. lia.
  - intros se Hse. apply elem_of_take in Hse as (i & Hse & _).
    apply list_elem_of_lookup_2 in Hse.
    apply list_elem_of_bind in Hse as (rel & Hse & Hrel).
    unfold similar_via in Hse. apply list_elem_of_omap in Hse as (other & Hother & Hsome).
    destruct (bool_decide (re_entity other ≠ name)) eqn:Hne; [|done].
    destruct (bool_decide (re_relation_type other = re_relation_type rel)) eqn:Hty;
      [|done].
    simpl in Hsome. injection Hsome as <-. simpl.
    apply bool_decide_eq_true in Hne, Hty. split; [done|].
    exists (re_direction rel), (re_direction other), (re_sentence rel), (re_sentence other).
    split.
    + by destruct rel.
    + rewrite <-Hty. by destruct other.
Qed.

Lemma rival_reachable : reachable rival_heap rival_kg.
Proof.
  unfold rival_kg. cbn [foldl].
  repeat (apply reachable_add_relation; [|simpl; lia|simpl; lia]).
  repeat (apply reachable_add_entity_same; [|simpl; lia|reflexivity]).
  apply reachable_init.
Qed.

Lemma _handle_related_spec_witness :
  ∃ similar,
    _handle_related rival_heap rival_kg "A"
    = Ok (mkResponse true "Found related entities for 'A'"
            (Some (RelatedData [mkRelationEntry outgoing "owns" "B" "A owns B."] similar)))
    ∧ similar = [mkSimilarEntry "C" "owns" "B"]
    ∧ length similar ≤ 5.
Proof.
  destruct (_handle_related_spec rival_heap rival_kg "A" rival_reachable)
    as (similar & Heq & Hlen & _).
  { by exists 0. }
  assert (Hrun : _handle_related rival_heap rival_kg "A"
                 = Ok (mkResponse true "Found related entities for 'A'"
                         (Some (RelatedData
                                  [mkRelationEntry outgoing "owns" "B" "A owns B."]
                                  [mkSimilarEntry "C" "owns" "B"]))))
    by (vm_compute; reflexivity).
  rewrite Hrun in Heq. injection Heq as <-.
  eexists. split_and!; [exact Hrun | reflexivity | exact Hlen].
Defined.
